(** * LogFlux Go SDK: the send pipeline, verified against its specification

    A shallow embedding of the Go sources of [pkg/types], [pkg/config] and
    [pkg/client] (client.go and batch.go), followed by the properties that
    the specification states about them.

    Conventions
    - Go's [int] and [int64] (and so [time.Duration], nanoseconds) are [Z];
      [int32] is [Z] with its wrap-around written out ([wrap_int32]).
    - Go's [float64] is [spec_float] at precision 53 and maximal exponent
      1024, with the correctly rounded operations of the Standard Library.
    - a [nil] pointer, interface or channel is [None].
    - what the network, the clock, the random source and the scheduler
      answer is read from an [Env]: every interaction takes the next index
      of the run. *)

From Stdlib Require Import ZArith List String Bool Lia QArith.
From Stdlib Require Import Floats.SpecFloat.
From stdpp Require Import base strings gmap pretty.
Import ListNotations.
Open Scope Z_scope.

(* ===================================================================== *)
(** * Machine numbers *)
(* ===================================================================== *)

Definition min_int64 : Z := - 2 ^ 63.
Definition max_int64 : Z := 2 ^ 63 - 1.

(** Two's complement wrap-around of [int32] arithmetic and conversions. *)
Definition wrap_int32 (z : Z) : Z := (z + 2 ^ 31) mod 2 ^ 32 - 2 ^ 31.

(** Two's complement wrap-around of [int] arithmetic on a 64-bit platform. *)
Definition wrap_int64 (z : Z) : Z := (z + 2 ^ 63) mod 2 ^ 64 - 2 ^ 63.

(** [time.Time.Sub] saturates at the ends of [time.Duration]. *)
Definition saturate_int64 (z : Z) : Z := Z.max min_int64 (Z.min max_int64 z).

(** Go's [float64]: IEEE 754 binary64. *)
Definition float64 : Type := spec_float.

Module F64.

Definition prec : Z := 53.
Definition emax : Z := 1024.

Definition mul : float64 -> float64 -> float64 := SFmul prec emax.
Definition add : float64 -> float64 -> float64 := SFadd prec emax.
Definition sub : float64 -> float64 -> float64 := SFsub prec emax.
Definition div : float64 -> float64 -> float64 := SFdiv prec emax.

(** [x > y] and [x < y] of Go: false as soon as one side is a NaN. *)
Definition gt (x y : float64) : bool := SFltb y x.
Definition lt (x y : float64) : bool := SFltb x y.

(** [float64(n)] for an integer [n]: rounded to nearest, ties to even. *)
Definition of_int (n : Z) : float64 := binary_normalize prec emax n 0 false.

(** The integer part of a finite float, rounded toward zero. *)
Definition trunc (f : float64) : option Z :=
  match f with
  | S754_zero _ => Some 0
  | S754_finite s m e =>
      let mag := if 0 <=? e then Z.pos m * 2 ^ e else Z.pos m / 2 ^ (- e) in
      Some (if s then - mag else mag)
  | S754_infinity _ | S754_nan => None
  end.

(** [int64(f)]: the fraction is discarded.  When the value does not fit
    (or [f] is infinite or a NaN) Go leaves the result to the
    implementation; [ovf] is what the platform answers then. *)
Definition to_int64 (ovf : float64 -> Z) (f : float64) : Z :=
  match trunc f with
  | Some v => if (min_int64 <=? v) && (v <=? max_int64) then v else ovf f
  | None => ovf f
  end.

(** The exact rational value of a finite float (0 for the others). *)
Definition to_Q (f : float64) : Q :=
  match f with
  | S754_finite s m e =>
      let q := if 0 <=? e then inject_Z (Z.pos m * 2 ^ e)
               else Qmake (Z.pos m) (Z.to_pos (2 ^ (- e))) in
      if s then Qopp q else q
  | _ => 0%Q
  end.

End F64.

(* ===================================================================== *)
(** * Package types (pkg/types/types.go) *)
(* ===================================================================== *)

Module types.

Record LogEntry := {
  Metadata : gmap string string;
  Version : string;
  Payload : string;
  Source : string;
  Timestamp : string;
  PayloadType : string;
  EntryType : Z;
  LogLevel : Z
}.

Record LogBatch := {
  BatchVersion : string;
  Entries : list LogEntry
}.

Definition LevelEmergency : Z := 1.
Definition LevelAlert : Z := 2.
Definition LevelCritical : Z := 3.
Definition LevelError : Z := 4.
Definition LevelWarning : Z := 5.
Definition LevelNotice : Z := 6.
Definition LevelInfo : Z := 7.
Definition LevelDebug : Z := 8.

Definition TypeLog : Z := 1.

Definition DefaultProtocolVersion : string := "1.0".

(** [func (e LogEntry) WithLogLevel(logLevel int) LogEntry]: the receiver
    is a copy, so the caller's entry is untouched and the copy returned. *)
Definition WithLogLevel (e : LogEntry) (logLevel : Z) : LogEntry :=
  let logLevel :=
    if (logLevel <? LevelEmergency) || (LevelDebug <? logLevel)
    then LevelInfo
    else logLevel in
  {| Metadata := Metadata e;
     Version := Version e;
     Payload := Payload e;
     Source := Source e;
     Timestamp := Timestamp e;
     PayloadType := PayloadType e;
     EntryType := EntryType e;
     LogLevel := logLevel |}.

Record PingRequest := {
  PingVersion : string;
  PingAction : string
}.

Record PongResponse := { PongStatus : string }.

Record AuthRequest := {
  AuthVersion : string;
  AuthAction : string;
  AuthSharedSecret : string
}.

Record AuthResponse := {
  AuthStatus : string;
  AuthMessage : string
}.

Definition NewPingRequest : PingRequest :=
  {| PingVersion := DefaultProtocolVersion; PingAction := "ping" |}.

(** [NewAuthRequest] panics on an empty secret: [None] is the panic. *)
Definition NewAuthRequest (sharedSecret : string) : option AuthRequest :=
  if String.eqb sharedSecret "" then None
  else Some {| AuthVersion := DefaultProtocolVersion;
               AuthAction := "authenticate";
               AuthSharedSecret := sharedSecret |}.

(** ** The other builders of [LogEntry] *)

Definition PayloadTypeGeneric : string := "generic".
Definition PayloadTypeGenericJSON : string := "generic_json".

(** [func AutoDetectPayloadType(message string) PayloadType];
    [IsValidJSON] is what [json.Unmarshal] makes of the string. *)
Definition AutoDetectPayloadType (IsValidJSON : string -> bool) (message : string)
  : string :=
  if IsValidJSON message then PayloadTypeGenericJSON else PayloadTypeGeneric.

(** [func NewLogEntry(payload, source string) LogEntry]; [now] is
    [time.Now().UTC().Format(time.RFC3339)]. *)
Definition NewLogEntry (IsValidJSON : string -> bool) (now : string)
    (payload source : string) : LogEntry :=
  let source := if String.eqb source "" then "unknown" else source in
  let payloadType := AutoDetectPayloadType IsValidJSON payload in
  {| Version := DefaultProtocolVersion;
     Payload := payload;
     EntryType := TypeLog;
     Source := source;
     LogLevel := LevelInfo;
     Timestamp := now;
     PayloadType := payloadType;
     Metadata := ∅ |}.

(** [func (e LogEntry) WithEntryType(entryType int) LogEntry] *)
Definition WithEntryType (e : LogEntry) (entryType : Z) : LogEntry :=
  {| Metadata := Metadata e; Version := Version e; Payload := Payload e;
     Source := Source e; Timestamp := Timestamp e; PayloadType := PayloadType e;
     EntryType := TypeLog; LogLevel := LogLevel e |}.

(** [func (e LogEntry) WithSource(source string) LogEntry] *)
Definition WithSource (e : LogEntry) (source : string) : LogEntry :=
  let source := if String.eqb source "" then "unknown" else source in
  {| Metadata := Metadata e; Version := Version e; Payload := Payload e;
     Source := source; Timestamp := Timestamp e; PayloadType := PayloadType e;
     EntryType := EntryType e; LogLevel := LogLevel e |}.

(** [func (e LogEntry) WithMetadata(key, value string) LogEntry]: the map of
    the receiver is copied, the copy updated. *)
Definition WithMetadata (e : LogEntry) (key value : string) : LogEntry :=
  if String.eqb key "" then e
  else
    {| Metadata := <[key := value]> (Metadata e);
       Version := Version e; Payload := Payload e;
       Source := Source e; Timestamp := Timestamp e; PayloadType := PayloadType e;
       EntryType := EntryType e; LogLevel := LogLevel e |}.

(** [func (e LogEntry) WithAllMetadata(metadata map[string]string) LogEntry]:
    the receiver's map is copied, then every pair of [metadata] is stored
    over it. *)
Definition WithAllMetadata (e : LogEntry) (metadata : gmap string string) : LogEntry :=
  {| Metadata := metadata ∪ Metadata e;
     Version := Version e; Payload := Payload e;
     Source := Source e; Timestamp := Timestamp e; PayloadType := PayloadType e;
     EntryType := EntryType e; LogLevel := LogLevel e |}.

(** [func (e LogEntry) WithTimestampString(timestamp string) LogEntry] *)
Definition WithTimestampString (e : LogEntry) (timestamp : string) : LogEntry :=
  {| Metadata := Metadata e; Version := Version e; Payload := Payload e;
     Source := Source e; Timestamp := timestamp; PayloadType := PayloadType e;
     EntryType := EntryType e; LogLevel := LogLevel e |}.

(** [func (e LogEntry) WithTimestamp(timestamp time.Time) LogEntry];
    [format] is [UTC().Format(time.RFC3339)] on instants. *)
Definition WithTimestamp (format : Z -> string) (e : LogEntry) (timestamp : Z)
  : LogEntry :=
  WithTimestampString e (format timestamp).

(** [func (e LogEntry) WithPayloadType(payloadType PayloadType) LogEntry] *)
Definition WithPayloadType (e : LogEntry) (payloadType : string) : LogEntry :=
  {| Metadata := Metadata e; Version := Version e; Payload := Payload e;
     Source := Source e; Timestamp := Timestamp e; PayloadType := payloadType;
     EntryType := EntryType e; LogLevel := LogLevel e |}.

(** [func (e LogEntry) WithVersion(version string) LogEntry] *)
Definition WithVersion (e : LogEntry) (version : string) : LogEntry :=
  {| Metadata := Metadata e; Version := version; Payload := Payload e;
     Source := Source e; Timestamp := Timestamp e; PayloadType := PayloadType e;
     EntryType := EntryType e; LogLevel := LogLevel e |}.

End types.

(* ===================================================================== *)
(** * Package config (pkg/config/config.go) *)
(* ===================================================================== *)

Module config.

Definition Millisecond : Z := 1000000.
Definition Second : Z := 1000000000.

Record Config := {
  Network : string;
  Address : string;
  SharedSecret : string;
  Timeout : Z;
  FlushInterval : Z;
  BatchSize : Z;
  MaxRetries : Z;
  RetryDelay : Z;
  MaxRetryDelay : Z;
  RetryMultiplier : float64;
  JitterPercent : float64;
  AsyncMode : bool;
  ChannelBuffer : Z;
  CircuitBreakerThreshold : Z;
  CircuitBreakerTimeout : Z
}.

Record BatchConfig := {
  MaxBatchSize : Z;
  BatchFlushInterval : Z;
  AutoFlush : bool
}.

Definition DefaultNetwork : string := "unix".
Definition DefaultSocketPath : string := "/tmp/logflux-agent.sock".
Definition DefaultTimeout : Z := 10 * Second.
Definition DefaultRetryDelay : Z := 100 * Millisecond.
Definition DefaultMaxRetryDelay : Z := 5 * Second.
Definition DefaultRetryMultiplier : float64 := F64.of_int 2.
(** The literal [0.1]: the float64 nearest to one tenth. *)
Definition DefaultJitterPercent : float64 := F64.div (F64.of_int 1) (F64.of_int 10).
Definition DefaultBatchSize : Z := 10.
Definition DefaultMaxBatchSize : Z := 10.
Definition DefaultFlushInterval : Z := 5 * Second.
Definition DefaultMaxRetries : Z := 3.
Definition DefaultAsyncMode : bool := true.
Definition DefaultChannelBuffer : Z := 1000.
Definition DefaultCircuitBreakerThreshold : Z := 5.
Definition DefaultCircuitBreakerTimeout : Z := 30 * Second.

Definition DefaultConfig : Config :=
  {| Network := DefaultNetwork;
     Address := DefaultSocketPath;
     Timeout := DefaultTimeout;
     SharedSecret := "";
     BatchSize := DefaultBatchSize;
     FlushInterval := DefaultFlushInterval;
     MaxRetries := DefaultMaxRetries;
     RetryDelay := DefaultRetryDelay;
     MaxRetryDelay := DefaultMaxRetryDelay;
     RetryMultiplier := DefaultRetryMultiplier;
     JitterPercent := DefaultJitterPercent;
     AsyncMode := DefaultAsyncMode;
     ChannelBuffer := DefaultChannelBuffer;
     CircuitBreakerThreshold := DefaultCircuitBreakerThreshold;
     CircuitBreakerTimeout := DefaultCircuitBreakerTimeout |}.

Definition DefaultBatchConfig : BatchConfig :=
  {| MaxBatchSize := DefaultMaxBatchSize;
     BatchFlushInterval := DefaultFlushInterval;
     AutoFlush := true |}.

(** [for i := 0; i < attempt; i++ { delay *= c.RetryMultiplier }] *)
Fixpoint scale (times : nat) (multiplier delay : float64) : float64 :=
  match times with
  | O => delay
  | S k => scale k multiplier (F64.mul delay multiplier)
  end.

(** Cap at the maximum delay. *)
Definition capped (c : Config) (attempt : Z) : float64 :=
  let delay := scale (Z.to_nat attempt) (RetryMultiplier c) (F64.of_int (RetryDelay c)) in
  let maxDelay := F64.of_int (MaxRetryDelay c) in
  if F64.gt delay maxDelay then maxDelay else delay.

(** Add jitter; [rnd] is what [rand.Float64()] returned (it is only
    drawn when the jitter fraction is positive). *)
Definition jittered (c : Config) (rnd : float64) (delay : float64) : float64 :=
  if F64.gt (JitterPercent c) (F64.of_int 0) then
    let jitter := F64.mul delay (JitterPercent c) in
    let jitterAmount :=
      F64.mul (F64.sub (F64.mul rnd (F64.of_int 2)) (F64.of_int 1)) jitter in
    F64.add delay jitterAmount
  else delay.

(** [func (c *Config) CalculateBackoffDelay(attempt int) time.Duration] *)
Definition CalculateBackoffDelay
    (ovf : float64 -> Z) (c : Config) (rnd : float64) (attempt : Z) : Z :=
  if attempt <=? 0 then RetryDelay c
  else
    let delay := jittered c rnd (capped c attempt) in
    let finalDelay := F64.to_int64 ovf delay in
    if finalDelay <? RetryDelay c then RetryDelay c
    else F64.to_int64 ovf delay.

End config.


(* ===================================================================== *)
(** * Package client (pkg/client/client.go, pkg/client/batch.go) *)
(* ===================================================================== *)

Module client.
Import types config.

(** ** Errors

    The sources build their errors with [fmt.Errorf]; each constructor
    stands for one message, [%w] for the wrapped cause. *)
#[local] Set Warnings "-register-all".
Inductive error : Type :=
| OSError (msg : string)          (* what net, os or encoding/json report *)
| ErrNetClosed                    (* net.ErrClosed: use of closed network connection *)
| ConnectError (network address : string) (cause : error)
                                  (* failed to connect to %s://%s: %w *)
| MarshalError (cause : error)    (* failed to marshal JSON: %w *)
| DeadlineError (cause : error)   (* failed to set write deadline: %w *)
| WriteError (cause : error)      (* failed to write data: %w *)
| CircuitOpenError                (* circuit breaker is open *)
| SendExhaustedError (attempts : Z) (lastErr : option error)
                                  (* failed to send after %d attempts: %w *)
| QueueFullError                  (* async channel full, dropping log entry *)
| NotInitializedError             (* async mode not initialized *)
| ShuttingDownError               (* client shutting down *)
| AuthTransportError              (* authentication only required for TCP connections *)
| AuthSecretError                 (* shared secret required for TCP authentication *)
| PingSendError (cause : error)   (* failed to send ping: %w *)
| AuthSendError (cause : error).  (* failed to send auth request: %w *)

(** ** Data *)

(** [data interface{}]: what the send pipeline is handed. *)
Inductive Data : Type :=
| LogEntryData (e : LogEntry)
| LogBatchData (b : LogBatch)
| PingData (p : PingRequest)
| AuthData (a : AuthRequest).

(** A [net.Conn]: the client keeps the reference after closing it. *)
Record Conn := { closed : bool }.

Record asyncRequest := {
  data : Data;
  respChan : option nat   (* nil for fire-and-forget, else the channel *)
}.

(** [chan asyncRequest] made with capacity [cap]; [buf] is what is queued,
    oldest first. *)
Record Chan := { cap : Z; buf : list asyncRequest }.

Definition circuitClosed : Z := 0.
Definition circuitOpen : Z := 1.
Definition circuitHalfOpen : Z := 2.

(** The breaker's [config] is the client's own [*config.Config]: the
    operations below take it as an argument. *)
Record circuitBreaker := {
  lastFailureTime : Z;
  state : Z;
  failureCount : Z
}.

(** [stopChan] is [Some b], [b] telling whether it has been closed.
    [muHeld] is set while [Close] holds [mu] and waits for the worker,
    and for ever once a goroutine is stuck inside a method that holds
    [mu]. *)
Record Client := {
  config : Config;
  conn : option Conn;
  asyncChan : option Chan;
  stopChan : option bool;
  breaker : circuitBreaker;
  muHeld : bool
}.

(** ** The environment and what a run leaves behind *)

Record Env := {
  env_now : nat -> Z;                        (* time.Now().UnixNano() *)
  env_format : Z -> string;                  (* UTC().Format(time.RFC3339) *)
  env_rand : nat -> float64;                 (* rand.Float64() *)
  env_ovf : float64 -> Z;                    (* int64(f) when f does not fit *)
  env_dial : nat -> option error;            (* DialContext; None: connected *)
  env_marshal : Data -> option error;     (* json.Marshal *)
  env_setWriteDeadline : nat -> option error;
  env_write : nat -> option error;
  env_connClose : nat -> option error;       (* Close of an open connection *)
  env_select : nat -> bool;                  (* the worker's select, both cases
                                                ready: true takes <-c.stopChan *)
  env_patience : nat                         (* how many iterations of a loop
                                                without end the run follows *)
}.

Inductive Event : Type :=
| EvSleep (d : Z)
| EvDial (network address : string)
| EvMarshal (p : Data)
| EvSetWriteDeadline
| EvWrite (p : Data)
| EvConnClose
| EvCircuitSuccess
| EvCircuitFailure
| EvRespond (ch : nat) (result : option error).

(** The client, the index of the next interaction with the environment,
    and the actions taken so far, oldest first. *)
Record World := {
  cl : Client;
  tick : nat;
  trace : list Event
}.

(** Which goroutine runs a method: a caller of the public API, or the
    background worker started by [startAsyncWorker]. *)
Inductive goroutine : Type := caller | worker.

(** ** A state monad with the three ways a Go call can end *)

Inductive Outcome (A : Type) : Type :=
| Returns (a : A)
| Blocks                 (* the goroutine never runs again *)
| Panics (msg : string)
| Unfinished.            (* still in a loop without end where the run is cut *)
Arguments Returns {A} a.
Arguments Blocks {A}.
Arguments Panics {A} msg.
Arguments Unfinished {A}.

Definition M (S A : Type) : Type := S -> Outcome A * S.

Definition ret {S A : Type} (a : A) : M S A := fun s => (Returns a, s).

Definition bind {S A B : Type} (m : M S A) (k : A -> M S B) : M S B :=
  fun s =>
    match m s with
    | (Returns a, s') => k a s'
    | (Blocks, s') => (Blocks, s')
    | (Panics msg, s') => (Panics msg, s')
    | (Unfinished, s') => (Unfinished, s')
    end.

Definition block {S A : Type} : M S A := fun s => (Blocks, s).
Definition cut {S A : Type} : M S A := fun s => (Unfinished, s).
Definition panic {S A : Type} (msg : string) : M S A := fun s => (Panics msg, s).
Definition get {S : Type} : M S S := fun s => (Returns s, s).
Definition modify {S : Type} (f : S -> S) : M S unit := fun s => (Returns tt, f s).

Declare Scope go_scope.
Delimit Scope go_scope with go.
Notation "x <- m ;; k" := (bind m (fun x => k))
  (at level 100, m at next level, right associativity) : go_scope.
Notation "m ;; k" := (bind m (fun _ => k))
  (at level 100, right associativity) : go_scope.
Open Scope go_scope.

(** ** Field updates *)

Definition set_conn (v : option Conn) (c : Client) : Client :=
  {| config := config c; conn := v; asyncChan := asyncChan c;
     stopChan := stopChan c; breaker := breaker c; muHeld := muHeld c |}.
Definition set_asyncChan (v : option Chan) (c : Client) : Client :=
  {| config := config c; conn := conn c; asyncChan := v;
     stopChan := stopChan c; breaker := breaker c; muHeld := muHeld c |}.
Definition set_stopChan (v : option bool) (c : Client) : Client :=
  {| config := config c; conn := conn c; asyncChan := asyncChan c;
     stopChan := v; breaker := breaker c; muHeld := muHeld c |}.
Definition set_breaker (v : circuitBreaker) (c : Client) : Client :=
  {| config := config c; conn := conn c; asyncChan := asyncChan c;
     stopChan := stopChan c; breaker := v; muHeld := muHeld c |}.
Definition set_muHeld (v : bool) (c : Client) : Client :=
  {| config := config c; conn := conn c; asyncChan := asyncChan c;
     stopChan := stopChan c; breaker := breaker c; muHeld := v |}.

Definition with_client (f : Client -> Client) (w : World) : World :=
  {| cl := f (cl w); tick := tick w; trace := trace w |}.

Definition client_ : M World Client := fun w => (Returns (cl w), w).
Definition update (f : Client -> Client) : M World unit := modify (with_client f).

(** The index of this interaction; the next one gets the next index. *)
Definition interact : M World nat :=
  fun w => (Returns (tick w),
            {| cl := cl w; tick := S (tick w); trace := trace w |}).

Definition emit (e : Event) : M World unit :=
  modify (fun w => {| cl := cl w; tick := tick w; trace := trace w ++ [e] |}).

(** ** The circuit breaker *)

(** [atomic.CompareAndSwapInt32(&v, old, new)] *)
Definition CompareAndSwapInt32 (v old new : Z) : Z * bool :=
  if v =? old then (new, true) else (v, false).

(** [time.Since(time.Unix(0, t))] read at the instant [now]. *)
Definition Since (now t : Z) : Z := saturate_int64 (now - t).

Definition set_state (v : Z) (b : circuitBreaker) : circuitBreaker :=
  {| lastFailureTime := lastFailureTime b; state := v;
     failureCount := failureCount b |}.
Definition set_failureCount (v : Z) (b : circuitBreaker) : circuitBreaker :=
  {| lastFailureTime := lastFailureTime b; state := state b;
     failureCount := v |}.
Definition set_lastFailureTime (v : Z) (b : circuitBreaker) : circuitBreaker :=
  {| lastFailureTime := v; state := state b;
     failureCount := failureCount b |}.

(** [func (cb *circuitBreaker) canExecute() error]; the clock is only
    read in the open state. *)
Definition canExecute (c : Config) (now : Z) (b : circuitBreaker)
  : circuitBreaker * option error :=
  let st := state b in
  if st =? circuitClosed then (b, None)
  else if st =? circuitOpen then
    let lastFailure := lastFailureTime b in
    if CircuitBreakerTimeout c <=? Since now lastFailure then
      let '(v, swapped) := CompareAndSwapInt32 (state b) circuitOpen circuitHalfOpen in
      if swapped then (set_state v b, None)
      else (set_state v b, Some CircuitOpenError)
    else (b, Some CircuitOpenError)
  else if st =? circuitHalfOpen then (b, None)
  else (b, None).

(** [func (cb *circuitBreaker) onSuccess()] *)
Definition onSuccess (b : circuitBreaker) : circuitBreaker :=
  let st := state b in
  if st =? circuitHalfOpen then
    set_failureCount 0 (set_state circuitClosed b)
  else if st =? circuitClosed then
    set_failureCount 0 b
  else b.

(** [func (cb *circuitBreaker) onFailure()]; [now] is
    [time.Now().UnixNano()]. *)
Definition onFailure (c : Config) (now : Z) (b : circuitBreaker) : circuitBreaker :=
  let failures := wrap_int32 (failureCount b + 1) in
  let b := set_failureCount failures b in
  let b := set_lastFailureTime now b in
  let st := state b in
  if st =? circuitHalfOpen then
    set_state circuitOpen b
  else if (st =? circuitClosed) && (wrap_int32 (CircuitBreakerThreshold c) <=? failures) then
    set_state circuitOpen b
  else b.

(** The breaker of a new client. *)
Definition newCircuitBreaker : circuitBreaker :=
  {| lastFailureTime := 0; state := circuitClosed; failureCount := 0 |}.

(** The three operations as the client runs them. *)
Definition canExecuteM (env : Env) : M World (option error) :=
  c <- client_ ;;
  if state (breaker c) =? circuitOpen then
    k <- interact ;;
    let '(b, err) := canExecute (config c) (env_now env k) (breaker c) in
    update (set_breaker b) ;;
    ret err
  else
    let '(b, err) := canExecute (config c) 0 (breaker c) in
    update (set_breaker b) ;;
    ret err.

Definition onSuccessM : M World unit :=
  emit EvCircuitSuccess ;;
  c <- client_ ;;
  update (set_breaker (onSuccess (breaker c))).

Definition onFailureM (env : Env) : M World unit :=
  emit EvCircuitFailure ;;
  k <- interact ;;
  c <- client_ ;;
  update (set_breaker (onFailure (config c) (env_now env k) (breaker c))).


(** ** The client *)

(** [func NewClient(cfg *config.Config) *Client]; a nil [cfg] is the
    default configuration.  [make(chan asyncRequest, n)] panics on a
    negative [n].  In async mode the worker goroutine is started. *)
Definition NewClient (cfg : option Config) : Outcome Client :=
  let cfg := match cfg with Some c => c | None => DefaultConfig end in
  if AsyncMode cfg then
    if ChannelBuffer cfg <? 0 then Panics "makechan: size out of range"
    else Returns {| config := cfg; conn := None;
                    asyncChan := Some {| cap := ChannelBuffer cfg; buf := [] |};
                    stopChan := Some false;
                    breaker := newCircuitBreaker; muHeld := false |}
  else Returns {| config := cfg; conn := None; asyncChan := None;
                  stopChan := None; breaker := newCircuitBreaker;
                  muHeld := false |}.

(** A [context.Context], as far as the dialer looks at it: whether it is
    done when the call is made. *)
Inductive Context : Type := ctx_live | ctx_done.

(** [context.WithTimeout(parent, timeout)]: done at once when the timeout
    is not positive. *)
Definition WithTimeout (parent : Context) (timeout : Z) : Context :=
  match parent with
  | ctx_done => ctx_done
  | ctx_live => if timeout <=? 0 then ctx_done else ctx_live
  end.

(** [dialer.DialContext(ctx, network, address)]: with a context that is
    done it fails before anything is dialled. *)
Definition DialContext (env : Env) (ctx : Context) (network address : string)
  : M World (option error) :=
  match ctx with
  | ctx_done => ret (Some (OSError "dial: i/o timeout"))
  | ctx_live =>
      k <- interact ;;
      emit (EvDial network address) ;;
      ret (env_dial env k)
  end.

(** [func (c *Client) Connect(ctx context.Context) error]: the handle is
    assigned whatever the dial returns, nil on failure; a previous
    connection is dropped without being closed. *)
Definition Connect (env : Env) (ctx : Context) : M World (option error) :=
  c <- client_ ;;
  (* Set deadline if timeout is configured *)
  let ctx := if 0 <? Timeout (config c)
             then WithTimeout ctx (Timeout (config c)) else ctx in
  dialed <- DialContext env ctx (Network (config c)) (Address (config c)) ;;
  match dialed with
  | Some err =>
      update (set_conn None) ;;
      ret (Some (ConnectError (Network (config c)) (Address (config c)) err))
  | None =>
      update (set_conn (Some {| closed := false |})) ;;
      ret None
  end.

(** [c.conn.Close()]: closing a connection twice reports
    [net.ErrClosed]. *)
Definition connClose (env : Env) (cn : Conn) : M World (option error) :=
  if closed cn then ret (Some ErrNetClosed)
  else
    k <- interact ;;
    emit EvConnClose ;;
    update (set_conn (Some {| closed := true |})) ;;
    ret (env_connClose env k).

(** [func (c *Client) Close() error]; [wait] is what
    [c.asyncWorker.Wait()] is for the goroutine that runs it. *)
Definition Close_ (wait : M World unit) (env : Env) : M World (option error) :=
  c <- client_ ;;
  if muHeld c then block
  else
    match (if AsyncMode (config c) then stopChan c else None) with
    | Some stopped =>
        (if stopped then panic "close of closed channel" else ret tt) ;;
        update (set_stopChan (Some true)) ;;
        wait ;;
        c <- client_ ;;
        match asyncChan c with
        | Some _ =>
            update (set_asyncChan None) ;;
            update (set_stopChan None)
        | None => panic "close of nil channel"
        end
    | None => ret tt
    end ;;
    c <- client_ ;;
    match conn c with
    | Some cn => connClose env cn
    | None => ret None
    end.

(** [func (c *Client) sendData(data interface{}) error] *)
Definition sendData (env : Env) (d : Data) : M World (option error) :=
  emit (EvMarshal d) ;;
  match env_marshal env d with
  | Some err => ret (Some (MarshalError err))
  | None =>
      c <- client_ ;;
      match conn c with
      | None => panic "nil pointer dereference"
      | Some cn =>
          deadline <-
            (if 0 <? Timeout (config c) then
               emit EvSetWriteDeadline ;;
               if closed cn then ret (Some ErrNetClosed)
               else k <- interact ;; ret (env_setWriteDeadline env k)
             else ret None) ;;
          match deadline with
          | Some writeErr => ret (Some (DeadlineError writeErr))
          | None =>
              emit (EvWrite d) ;;
              if closed cn then ret (Some (WriteError ErrNetClosed))
              else
                k <- interact ;;
                match env_write env k with
                | Some err => ret (Some (WriteError err))
                | None => ret None
                end
          end
      end
  end.

(** The body of the loop of [sendWithRetry] for one value of [attempt]:
    [Some err] where the source sets [lastErr = err] and continues with
    the next attempt, [None] where it goes on to report the success.
    [close] is [c.Close()] for the goroutine that runs the loop. *)
Definition attempt_once_ (close : M World (option error)) (env : Env) (d : Data)
    (attempt : Z) : M World (option error) :=
  c <- client_ ;;
  (if 0 <? attempt then
     (* Use exponential backoff with jitter *)
     k <- interact ;;
     emit (EvSleep (CalculateBackoffDelay (env_ovf env) (config c)
                      (env_rand env k) attempt))
   else ret tt) ;;
  (* Ensure we have a connection *)
  connected <-
    (c <- client_ ;;
     match conn c with
     | None => Connect env (WithTimeout ctx_live (Timeout (config c)))
     | Some _ => ret None
     end) ;;
  match connected with
  | Some err => ret (Some err)
  | None =>
      (* Send the data *)
      sent <- sendData env d ;;
      match sent with
      | Some err =>
          (* Close connection on error to force reconnect *)
          close ;;
          update (set_conn None) ;;
          ret (Some err)
      | None => ret None
      end
  end.

(** The loop of [sendWithRetry],
    [for attempt := 0; attempt <= c.config.MaxRetries; attempt++],
    from [attempt] on and for at most [n] iterations.  The counter is an
    [int] and wraps around. *)
Fixpoint attempts_ (close : M World (option error)) (env : Env) (d : Data)
    (n : nat) (attempt : Z) (lastErr : option error) : M World (option error) :=
  c <- client_ ;;
  if attempt <=? MaxRetries (config c) then
    match n with
    | O => cut
    | S n' =>
        failed <- attempt_once_ close env d attempt ;;
        match failed with
        | Some err => attempts_ close env d n' (wrap_int64 (attempt + 1)) (Some err)
        | None =>
            (* Success - notify circuit breaker *)
            onSuccessM ;;
            ret None
        end
    end
  else
    (* All retries failed - notify circuit breaker *)
    onFailureM env ;;
    c <- client_ ;;
    ret (Some (SendExhaustedError (wrap_int64 (MaxRetries (config c) + 1)) lastErr)).

(** The number of iterations the loop is followed for.  Below the largest
    [int] the loop ends by its condition after [MaxRetries + 1] iterations
    (none when [MaxRetries] is negative).  At the largest [int] the
    condition holds for every value of the counter: the loop ends only by
    an attempt that succeeds, and the run follows it for [env_patience]
    iterations. *)
Definition iterations (env : Env) (c : Config) : nat :=
  if MaxRetries c <? max_int64 then Z.to_nat (MaxRetries c + 1)
  else env_patience env.

(** [func (c *Client) sendWithRetry(data interface{}) error] *)
Definition sendWithRetry_ (close : M World (option error)) (env : Env) (d : Data)
  : M World (option error) :=
  permit <- canExecuteM env ;;
  match permit with
  | Some err => ret (Some err)
  | None =>
      c <- client_ ;;
      attempts_ close env d (iterations env (config c)) 0 None
  end.

(** [c.asyncWorker.Wait()] run by the worker itself: it waits for its own
    return, and so for ever, with [mu] held. *)
Definition wait_self : M World unit :=
  update (set_muHeld true) ;; block.

(** What the worker does with a request it received. *)
Definition serve (env : Env) (req : asyncRequest) : M World unit :=
  err <- sendWithRetry_ (Close_ wait_self env) env (data req) ;;
  match respChan req with
  | Some r => emit (EvRespond r err)
  | None => ret tt
  end.

(** The worker in the case [<-c.stopChan] of its select: every request
    still queued is answered with the shutdown error on its result
    channel, if it has one, and the worker returns. *)
Fixpoint drain (reqs : list asyncRequest) : M World unit :=
  match reqs with
  | [] => ret tt
  | req :: rest =>
      match respChan req with
      | Some ch => emit (EvRespond ch (Some ShuttingDownError))
      | None => ret tt
      end ;;
      drain rest
  end.

(** The worker from the moment [stopChan] is closed until it returns.
    While requests are queued both cases of its select are ready and
    [env_select] tells which one it takes: the stop case, or one more
    request, which it serves before it selects again. *)
Fixpoint worker_stops (env : Env) (reqs : list asyncRequest) : M World unit :=
  match reqs with
  | [] => ret tt
  | req :: rest =>
      k <- interact ;;
      if env_select env k then drain (req :: rest)
      else
        c <- client_ ;;
        update (set_asyncChan
                  (match asyncChan c with
                   | Some ch => Some {| cap := cap ch; buf := rest |}
                   | None => None
                   end)) ;;
        serve env req ;;
        worker_stops env rest
  end.

(** [c.asyncWorker.Wait()] run by a caller, who holds [mu] meanwhile: a
    [Close] by the worker, after a write that failed, waits for [mu]. *)
Definition wait_worker (env : Env) : M World unit :=
  update (set_muHeld true) ;;
  c <- client_ ;;
  match asyncChan c with
  | Some ch => worker_stops env (buf ch)
  | None => ret tt
  end ;;
  update (set_muHeld false).

(** [func (c *Client) Close() error], run by goroutine [g]. *)
Definition Close (env : Env) (g : goroutine) : M World (option error) :=
  match g with
  | worker => Close_ wait_self env
  | caller => Close_ (wait_worker env) env
  end.

Definition attempt_once (env : Env) (g : goroutine) (d : Data) (attempt : Z)
  : M World (option error) :=
  attempt_once_ (Close env g) env d attempt.

Definition attempts (env : Env) (g : goroutine) (d : Data)
    (n : nat) (attempt : Z) (lastErr : option error) : M World (option error) :=
  attempts_ (Close env g) env d n attempt lastErr.

(** [sendWithRetry] run by goroutine [g]. *)
Definition sendWithRetry (env : Env) (g : goroutine) (d : Data)
  : M World (option error) :=
  sendWithRetry_ (Close env g) env d.

(** [func (c *Client) sendAsync(data interface{}) error]: a send that
    does not wait, on a channel nobody is receiving from at that moment. *)
Definition sendAsync (d : Data) : M World (option error) :=
  c <- client_ ;;
  if muHeld c then block
  else
    match asyncChan c, stopChan c with
    | Some ch, Some _ =>
        let req := {| data := d; respChan := None |} in
        if Z.of_nat (length (buf ch)) <? cap ch then
          update (set_asyncChan (Some {| cap := cap ch; buf := buf ch ++ [req] |})) ;;
          ret None
        else ret (Some QueueFullError)
    | _, _ => ret (Some NotInitializedError)
    end.

(** One turn of the worker's loop: receive the oldest request and serve
    it. *)
Definition asyncWorker (env : Env) : M World unit :=
  c <- client_ ;;
  match asyncChan c with
  | Some ch =>
      match buf ch with
      | req :: rest =>
          update (set_asyncChan (Some {| cap := cap ch; buf := rest |})) ;;
          serve env req
      | [] => ret tt
      end
  | None => ret tt
  end.

Definition set_Timestamp (t : string) (e : LogEntry) : LogEntry :=
  {| Metadata := Metadata e; Version := Version e; Payload := Payload e;
     Source := Source e; Timestamp := t; PayloadType := PayloadType e;
     EntryType := EntryType e; LogLevel := LogLevel e |}.

(** Set timestamp if not provided. *)
Definition stamp (env : Env) (entry : LogEntry) : M World LogEntry :=
  if String.eqb (Timestamp entry) "" then
    k <- interact ;;
    ret (set_Timestamp (env_format env (env_now env k)) entry)
  else ret entry.

Fixpoint stampAll (env : Env) (entries : list LogEntry) : M World (list LogEntry) :=
  match entries with
  | [] => ret []
  | e :: rest =>
      e' <- stamp env e ;;
      rest' <- stampAll env rest ;;
      ret (e' :: rest')
  end.

(** [func (c *Client) SendLogEntry(entry types.LogEntry) error] *)
Definition SendLogEntry (env : Env) (entry : LogEntry) : M World (option error) :=
  entry <- stamp env entry ;;
  c <- client_ ;;
  if AsyncMode (config c) then sendAsync (LogEntryData entry)
  else sendWithRetry env caller (LogEntryData entry).

(** [func (c *Client) SendLogBatch(entries []types.LogEntry) error] *)
Definition SendLogBatch (env : Env) (entries : list LogEntry) : M World (option error) :=
  entries <- stampAll env entries ;;
  let batch := {| BatchVersion := DefaultProtocolVersion; Entries := entries |} in
  c <- client_ ;;
  if AsyncMode (config c) then sendAsync (LogBatchData batch)
  else sendWithRetry env caller (LogBatchData batch).

(** [func (c *Client) Ping()], returning a [*types.PongResponse] and an
    [error]. *)
Definition Ping (env : Env) : M World (option PongResponse * option error) :=
  let ping := NewPingRequest in
  err <- sendWithRetry env caller (PingData ping) ;;
  match err with
  | Some e => ret (None, Some (PingSendError e))
  | None => ret (Some {| PongStatus := "pong" |}, None)
  end.

(** [func (c *Client) Authenticate()], returning a [*types.AuthResponse]
    and an [error]. *)
Definition Authenticate (env : Env) : M World (option AuthResponse * option error) :=
  c <- client_ ;;
  if negb (String.eqb (Network (config c)) "tcp") then
    ret (None, Some AuthTransportError)
  else if String.eqb (SharedSecret (config c)) "" then
    ret (None, Some AuthSecretError)
  else
    match NewAuthRequest (SharedSecret (config c)) with
    | None => panic "sharedSecret cannot be empty for authentication"
    | Some authReq =>
        err <- sendWithRetry env caller (AuthData authReq) ;;
        match err with
        | Some e => ret (None, Some (AuthSendError e))
        | None =>
            ret (Some {| AuthStatus := "success";
                         AuthMessage := "Authentication successful" |}, None)
        end
    end.


(** ** The batch client (batch.go) *)

(** [client] is the wrapped [*Client] together with the world it runs
    in.  [timer] is nil or a [*time.Timer], [true] while it is pending.
    Every method holds [mu] from its first to its last statement. *)
Record BatchClient := {
  client : World;
  batchConfig : BatchConfig;
  timer : option bool;
  batch : list LogEntry;
  stopped : bool
}.

Definition set_client (v : World) (bc : BatchClient) : BatchClient :=
  {| client := v; batchConfig := batchConfig bc; timer := timer bc;
     batch := batch bc; stopped := stopped bc |}.
Definition set_timer (v : option bool) (bc : BatchClient) : BatchClient :=
  {| client := client bc; batchConfig := batchConfig bc; timer := v;
     batch := batch bc; stopped := stopped bc |}.
Definition set_batch (v : list LogEntry) (bc : BatchClient) : BatchClient :=
  {| client := client bc; batchConfig := batchConfig bc; timer := timer bc;
     batch := v; stopped := stopped bc |}.
Definition set_stopped (v : bool) (bc : BatchClient) : BatchClient :=
  {| client := client bc; batchConfig := batchConfig bc; timer := timer bc;
     batch := batch bc; stopped := v |}.

(** A call [bc.client.f(...)]: it runs on the wrapped client and leaves
    the batch client's own fields alone. *)
Definition onClient {A : Type} (m : M World A) : M BatchClient A :=
  fun bc => let '(r, w) := m (client bc) in (r, set_client w bc).

(** [func (bc *BatchClient) startFlushTimerLocked()]: the old timer, if
    any, is stopped and a new one armed. *)
Definition startFlushTimerLocked : M BatchClient unit :=
  modify (set_timer (Some true)).

(** [func NewBatchClient(client *Client, batchConfig *config.BatchConfig)];
    [make] panics on a negative capacity. *)
Definition NewBatchClient (cl : option World) (bcfg : option BatchConfig)
  : Outcome BatchClient :=
  match cl with
  | None => Panics "client cannot be nil"
  | Some w =>
      let bcfg := match bcfg with Some b => b | None => DefaultBatchConfig end in
      if MaxBatchSize bcfg <? 0 then Panics "makeslice: cap out of range" else
      let bc := {| client := w; batchConfig := bcfg; timer := None;
                   batch := []; stopped := false |} in
      if AutoFlush bcfg && (0 <? BatchFlushInterval bcfg)
      then Returns (set_timer (Some true) bc)
      else Returns bc
  end.

(** [func (bc *BatchClient) flushBatchLocked() error], in two steps: what
    it does to the batch client before the send, then the send. *)
Definition prepareFlush (bc : BatchClient) : BatchClient :=
  (* Clear the batch regardless of error (avoid infinite retry loops) *)
  let bc := set_batch [] bc in
  (* Restart timer *)
  if AutoFlush (batchConfig bc) && negb (stopped bc)
  then set_timer (Some true) bc
  else bc.

Definition flushBatchLocked (env : Env) : M BatchClient (option error) :=
  bc <- get ;;
  match batch bc with
  | [] => ret None
  | _ :: _ =>
      let batchCopy := batch bc in
      modify prepareFlush ;;
      onClient (SendLogBatch env batchCopy)
  end.

(** [func (bc *BatchClient) Flush() error] *)
Definition BatchClient_Flush (env : Env) : M BatchClient (option error) :=
  flushBatchLocked env.

(** [func (bc *BatchClient) SendLogEntry(entry types.LogEntry) error] *)
Definition BatchClient_SendLogEntry (env : Env) (entry : LogEntry)
  : M BatchClient (option error) :=
  bc <- get ;;
  if stopped bc then onClient (SendLogEntry env entry)
  else
    modify (set_batch (batch bc ++ [entry])) ;;
    bc <- get ;;
    if MaxBatchSize (batchConfig bc) <=? Z.of_nat (length (batch bc))
    then flushBatchLocked env
    else ret None.

(** The function handed to [time.AfterFunc], when the timer fires. *)
Definition flushTimerFired (env : Env) : M BatchClient unit :=
  modify (set_timer (Some false)) ;;
  bc <- get ;;
  if negb (stopped bc) && negb (Nat.eqb (length (batch bc)) 0)
  then flushBatchLocked env ;; ret tt
  else ret tt.

(** [func (bc *BatchClient) Close() error]; run by a caller. *)
Definition BatchClient_Close (env : Env) : M BatchClient (option error) :=
  modify (set_stopped true) ;;
  bc <- get ;;
  match timer bc with
  | Some _ => modify (set_timer (Some false))
  | None => ret tt
  end ;;
  match batch bc with
  | [] => ret tt
  | _ :: _ => flushBatchLocked env ;; ret tt
  end ;;
  onClient (Close env caller).

(** ** The rest of client.go and batch.go *)

(** [type CircuitBreakerStats struct] *)
Record CircuitBreakerStats := {
  State : string;
  FailureCount : Z;
  IsOpen : bool
}.

(** [func (c *Client) GetCircuitBreakerStats() CircuitBreakerStats] *)
Definition GetCircuitBreakerStats (c : Client) : CircuitBreakerStats :=
  let st := state (breaker c) in
  let failureCount := failureCount (breaker c) in
  if st =? circuitClosed then
    {| State := "closed"; FailureCount := failureCount; IsOpen := false |}
  else if st =? circuitOpen then
    {| State := "open"; FailureCount := failureCount; IsOpen := true |}
  else if st =? circuitHalfOpen then
    {| State := "half-open"; FailureCount := failureCount; IsOpen := false |}
  else
    {| State := "unknown"; FailureCount := failureCount; IsOpen := false |}.




(** [func (c *Client) SendLog(message, source string) error]:
    [types.NewLogEntry] reads the clock. *)
Definition SendLog (env : Env) (IsValidJSON : string -> bool) (message source : string)
  : M World (option error) :=
  k <- interact ;;
  let entry := NewLogEntry IsValidJSON (env_format env (env_now env k)) message source in
  SendLogEntry env entry.

(** [type BatchStats struct] *)
Record BatchStats := {
  PendingEntries : Z;
  StatsMaxBatchSize : Z;
  StatsFlushInterval : Z;
  StatsAutoFlush : bool
}.

(** [func (bc *BatchClient) GetStats() BatchStats] *)
Definition GetStats (bc : BatchClient) : BatchStats :=
  {| PendingEntries := Z.of_nat (length (batch bc));
     StatsMaxBatchSize := MaxBatchSize (batchConfig bc);
     StatsFlushInterval := BatchFlushInterval (batchConfig bc);
     StatsAutoFlush := AutoFlush (batchConfig bc) |}.

(** [func (bc *BatchClient) Connect(ctx context.Context) error] *)
Definition BatchClient_Connect (env : Env) (ctx : Context)
  : M BatchClient (option error) :=
  onClient (Connect env ctx).

(** [func (bc *BatchClient) SendLog(message, source string) error] *)
Definition BatchClient_SendLog (env : Env) (IsValidJSON : string -> bool)
    (message source : string) : M BatchClient (option error) :=
  k <- onClient interact ;;
  let entry := NewLogEntry IsValidJSON (env_format env (env_now env k)) message source in
  BatchClient_SendLogEntry env entry.

(** [func (bc *BatchClient) Ping()] and [func (bc *BatchClient) Authenticate()] *)
Definition BatchClient_Ping (env : Env)
  : M BatchClient (option PongResponse * option error) :=
  onClient (Ping env).

Definition BatchClient_Authenticate (env : Env)
  : M BatchClient (option AuthResponse * option error) :=
  onClient (Authenticate env).



End client.

(* ===================================================================== *)
(** * Properties *)
(* ===================================================================== *)

Import types config client.

(** ** Scenarios and observations

    Runs of the operations above, the environments and clients the
    examples use, and what the statements below observe of a run. *)

(** A log entry. *)
Definition sample_entry : LogEntry :=
  {| Metadata := ∅; Version := "1.0"; Payload := "disk full"; Source := "db";
     Timestamp := "2024-01-01T00:00:00Z"; PayloadType := "generic";
     EntryType := 1; LogLevel := 7 |}.

(** Failures recorded one after the other, at the instants [times]. *)
Definition failures (c : Config) (times : list Z) (b : circuitBreaker) : circuitBreaker :=
  fold_left (fun b t => onFailure c t b) times b.

(** Permission checks made one after the other, at the instants [times]:
    the breaker they leave and what each one answered. *)
Fixpoint checks (c : Config) (times : list Z) (b : circuitBreaker)
  : circuitBreaker * list (option error) :=
  match times with
  | [] => (b, [])
  | t :: rest =>
      let '(b1, r) := canExecute c t b in
      let '(b2, rs) := checks c rest b1 in
      (b2, r :: rs)
  end.

(** A breaker that opened at instant 0. *)
Definition opened_breaker : circuitBreaker :=
  {| lastFailureTime := 0; state := circuitOpen; failureCount := 5 |}.

(** The default configuration in sync mode, with two retries. *)
Definition sync_config : Config :=
  {| Network := "unix"; Address := "/tmp/logflux-agent.sock"; SharedSecret := "";
     Timeout := DefaultTimeout; FlushInterval := DefaultFlushInterval;
     BatchSize := DefaultBatchSize; MaxRetries := 2;
     RetryDelay := DefaultRetryDelay; MaxRetryDelay := DefaultMaxRetryDelay;
     RetryMultiplier := DefaultRetryMultiplier; JitterPercent := DefaultJitterPercent;
     AsyncMode := false; ChannelBuffer := DefaultChannelBuffer;
     CircuitBreakerThreshold := 5; CircuitBreakerTimeout := 30 * Second |}.

(** A client with that configuration that never connected. *)
Definition sync_client : Client :=
  {| config := sync_config; conn := None; asyncChan := None; stopChan := None;
     breaker := newCircuitBreaker; muHeld := false |}.

(** The sync configuration with as many retries as an [int] can say, and
    the one with no timeout. *)
Definition endless_config : Config :=
  {| Network := "unix"; Address := "/tmp/logflux-agent.sock"; SharedSecret := "";
     Timeout := DefaultTimeout; FlushInterval := DefaultFlushInterval;
     BatchSize := DefaultBatchSize; MaxRetries := max_int64;
     RetryDelay := DefaultRetryDelay; MaxRetryDelay := DefaultMaxRetryDelay;
     RetryMultiplier := DefaultRetryMultiplier; JitterPercent := DefaultJitterPercent;
     AsyncMode := false; ChannelBuffer := DefaultChannelBuffer;
     CircuitBreakerThreshold := 5; CircuitBreakerTimeout := 30 * Second |}.

Definition no_timeout_config : Config :=
  {| Network := "unix"; Address := "/tmp/logflux-agent.sock"; SharedSecret := "";
     Timeout := 0; FlushInterval := DefaultFlushInterval;
     BatchSize := DefaultBatchSize; MaxRetries := 2;
     RetryDelay := DefaultRetryDelay; MaxRetryDelay := DefaultMaxRetryDelay;
     RetryMultiplier := DefaultRetryMultiplier; JitterPercent := DefaultJitterPercent;
     AsyncMode := false; ChannelBuffer := DefaultChannelBuffer;
     CircuitBreakerThreshold := 5; CircuitBreakerTimeout := 30 * Second |}.

Definition client_of (cfg : Config) : Client :=
  {| config := cfg; conn := None; asyncChan := None; stopChan := None;
     breaker := newCircuitBreaker; muHeld := false |}.

(** The world a run starts in. *)
Definition start (c : Client) : World := {| cl := c; tick := 0; trace := [] |}.

(** An environment in which the peer cannot be reached, at instant
    [now]. *)
Definition unreachable (now : Z) : Env :=
  {| env_now := fun _ => now;
     env_format := fun _ => "2024-01-01T00:00:00Z";
     env_rand := fun _ => F64.of_int 0;
     env_ovf := fun _ => min_int64;
     env_dial := fun _ => Some (OSError "connect: no such file or directory");
     env_marshal := fun _ => None;
     env_setWriteDeadline := fun _ => None;
     env_write := fun _ => None;
     env_connClose := fun _ => None;
     env_select := fun _ => true;
     env_patience := 0 |}.

(** The same, followed for [n] iterations of a loop without end. *)
Definition unreachable_for (n : nat) : Env :=
  {| env_now := fun _ => 0;
     env_format := fun _ => "2024-01-01T00:00:00Z";
     env_rand := fun _ => F64.of_int 0;
     env_ovf := fun _ => min_int64;
     env_dial := fun _ => Some (OSError "connect: no such file or directory");
     env_marshal := fun _ => None;
     env_setWriteDeadline := fun _ => None;
     env_write := fun _ => None;
     env_connClose := fun _ => None;
     env_select := fun _ => true;
     env_patience := n |}.

(** The request that [sendAsync] builds for [d]. *)
Definition fire_and_forget (d : Data) : asyncRequest :=
  {| data := d; respChan := None |}.

(** Calls of [sendAsync] one after the other, the worker receiving
    nothing in between: what each call answered, and the world left. *)
Fixpoint enqueue (ds : list Data) (w : World)
  : list (Outcome (option error)) * World :=
  match ds with
  | [] => ([], w)
  | d :: rest =>
      let '(r, w1) := sendAsync d w in
      let '(rs, w2) := enqueue rest w1 in
      (r :: rs, w2)
  end.

(** What is in the queue. *)
Definition queued (w : World) : list asyncRequest :=
  match asyncChan (cl w) with
  | Some ch => buf ch
  | None => []
  end.

(** An async configuration with a queue of capacity two. *)
Definition queue_of_two : Config :=
  {| Network := "unix"; Address := "/tmp/logflux-agent.sock"; SharedSecret := "";
     Timeout := DefaultTimeout; FlushInterval := DefaultFlushInterval;
     BatchSize := DefaultBatchSize; MaxRetries := DefaultMaxRetries;
     RetryDelay := DefaultRetryDelay; MaxRetryDelay := DefaultMaxRetryDelay;
     RetryMultiplier := DefaultRetryMultiplier; JitterPercent := DefaultJitterPercent;
     AsyncMode := true; ChannelBuffer := 2;
     CircuitBreakerThreshold := 5; CircuitBreakerTimeout := 30 * Second |}.

(** A batcher of at most three entries over a sync client, holding two. *)
Definition batcher_of_three : BatchClient :=
  {| client := start sync_client;
     batchConfig := {| MaxBatchSize := 3; BatchFlushInterval := 5 * Second;
                       AutoFlush := false |};
     timer := None;
     batch := [sample_entry; sample_entry];
     stopped := false |}.

(** The default configuration with an initial delay of ten seconds, twice
    the maximum delay. *)
Definition slow_start : Config :=
  {| Network := DefaultNetwork; Address := DefaultSocketPath; SharedSecret := "";
     Timeout := DefaultTimeout; FlushInterval := DefaultFlushInterval;
     BatchSize := DefaultBatchSize; MaxRetries := DefaultMaxRetries;
     RetryDelay := 10 * Second; MaxRetryDelay := DefaultMaxRetryDelay;
     RetryMultiplier := DefaultRetryMultiplier; JitterPercent := DefaultJitterPercent;
     AsyncMode := DefaultAsyncMode; ChannelBuffer := DefaultChannelBuffer;
     CircuitBreakerThreshold := DefaultCircuitBreakerThreshold;
     CircuitBreakerTimeout := DefaultCircuitBreakerTimeout |}.

(** The draw one half. *)
Definition one_half : float64 := F64.div (F64.of_int 1) (F64.of_int 2).

(** Initial and maximum delay 10ns, and for jitter fraction the float64
    nearest to three tenths, which is a little below them. *)
Definition tight : Config :=
  {| Network := DefaultNetwork; Address := DefaultSocketPath; SharedSecret := "";
     Timeout := DefaultTimeout; FlushInterval := DefaultFlushInterval;
     BatchSize := DefaultBatchSize; MaxRetries := DefaultMaxRetries;
     RetryDelay := 10; MaxRetryDelay := 10;
     RetryMultiplier := DefaultRetryMultiplier;
     JitterPercent := F64.div (F64.of_int 3) (F64.of_int 10);
     AsyncMode := DefaultAsyncMode; ChannelBuffer := DefaultChannelBuffer;
     CircuitBreakerThreshold := DefaultCircuitBreakerThreshold;
     CircuitBreakerTimeout := DefaultCircuitBreakerTimeout |}.

(** The largest value [rand.Float64()] returns. *)
Definition largest_draw : float64 :=
  F64.div (F64.of_int (2 ^ 53 - 1)) (F64.of_int (2 ^ 53)).

(** A peer that accepts the connection and then fails every write. *)
Definition broken_pipe : Env :=
  {| env_now := fun k => Z.of_nat k * Second;
     env_format := fun _ => "2024-01-01T00:00:00Z";
     env_rand := fun _ => one_half;
     env_ovf := fun _ => min_int64;
     env_dial := fun _ => None;
     env_marshal := fun _ => None;
     env_setWriteDeadline := fun _ => None;
     env_write := fun _ => Some (OSError "write: broken pipe");
     env_connClose := fun _ => None;
     env_select := fun _ => true;
     env_patience := 0 |}.

(** The same peer, under a scheduler that lets the worker take a queued
    request where it could take the stop signal. *)
Definition stubborn_pipe : Env :=
  {| env_now := fun k => Z.of_nat k * Second;
     env_format := fun _ => "2024-01-01T00:00:00Z";
     env_rand := fun _ => one_half;
     env_ovf := fun _ => min_int64;
     env_dial := fun _ => None;
     env_marshal := fun _ => None;
     env_setWriteDeadline := fun _ => None;
     env_write := fun _ => Some (OSError "write: broken pipe");
     env_connClose := fun _ => None;
     env_select := fun _ => false;
     env_patience := 0 |}.

(** The reports made to the breaker, among the actions of a run. *)
Definition is_report (e : Event) : bool :=
  match e with
  | EvCircuitSuccess | EvCircuitFailure => true
  | _ => false
  end.

(** The default configuration with no retry: one attempt per send. *)
Definition single_attempt : Config :=
  {| Network := DefaultNetwork; Address := DefaultSocketPath; SharedSecret := "";
     Timeout := DefaultTimeout; FlushInterval := DefaultFlushInterval;
     BatchSize := DefaultBatchSize; MaxRetries := 0;
     RetryDelay := DefaultRetryDelay; MaxRetryDelay := DefaultMaxRetryDelay;
     RetryMultiplier := DefaultRetryMultiplier; JitterPercent := DefaultJitterPercent;
     AsyncMode := DefaultAsyncMode; ChannelBuffer := DefaultChannelBuffer;
     CircuitBreakerThreshold := DefaultCircuitBreakerThreshold;
     CircuitBreakerTimeout := DefaultCircuitBreakerTimeout |}.





(** A peer that accepts everything. *)
Definition healthy : Env :=
  {| env_now := fun k => Z.of_nat k * Second;
     env_format := fun _ => "2024-01-01T00:00:00Z";
     env_rand := fun _ => one_half;
     env_ovf := fun _ => min_int64;
     env_dial := fun _ => None;
     env_marshal := fun _ => None;
     env_setWriteDeadline := fun _ => None;
     env_write := fun _ => None;
     env_connClose := fun _ => None;
     env_select := fun _ => true;
     env_patience := 0 |}.

(** A batcher over a client, with nothing buffered. *)
Definition batcher_over (w : World) : BatchClient :=
  {| client := w; batchConfig := DefaultBatchConfig; timer := Some true;
     batch := []; stopped := false |}.



(** One call of a builder, and a chain of calls from left to right. *)
Inductive builder : Type :=
| CallWithLogLevel (logLevel : Z)
| CallWithEntryType (entryType : Z)
| CallWithSource (source : string)
| CallWithMetadata (key value : string)
| CallWithAllMetadata (metadata : gmap string string)
| CallWithTimestamp (timestamp : Z)
| CallWithTimestampString (timestamp : string)
| CallWithPayloadType (payloadType : string)
| CallWithVersion (version : string).

Definition call (format : Z -> string) (e : LogEntry) (b : builder) : LogEntry :=
  match b with
  | CallWithLogLevel l => WithLogLevel e l
  | CallWithEntryType t => WithEntryType e t
  | CallWithSource s => WithSource e s
  | CallWithMetadata k v => WithMetadata e k v
  | CallWithAllMetadata m => WithAllMetadata e m
  | CallWithTimestamp t => WithTimestamp format e t
  | CallWithTimestampString t => WithTimestampString e t
  | CallWithPayloadType p => WithPayloadType e p
  | CallWithVersion v => WithVersion e v
  end.

Definition chain (format : Z -> string) (e : LogEntry) (bs : list builder) : LogEntry :=
  fold_left (call format) bs e.

(** [e = e.WithMetadata(key, value)] for each pair of [fields], in their
    order: the loop of the logging adapters. *)
Definition WithFields (e : LogEntry) (fields : list (string * string)) : LogEntry :=
  fold_left (fun e kv => WithMetadata e (fst kv) (snd kv)) fields e.

(** The pairs that [WithMetadata] stores: those with a key. *)
Definition keyed (fields : list (string * string)) : list (string * string) :=
  List.filter (fun kv => negb (String.eqb (fst kv) "")) fields.

(** The sleeps among the actions of a run, in order. *)
Definition sleeps (evs : list Event) : list Z :=
  flat_map (fun e => match e with EvSleep d => [d] | _ => [] end) evs.


(** Actions of the network only: no sleep, no report to the breaker. *)
Definition network_only (evs : list Event) : Prop :=
  Forall (fun e => is_report e = false) evs /\ sleeps evs = [].


(** The state is one of the three, the counter is an [int32], and a closed
    breaker has fewer failures on record than the threshold. *)
Definition breaker_ok (c : Config) (b : circuitBreaker) : Prop :=
  (state b = circuitClosed \/ state b = circuitOpen \/ state b = circuitHalfOpen) /\
  - 2 ^ 31 <= failureCount b < 2 ^ 31 /\
  (state b = circuitClosed -> 0 <= failureCount b < CircuitBreakerThreshold c).


(** What the agent's API asks of an entry: a syslog level, the one entry
    type, a source. *)
Definition well_formed (e : LogEntry) : Prop :=
  LevelEmergency <= LogLevel e <= LevelDebug /\
  EntryType e = TypeLog /\
  Source e <> "".

(** One call of a method of the batch client, or the firing of its
    timer, and calls one after the other: a call that does not return
    ends the run. *)
Inductive batch_call : Type :=
| CallConnect (ctx : Context)
| CallSendLog (message source : string)
| CallSendLogEntry (entry : LogEntry)
| CallFlush
| CallTimerFired
| CallPing
| CallAuthenticate
| CallClose.

Definition batch_run (env : Env) (IsValidJSON : string -> bool) (c : batch_call)
  : M BatchClient unit :=
  match c with
  | CallConnect ctx => BatchClient_Connect env ctx ;; ret tt
  | CallSendLog message source => BatchClient_SendLog env IsValidJSON message source ;; ret tt
  | CallSendLogEntry entry => BatchClient_SendLogEntry env entry ;; ret tt
  | CallFlush => BatchClient_Flush env ;; ret tt
  | CallTimerFired => flushTimerFired env
  | CallPing => BatchClient_Ping env ;; ret tt
  | CallAuthenticate => BatchClient_Authenticate env ;; ret tt
  | CallClose => BatchClient_Close env ;; ret tt
  end.

Fixpoint batch_runs (env : Env) (IsValidJSON : string -> bool) (cs : list batch_call)
  : M BatchClient unit :=
  match cs with
  | [] => ret tt
  | c :: rest => batch_run env IsValidJSON c ;; batch_runs env IsValidJSON rest
  end.

(** The buffer is empty or below the maximum size, and empty once the
    batch client is closed. *)
Definition buffer_ok (bc : BatchClient) : Prop :=
  (batch bc = [] \/ Z.of_nat (length (batch bc)) < MaxBatchSize (batchConfig bc)) /\
  (stopped bc = true -> batch bc = []).

(** From [bc] to [bc']: the same configuration, and closed if it was. *)
Definition same_batcher (bc bc' : BatchClient) : Prop :=
  batchConfig bc' = batchConfig bc /\
  (stopped bc = true -> stopped bc' = true).

(** [SendLogEntry] for each entry in turn; the result is the last one. *)
Fixpoint send_each (env : Env) (entries : list LogEntry) : M BatchClient (option error) :=
  match entries with
  | [] => ret None
  | [entry] => BatchClient_SendLogEntry env entry
  | entry :: rest => BatchClient_SendLogEntry env entry ;; send_each env rest
  end.

(** A new batcher of at most three entries over a sync client, without
    a timer. *)
Definition manual_batcher : BatchClient :=
  {| client := start sync_client;
     batchConfig := {| MaxBatchSize := 3; BatchFlushInterval := 5 * Second;
                       AutoFlush := false |};
     timer := None;
     batch := [];
     stopped := false |}.

(** What stamping between [w] and [w'] makes of an entry: an entry with
    a timestamp is left as it is, one without gets a reading of the clock
    taken in between. *)
Definition stamped (env : Env) (w w' : World) (e e' : LogEntry) : Prop :=
  (Timestamp e <> "" -> e' = e) /\
  (Timestamp e = "" ->
     exists k : nat,
       (tick w <= k < tick w')%nat /\
       e' = set_Timestamp (env_format env (env_now env k)) e).

(** The send of [SendLogEntry] and [SendLogBatch], by the mode. *)
Definition dispatch (env : Env) (d : Data) : M World (option error) :=
  c <- client_ ;;
  if AsyncMode (config c) then sendAsync d else sendWithRetry env caller d.


(** ** The retry loop, counted *)

(** The loop with [n] iterations left from attempt [a] on, when
    [MaxRetries] is below the largest [int]: the counter does not wrap, and
    the condition of the loop fails exactly when no iteration is left. *)
Definition in_step (c : Config) (n : nat) (a : Z) : Prop :=
  MaxRetries c < max_int64 /\ 0 <= a /\
  a + Z.of_nat n = Z.max (MaxRetries c + 1) a.

(** The default configuration with a breaker threshold of [2 ^ 31], one
    more than the largest [int32]. *)
Definition wide_threshold : Config :=
  {| Network := DefaultNetwork; Address := DefaultSocketPath; SharedSecret := "";
     Timeout := DefaultTimeout; FlushInterval := DefaultFlushInterval;
     BatchSize := DefaultBatchSize; MaxRetries := DefaultMaxRetries;
     RetryDelay := DefaultRetryDelay; MaxRetryDelay := DefaultMaxRetryDelay;
     RetryMultiplier := DefaultRetryMultiplier; JitterPercent := DefaultJitterPercent;
     AsyncMode := DefaultAsyncMode; ChannelBuffer := DefaultChannelBuffer;
     CircuitBreakerThreshold := 2 ^ 31;
     CircuitBreakerTimeout := DefaultCircuitBreakerTimeout |}.


(** ** Binary64 values on an integer grid

    What the bound on the backoff delay is stated and proved with. *)

(** Every finite binary64 value, and every exact product of two of them,
    is a whole multiple of [2 ^ - grid]. *)
Definition grid : Z := 2148.

(** The exponent of the binary64 floats of a given magnitude. *)
Definition fexp64 : Z -> Z := fexp F64.prec F64.emax.

(** Where the remainder [r] of a division by [2 ^ k] lies. *)
Definition cmp_loc (r k : Z) : location :=
  if r =? 0 then loc_Exact else loc_Inexact (2 * r ?= 2 ^ k).

(** [n / 2 ^ q] rounded to the nearest integer, ties to even. *)
Definition rne (n q : Z) : Z :=
  round_nearest_even (n / 2 ^ q) (cmp_loc (n mod 2 ^ q) q).

(** The exponent, on the grid, at which [n] is rounded. *)
Definition qexp (n : Z) : Z := Z.max (Z.log2 n + 1 - F64.prec) (grid - 1074).

(** Rounding of a non-negative grid value to binary64, and of any. *)
Definition round_grid (n : Z) : Z := rne n (qexp n) * 2 ^ qexp n.
Definition round_signed (z : Z) : Z :=
  if z <? 0 then - round_grid (- z) else round_grid z.

(** The first grid value that is too large for binary64. *)
Definition overflow : Z := 2 ^ (F64.emax + grid).

(** The value of a finite float on the grid. *)
Definition gval (x : float64) : Z :=
  match x with
  | S754_finite s m e => cond_Zopp s (Z.pos m * 2 ^ (e + grid))
  | _ => 0
  end.

(** A zero or a finite float: not an infinity, not a NaN. *)
Definition finite64 (x : float64) : bool :=
  match x with
  | S754_zero _ | S754_finite _ _ _ => true
  | _ => false
  end.

(** A value of the type: at most 53 bits of mantissa, normalised, with an
    exponent in range.  Every [float64] of Go is one. *)
Definition valid64 (x : float64) : Prop := valid_binary F64.prec F64.emax x = true.

(** What a shift record says about the number it was shifted from. *)
Definition shifted (m k : Z) (mrs : shr_record) : Prop :=
  exists r : Z,
    0 <= r < 2 ^ k /\ m = shr_m mrs * 2 ^ k + r /\
    loc_of_shr_record mrs = cmp_loc r k.

(** The sign of a float that is not a NaN. *)
Definition signed (s : bool) (r : float64) : Prop :=
  match r with
  | S754_zero s' | S754_infinity s' | S754_finite s' _ _ => s' = s
  | S754_nan => False
  end.

(** Zero, or positive (and possibly infinite). *)
Definition nonneg (r : float64) : Prop :=
  match r with
  | S754_zero _ => True
  | S754_finite s _ _ | S754_infinity s => s = false
  | S754_nan => False
  end.

(** [r] is the grid value [z] rounded to binary64: a finite float of that
    value, or an infinity when the rounded value is too large. *)
Definition rounds_to (r : float64) (z : Z) : Prop :=
  valid64 r /\
  (finite64 r = true <-> Z.abs (round_signed z) < overflow) /\
  (finite64 r = true -> gval r = round_signed z) /\
  (0 <= z -> nonneg r).

(** The largest delay the specification allows after jitter: the maximum
    delay with the whole jitter added, [maxDelay + maxDelay * jitter], in
    the arithmetic of the code. *)
Definition max_jittered (c : Config) : float64 :=
  let maxDelay := F64.of_int (MaxRetryDelay c) in
  F64.add maxDelay (F64.mul maxDelay (JitterPercent c)).

(** ** The logging adapters

    An attribute or field is taken as its key and the string the adapter
    renders its value to ([attr.Value.String()], [fieldToString(field)],
    [formatValue(value)]). *)

(** The value the loop [entry = entry.WithMetadata(k, v)] over [fields]
    leaves under [key]: the one of the last field with that key. *)
Fixpoint latest (key : string) (fields : list (string * string)) : option string :=
  match fields with
  | [] => None
  | (k, v) :: rest =>
      match latest key rest with
      | Some v' => Some v'
      | None => if String.eqb k key then Some v else None
      end
  end.

(** integrations/slog: [Handler]. *)
Module slog.

(** The levels of [log/slog]. *)
Definition LevelDebug : Z := -4.
Definition LevelInfo : Z := 0.
Definition LevelWarn : Z := 4.
Definition LevelError : Z := 8.

Record Handler := {
  source : string;
  attrs : list (string * string)
}.

(** A [slog.Record]: level, message, and the attributes [record.Attrs]
    visits, in its order. *)
Record Record_ := {
  Level : Z;
  Message : string;
  Attrs : list (string * string)
}.




(** [func convertLevel(level slog.Level) int] *)
Definition convertLevel (level : Z) : Z :=
  if LevelError <=? level then types.LevelError
  else if LevelWarn <=? level then types.LevelWarning
  else if LevelInfo <=? level then types.LevelInfo
  else types.LevelDebug.

(** The entry [Handle] builds; [now] is the clock reading of
    [types.NewLogEntry]. *)
Definition Handle_entry (IsValidJSON : string -> bool) (now : string)
    (h : Handler) (record : Record_) : LogEntry :=
  let logLevel := convertLevel (Level record) in
  let entry := WithLogLevel (NewLogEntry IsValidJSON now (Message record) (source h))
                            logLevel in
  let entry := WithFields entry (Attrs record) in
  WithFields entry (attrs h).

(** [func (h *Handler) Handle(_ context.Context, record slog.Record) error] *)
Definition Handle (env : Env) (IsValidJSON : string -> bool) (h : Handler)
    (record : Record_) : M BatchClient (option error) :=
  k <- onClient interact ;;
  BatchClient_SendLogEntry env
    (Handle_entry IsValidJSON (env_format env (env_now env k)) h record).

End slog.

(** integrations/zap: [Core]. *)
Module zap.

(** The levels of [zapcore]. *)
Definition DebugLevel : Z := -1.
Definition InfoLevel : Z := 0.
Definition WarnLevel : Z := 1.
Definition ErrorLevel : Z := 2.
Definition DPanicLevel : Z := 3.
Definition PanicLevel : Z := 4.
Definition FatalLevel : Z := 5.

Record Core := {
  source : string;
  contextFields : list (string * string);
  level : Z
}.

(** A [zapcore.Entry]; [Caller] is [entry.Caller.String()]. *)
Record Entry := {
  Level : Z;
  Message : string;
  CallerDefined : bool;
  Caller : string;
  Stack : string;
  LoggerName : string
}.

(** [func NewCore(client *client.BatchClient, source string, level
    zapcore.Level) zapcore.Core] *)
Definition NewCore (source : string) (level : Z) : Core :=
  let source := if String.eqb source "" then "zap" else source in
  {| source := source; level := level; contextFields := [] |}.

(** [func (c *Core) Enabled(level zapcore.Level) bool] *)
Definition Enabled (c : Core) (l : Z) : bool := level c <=? l.


(** [func convertLevel(level zapcore.Level) int] *)
Definition convertLevel (level : Z) : Z :=
  if level =? DebugLevel then types.LevelDebug
  else if level =? InfoLevel then types.LevelInfo
  else if level =? WarnLevel then types.LevelWarning
  else if level =? ErrorLevel then types.LevelError
  else if level =? DPanicLevel then types.LevelCritical
  else if level =? PanicLevel then types.LevelAlert
  else if level =? FatalLevel then types.LevelEmergency
  else types.LevelInfo.

(** The entry [Write] builds. *)
Definition Write_entry (IsValidJSON : string -> bool) (now : string)
    (c : Core) (entry : Entry) (fields : list (string * string)) : LogEntry :=
  let logLevel := convertLevel (Level entry) in
  let logEntry := WithLogLevel (NewLogEntry IsValidJSON now (Message entry) (source c))
                               logLevel in
  let logEntry :=
    if CallerDefined entry then WithMetadata logEntry "caller" (Caller entry)
    else logEntry in
  let logEntry :=
    if negb (String.eqb (Stack entry) "") then WithMetadata logEntry "stack" (Stack entry)
    else logEntry in
  let logEntry :=
    if negb (String.eqb (LoggerName entry) "")
    then WithMetadata logEntry "logger" (LoggerName entry)
    else logEntry in
  let logEntry := WithFields logEntry (contextFields c) in
  WithFields logEntry fields.

(** [func (c *Core) Write(entry zapcore.Entry, fields []zapcore.Field) error] *)
Definition Write (env : Env) (IsValidJSON : string -> bool) (c : Core)
    (entry : Entry) (fields : list (string * string)) : M BatchClient (option error) :=
  k <- onClient interact ;;
  BatchClient_SendLogEntry env
    (Write_entry IsValidJSON (env_format env (env_now env k)) c entry fields).

(** [func (c *Core) Sync() error] *)
Definition Sync (env : Env) : M BatchClient (option error) := BatchClient_Flush env.


End zap.

(** integrations/logrus: [Hook]. *)
Module logrus.

(** The levels of [logrus]. *)
Definition PanicLevel : Z := 0.
Definition FatalLevel : Z := 1.
Definition ErrorLevel : Z := 2.
Definition WarnLevel : Z := 3.
Definition InfoLevel : Z := 4.
Definition DebugLevel : Z := 5.
Definition TraceLevel : Z := 6.

Record Hook := { source : string }.

(** A [logrus.Entry]; [Data] with its values rendered. *)
Record Entry := {
  Level : Z;
  Message : string;
  Data : gmap string string
}.


(** [func convertLevel(level logrus.Level) int] *)
Definition convertLevel (level : Z) : Z :=
  if level =? PanicLevel then types.LevelEmergency
  else if level =? FatalLevel then types.LevelAlert
  else if level =? ErrorLevel then types.LevelError
  else if level =? WarnLevel then types.LevelWarning
  else if level =? InfoLevel then types.LevelInfo
  else if level =? DebugLevel then types.LevelDebug
  else if level =? TraceLevel then types.LevelDebug
  else types.LevelInfo.

(** The entry [Fire] builds; [order] is the order in which
    [for key, value := range entry.Data] visits the map, which Go leaves
    open. *)
Definition Fire_entry (IsValidJSON : string -> bool) (now : string)
    (h : Hook) (entry : Entry) (order : list (string * string)) : LogEntry :=
  let logLevel := convertLevel (Level entry) in
  let logEntry := WithLogLevel (NewLogEntry IsValidJSON now (Message entry) (source h))
                               logLevel in
  WithFields logEntry order.

(** [func (h *Hook) Fire(entry *logrus.Entry) error] *)
Definition Fire (env : Env) (IsValidJSON : string -> bool) (h : Hook)
    (entry : Entry) (order : list (string * string)) : M BatchClient (option error) :=
  k <- onClient interact ;;
  BatchClient_SendLogEntry env
    (Fire_entry IsValidJSON (env_format env (env_now env k)) h entry order).

End logrus.

(** An environment in which the peer is there: marshalling, dialling,
    setting deadlines and writing all succeed. *)
Definition network_up (env : Env) : Prop :=
  (forall d : Data, env_marshal env d = None) /\
  (forall k : nat, env_dial env k = None) /\
  (forall k : nat, env_setWriteDeadline env k = None) /\
  (forall k : nat, env_write env k = None).

(** ** Log entries *)

(** C10. For every log entry [e] and every integer [L], [WithLogLevel e L]
    is [e] with its [LogLevel] set to [L] when [1 <= L <= 8] and to 7 (Info)
    when [L] is outside that range; every other field is the one of [e]. *)
Theorem WithLogLevel_sets_only_the_level (e : LogEntry) (L : Z) :
  (1 <= L <= 8 -> LogLevel (WithLogLevel e L) = L) /\
  (L < 1 \/ 8 < L -> LogLevel (WithLogLevel e L) = 7) /\
  Metadata (WithLogLevel e L) = Metadata e /\
  Version (WithLogLevel e L) = Version e /\
  Payload (WithLogLevel e L) = Payload e /\
  Source (WithLogLevel e L) = Source e /\
  Timestamp (WithLogLevel e L) = Timestamp e /\
  PayloadType (WithLogLevel e L) = PayloadType e /\
  EntryType (WithLogLevel e L) = EntryType e.
Proof.
  unfold WithLogLevel, LevelEmergency, LevelDebug, LevelInfo; cbn [LogLevel
    Metadata Version Payload Source Timestamp PayloadType EntryType].
  repeat apply conj; try reflexivity.
  - intros [Hlo Hhi].
    destruct (L <? 1) eqn:E1; [apply Z.ltb_lt in E1; lia|].
    destruct (8 <? L) eqn:E2; [apply Z.ltb_lt in E2; lia|].
    reflexivity.
  - intros [Hlo | Hhi].
    + apply Z.ltb_lt in Hlo. rewrite Hlo. reflexivity.
    + apply Z.ltb_lt in Hhi. rewrite Hhi, orb_true_r. reflexivity.
Qed.

Lemma WithLogLevel_sets_only_the_level_witness :
  LogLevel (WithLogLevel sample_entry 4) = 4 /\
  LogLevel (WithLogLevel sample_entry 0) = 7 /\
  LogLevel (WithLogLevel sample_entry 9) = 7 /\
  Payload (WithLogLevel sample_entry 9) = "disk full".
Proof.
  pose proof (WithLogLevel_sets_only_the_level sample_entry 4) as H4.
  pose proof (WithLogLevel_sets_only_the_level sample_entry 0) as H0.
  pose proof (WithLogLevel_sets_only_the_level sample_entry 9) as H9.
  repeat apply conj.
  - apply H4. lia.
  - apply H0. lia.
  - apply H9. lia.
  - apply H9.
Defined.

(** ** The circuit breaker *)

Lemma wrap_int32_small (z : Z) : - 2 ^ 31 <= z < 2 ^ 31 -> wrap_int32 z = z.
Proof.
  intros H. unfold wrap_int32.
  rewrite Z.mod_small by lia. lia.
Qed.

Lemma onFailure_closed (c : Config) (now : Z) (b : circuitBreaker) :
  state b = circuitClosed ->
  onFailure c now b =
    {| lastFailureTime := now;
       state := if wrap_int32 (CircuitBreakerThreshold c) <=? wrap_int32 (failureCount b + 1)
                then circuitOpen else circuitClosed;
       failureCount := wrap_int32 (failureCount b + 1) |}.
Proof.
  intros Hst. unfold onFailure, set_state, set_failureCount, set_lastFailureTime.
  cbn [state failureCount lastFailureTime]. rewrite Hst. cbn [Z.eqb circuitClosed circuitHalfOpen andb].
  destruct (_ <=? _); reflexivity.
Qed.

Lemma onFailure_open (c : Config) (now : Z) (b : circuitBreaker) :
  state b = circuitOpen ->
  onFailure c now b =
    {| lastFailureTime := now; state := circuitOpen;
       failureCount := wrap_int32 (failureCount b + 1) |}.
Proof.
  intros Hst. unfold onFailure, set_state, set_failureCount, set_lastFailureTime.
  cbn [state failureCount lastFailureTime]. rewrite Hst. reflexivity.
Qed.





Example first_failure_opens_at_a_wide_threshold :
  state (onFailure wide_threshold 7 newCircuitBreaker) = circuitOpen /\
  failureCount (onFailure wide_threshold 7 newCircuitBreaker) = 1 /\
  CircuitBreakerThreshold wide_threshold = 2147483648.
Proof. vm_compute. repeat split. Qed.

Lemma canExecute_half_open (c : Config) (now : Z) (b : circuitBreaker) :
  state b = circuitHalfOpen -> canExecute c now b = (b, None).
Proof.
  intros Hst. unfold canExecute. rewrite Hst. reflexivity.
Qed.

Lemma canExecute_open_elapsed (c : Config) (now : Z) (b : circuitBreaker) :
  state b = circuitOpen ->
  CircuitBreakerTimeout c <= Since now (lastFailureTime b) ->
  canExecute c now b = (set_state circuitHalfOpen b, None).
Proof.
  intros Hst Hel. unfold canExecute, CompareAndSwapInt32. rewrite Hst.
  cbn [Z.eqb circuitOpen circuitClosed].
  apply Z.leb_le in Hel. rewrite Hel. reflexivity.
Qed.

Lemma canExecute_open_waiting (c : Config) (now : Z) (b : circuitBreaker) :
  state b = circuitOpen ->
  Since now (lastFailureTime b) < CircuitBreakerTimeout c ->
  canExecute c now b = (b, Some CircuitOpenError).
Proof.
  intros Hst Hel. unfold canExecute. rewrite Hst.
  cbn [Z.eqb circuitOpen circuitClosed].
  apply Z.leb_gt in Hel. rewrite Hel. reflexivity.
Qed.

(** C5, as the code has it.  Once the open duration has elapsed, the check
    that finds the breaker open moves it to half-open and is granted.
    While the breaker stays half-open every further check is granted as
    well and changes nothing: the breaker keeps no record of a trial in
    flight, and only a recorded outcome takes it out of half-open (a
    success closes it, a failure opens it again). *)
Theorem half_open_grants_every_check (c : Config) (now : Z) (b : circuitBreaker) :
  (state b = circuitOpen ->
   CircuitBreakerTimeout c <= Since now (lastFailureTime b) ->
   canExecute c now b = (set_state circuitHalfOpen b, None)) /\
  (forall times : list Z,
     state b = circuitHalfOpen ->
     checks c times b = (b, map (fun _ => None) times)) /\
  (state b = circuitHalfOpen ->
     state (onSuccess b) = circuitClosed /\ state (onFailure c now b) = circuitOpen).
Proof.
  repeat apply conj.
  - apply canExecute_open_elapsed.
  - intros times Hst. induction times as [|t times IH].
    + reflexivity.
    + cbn [checks map]. rewrite canExecute_half_open by assumption.
      rewrite IH. reflexivity.
  - intros Hst. split.
    + unfold onSuccess. rewrite Hst. reflexivity.
    + unfold onFailure, set_state, set_failureCount, set_lastFailureTime.
      cbn [state]. rewrite Hst. reflexivity.
Qed.

Lemma half_open_grants_every_check_witness :
  canExecute DefaultConfig (31 * Second) opened_breaker
    = (set_state circuitHalfOpen opened_breaker, None) /\
  checks DefaultConfig [32 * Second; 33 * Second] (set_state circuitHalfOpen opened_breaker)
    = (set_state circuitHalfOpen opened_breaker, [None; None]).
Proof.
  split.
  - apply (half_open_grants_every_check DefaultConfig (31 * Second) opened_breaker).
    + reflexivity.
    + vm_compute. discriminate.
  - apply (half_open_grants_every_check DefaultConfig 0
             (set_state circuitHalfOpen opened_breaker)).
    reflexivity.
Defined.

(** C5 as the specification words it does not hold: after the check that
    moved the breaker to half-open was granted, a second check made before
    any outcome is recorded is granted too. *)
Lemma half_open_second_check_is_granted :
  ~ (forall (c : Config) (t1 t2 : Z) (b : circuitBreaker),
       state b = circuitOpen ->
       CircuitBreakerTimeout c <= Since t1 (lastFailureTime b) ->
       snd (canExecute c t1 b) = None ->
       state (fst (canExecute c t1 b)) = circuitHalfOpen ->
       snd (canExecute c t2 (fst (canExecute c t1 b))) <> None).
Proof.
  intros H.
  apply (H DefaultConfig (31 * Second) (32 * Second) opened_breaker).
  - reflexivity.
  - vm_compute. discriminate.
  - reflexivity.
  - reflexivity.
  - reflexivity.
Qed.

(** ** The send pipeline *)

#[local] Arguments canExecute : simpl never.
#[local] Arguments onSuccess : simpl never.
#[local] Arguments onFailure : simpl never.
#[local] Arguments Since : simpl never.
#[local] Arguments CalculateBackoffDelay : simpl never.
#[local] Arguments Z.to_nat : simpl never.
#[local] Arguments Z.of_nat : simpl never.
#[local] Arguments Z.add : simpl never.
#[local] Arguments Z.ltb : simpl never.
#[local] Arguments Z.leb : simpl never.
#[local] Arguments String.eqb : simpl nomatch.

(** Unfolds the monad and runs what can be run. *)
Ltac run :=
  unfold bind, ret, get, modify, client_, update, interact, emit, block, panic,
    cut, with_client; cbn.

(** C3. A send attempted while the breaker is open, and before the open
    duration has elapsed since the recorded failure instant, returns the
    circuit-open error at once: the client (its connection, its queue, its
    failure counter and breaker state) is as before, and nothing was
    dialled, written, slept or reported. *)
Theorem open_breaker_rejects_send
    (env : Env) (g : goroutine) (d : Data) (w : World) :
  state (breaker (cl w)) = circuitOpen ->
  Since (env_now env (tick w)) (lastFailureTime (breaker (cl w)))
    < CircuitBreakerTimeout (config (cl w)) ->
  exists w',
    sendWithRetry env g d w = (Returns (Some CircuitOpenError), w') /\
    cl w' = cl w /\ trace w' = trace w.
Proof.
  intros Hst Hwait.
  unfold sendWithRetry, sendWithRetry_, canExecuteM. run.
  rewrite Hst. cbn.
  rewrite canExecute_open_waiting by assumption. cbn.
  eexists. split; [reflexivity|]. cbn. split; [|reflexivity].
  destruct (cl w); reflexivity.
Qed.

Lemma open_breaker_rejects_send_witness :
  exists w',
    sendWithRetry (unreachable (10 * Second)) caller (PingData NewPingRequest)
      (start (set_breaker opened_breaker sync_client))
    = (Returns (Some CircuitOpenError), w') /\
    cl w' = set_breaker opened_breaker sync_client /\ trace w' = [].
Proof.
  apply (open_breaker_rejects_send (unreachable (10 * Second)) caller
           (PingData NewPingRequest) (start (set_breaker opened_breaker sync_client))).
  - reflexivity.
  - vm_compute. reflexivity.
Defined.

(** C9. On a client whose transport is not TCP, and on a client whose
    shared secret is empty, [Authenticate] returns an error and no response
    without having done anything: the world is the one it was called in (no
    dial, no serialisation, no write, no sleep, no report to the breaker). *)
Theorem Authenticate_rejected_before_any_activity (env : Env) (w : World) :
  Network (config (cl w)) <> "tcp" \/ SharedSecret (config (cl w)) = "" ->
  exists e : error,
    Authenticate env w = (Returns (None, Some e), w) /\
    (e = AuthTransportError \/ e = AuthSecretError).
Proof.
  intros H. unfold Authenticate. run.
  destruct (String.eqb (Network (config (cl w))) "tcp") eqn:Enet; cbn [negb].
  - destruct H as [Hnet | Hsecret].
    + apply String.eqb_eq in Enet. contradiction.
    + rewrite Hsecret. cbn [String.eqb].
      exists AuthSecretError. split; [reflexivity | right; reflexivity].
  - exists AuthTransportError. split; [reflexivity | left; reflexivity].
Qed.

Lemma Authenticate_rejected_before_any_activity_witness :
  exists e : error,
    Authenticate (unreachable 0) (start sync_client)
      = (Returns (None, Some e), start sync_client) /\
    (e = AuthTransportError \/ e = AuthSecretError).
Proof.
  apply (Authenticate_rejected_before_any_activity (unreachable 0) (start sync_client)).
  left. cbn. discriminate.
Defined.

(** ** The async queue *)

Lemma sendAsync_room (d : Data) (w : World) (ch : Chan) (st : bool) :
  muHeld (cl w) = false ->
  asyncChan (cl w) = Some ch -> stopChan (cl w) = Some st ->
  Z.of_nat (length (buf ch)) < cap ch ->
  sendAsync d w =
    (Returns None,
     with_client (set_asyncChan
       (Some {| cap := cap ch; buf := buf ch ++ [fire_and_forget d] |})) w).
Proof.
  intros Hmu Hch Hstop Hroom. unfold sendAsync. run.
  rewrite Hmu, Hch, Hstop. apply Z.ltb_lt in Hroom. rewrite Hroom. reflexivity.
Qed.

Lemma sendAsync_full (d : Data) (w : World) (ch : Chan) (st : bool) :
  muHeld (cl w) = false ->
  asyncChan (cl w) = Some ch -> stopChan (cl w) = Some st ->
  cap ch <= Z.of_nat (length (buf ch)) ->
  sendAsync d w = (Returns (Some QueueFullError), w).
Proof.
  intros Hmu Hch Hstop Hfull. unfold sendAsync. run.
  rewrite Hmu, Hch, Hstop. apply Z.ltb_ge in Hfull. rewrite Hfull. reflexivity.
Qed.

Lemma enqueue_while_room (ds : list Data) :
  forall (w : World) (ch : Chan) (st : bool),
    muHeld (cl w) = false ->
    asyncChan (cl w) = Some ch -> stopChan (cl w) = Some st ->
    Z.of_nat (length (buf ch) + length ds) <= cap ch ->
    enqueue ds w =
      (map (fun _ => Returns None) ds,
       with_client (set_asyncChan
         (Some {| cap := cap ch; buf := buf ch ++ map fire_and_forget ds |})) w).
Proof.
  induction ds as [|d ds IH]; intros w ch st Hmu Hch Hstop Hroom.
  - cbn [enqueue map]. rewrite app_nil_r. f_equal.
    destruct w as [c t tr]. unfold with_client. cbn in *. f_equal.
    destruct c; cbn in *. subst. destruct ch; reflexivity.
  - cbn [enqueue map]. cbn [length] in Hroom.
    rewrite (sendAsync_room d w ch st) by (try assumption; lia).
    rewrite (IH _ {| cap := cap ch; buf := buf ch ++ [fire_and_forget d] |} st);
      try reflexivity; cbn; try assumption.
    + rewrite <- app_assoc. reflexivity.
    + rewrite length_app. cbn [length]. lia.
Qed.

(** C7. On a new async client whose queue was made with capacity [N], and
    with the worker receiving nothing, each of the first [N] calls of
    [sendAsync] returns no error and leaves its request queued, in order;
    call [N + 1] returns the queue-full error at once and leaves the queue,
    and the rest of the world, as they were. *)
Theorem async_queue_full_after_capacity
    (cfg : Config) (N : nat) (ds : list Data) (d : Data) :
  AsyncMode cfg = true -> ChannelBuffer cfg = Z.of_nat N -> length ds = N ->
  exists c : Client,
    NewClient (Some cfg) = Returns c /\
    fst (enqueue ds (start c)) = map (fun _ => Returns None) ds /\
    queued (snd (enqueue ds (start c))) = map fire_and_forget ds /\
    sendAsync d (snd (enqueue ds (start c)))
      = (Returns (Some QueueFullError), snd (enqueue ds (start c))).
Proof.
  intros Hasync Hcap Hlen. unfold NewClient. rewrite Hasync.
  destruct (Z.ltb_spec (ChannelBuffer cfg) 0) as [Hneg | _]; [lia|].
  eexists. split; [reflexivity|].
  rewrite (enqueue_while_room ds _ {| cap := ChannelBuffer cfg; buf := [] |} false);
    try reflexivity; [| cbn [buf cap length]; lia].
  cbn [fst snd buf cap app]. repeat apply conj.
  - reflexivity.
  - reflexivity.
  - eapply sendAsync_full; try reflexivity.
    cbn [buf cap]. rewrite length_map. lia.
Qed.

Lemma async_queue_full_after_capacity_witness :
  exists c : Client,
    NewClient (Some queue_of_two) = Returns c /\
    fst (enqueue [PingData NewPingRequest; LogEntryData sample_entry] (start c))
      = [Returns None; Returns None] /\
    queued (snd (enqueue [PingData NewPingRequest; LogEntryData sample_entry] (start c)))
      = [fire_and_forget (PingData NewPingRequest);
         fire_and_forget (LogEntryData sample_entry)] /\
    sendAsync (PingData NewPingRequest)
        (snd (enqueue [PingData NewPingRequest; LogEntryData sample_entry] (start c)))
      = (Returns (Some QueueFullError),
         snd (enqueue [PingData NewPingRequest; LogEntryData sample_entry] (start c))).
Proof.
  apply (async_queue_full_after_capacity queue_of_two 2
           [PingData NewPingRequest; LogEntryData sample_entry]
           (PingData NewPingRequest)); reflexivity.
Defined.

(** ** The batcher *)

Lemma onClient_keeps_batch {A : Type} (m : M World A) (bc : BatchClient) :
  batch (snd (onClient m bc)) = batch bc.
Proof.
  unfold onClient. destruct (m (client bc)) as [r w]. reflexivity.
Qed.

Lemma prepareFlush_clears (bc : BatchClient) : batch (prepareFlush bc) = [].
Proof.
  unfold prepareFlush. cbn. destruct (AutoFlush (batchConfig bc) && negb (stopped bc)); reflexivity.
Qed.

Lemma flushBatchLocked_nonempty (env : Env) (bc : BatchClient) :
  batch bc <> [] ->
  flushBatchLocked env bc = onClient (SendLogBatch env (batch bc)) (prepareFlush bc).
Proof.
  intros Hne. unfold flushBatchLocked. run.
  destruct (batch bc) as [|e rest] eqn:E; [contradiction|]. reflexivity.
Qed.

(** C6. Flushing a non-empty buffer is one call of the wrapped client's
    [SendLogBatch], handed a copy of the buffer and made on a batch client
    whose buffer has already been cleared; whatever that call answers (no
    error, an error, or nothing at all) the buffer is empty afterwards, so
    a failed flush puts nothing back.  Appending, to a batch client that
    has not been closed, the unit that brings the buffer to the configured
    maximum size is exactly that: one flush of the buffer with the new
    unit at its end, and an empty buffer afterwards; below the maximum the
    unit is only appended and nothing is sent. *)
Theorem flush_clears_the_buffer_first
    (env : Env) (bc : BatchClient) (entry : LogEntry) :
  (batch bc <> [] ->
     flushBatchLocked env bc
       = onClient (SendLogBatch env (batch bc)) (prepareFlush bc) /\
     batch (prepareFlush bc) = [] /\
     length (batch (snd (flushBatchLocked env bc))) = 0%nat) /\
  (stopped bc = false ->
   MaxBatchSize (batchConfig bc) <= Z.of_nat (length (batch bc)) + 1 ->
     BatchClient_SendLogEntry env entry bc
       = onClient (SendLogBatch env (batch bc ++ [entry]))
                  (prepareFlush (set_batch (batch bc ++ [entry]) bc)) /\
     length (batch (snd (BatchClient_SendLogEntry env entry bc))) = 0%nat) /\
  (stopped bc = false ->
   Z.of_nat (length (batch bc)) + 1 < MaxBatchSize (batchConfig bc) ->
     BatchClient_SendLogEntry env entry bc
       = (Returns None, set_batch (batch bc ++ [entry]) bc)).
Proof.
  repeat apply conj.
  - intros Hne. rewrite flushBatchLocked_nonempty by assumption.
    repeat apply conj.
    + reflexivity.
    + apply prepareFlush_clears.
    + rewrite onClient_keeps_batch, prepareFlush_clears. reflexivity.
  - intros Hrun Hfull.
    assert (Hstep : BatchClient_SendLogEntry env entry bc
              = flushBatchLocked env (set_batch (batch bc ++ [entry]) bc)).
    { unfold BatchClient_SendLogEntry. run. rewrite Hrun.
      rewrite length_app, Nat2Z.inj_add. cbn [length].
      destruct (Z.leb_spec (MaxBatchSize (batchConfig bc))
                           (Z.of_nat (length (batch bc)) + Z.of_nat 1)) as [_ | Hlt];
        [reflexivity | lia]. }
    rewrite Hstep, flushBatchLocked_nonempty.
    + split; [reflexivity|].
      rewrite onClient_keeps_batch, prepareFlush_clears. reflexivity.
    + cbn [batch set_batch]. destruct (batch bc); discriminate.
  - intros Hrun Hroom. unfold BatchClient_SendLogEntry. run. rewrite Hrun.
    rewrite length_app, Nat2Z.inj_add. cbn [length].
    destruct (Z.leb_spec (MaxBatchSize (batchConfig bc))
                         (Z.of_nat (length (batch bc)) + Z.of_nat 1)) as [Hle | _];
      [lia | reflexivity].
Qed.

Lemma flush_clears_the_buffer_first_witness :
  length (batch (snd (flushBatchLocked (unreachable 0) batcher_of_three))) = 0%nat /\
  length (batch (snd (BatchClient_SendLogEntry (unreachable 0) sample_entry
                        batcher_of_three))) = 0%nat.
Proof.
  pose proof (flush_clears_the_buffer_first (unreachable 0) batcher_of_three sample_entry)
    as (Hflush & Hfull & _).
  split.
  - apply Hflush. discriminate.
  - apply Hfull; [reflexivity | cbn; lia].
Defined.

(** The flush of that batcher does fail: the peer cannot be reached, the
    three attempts are used up, and the three entries are gone. *)
Example failed_flush_drops_the_batch :
  fst (BatchClient_SendLogEntry (unreachable 0) sample_entry batcher_of_three)
    = Returns (Some (SendExhaustedError 3
        (Some (ConnectError "unix" "/tmp/logflux-agent.sock"
                 (OSError "connect: no such file or directory"))))) /\
  batch (snd (BatchClient_SendLogEntry (unreachable 0) sample_entry batcher_of_three)) = [].
Proof. vm_compute. split; reflexivity. Qed.

(** ** The backoff policy *)

Lemma SFltb_irrefl (x : float64) : SFltb x x = false.
Proof.
  unfold SFltb, SFcompare.
  destruct x as [s | s | | s m e]; try (destruct s; reflexivity); try reflexivity.
  rewrite Z.compare_refl, Pos.compare_cont_refl. destruct s; reflexivity.
Qed.

Lemma capped_at_most_max (c : Config) (attempt : Z) :
  F64.gt (capped c attempt) (F64.of_int (MaxRetryDelay c)) = false.
Proof.
  unfold capped.
  destruct (F64.gt (scale _ _ _) (F64.of_int (MaxRetryDelay c))) eqn:E.
  - unfold F64.gt. apply SFltb_irrefl.
  - exact E.
Qed.

(** ** Binary64 rounding, on the integers

    The operations of [F64] round the exact result to the nearest float,
    ties to even.  On a grid fine enough for every exact result that occurs,
    that rounding is a function of integers, monotone, and the identity on
    the values of floats. *)

Lemma pow2_pos (a : Z) : 0 <= a -> 0 < 2 ^ a.
Proof. intros H. apply Z.pow_pos_nonneg; lia. Qed.

Lemma pow2_S (a : Z) : 0 <= a -> 2 ^ (a + 1) = 2 * 2 ^ a.
Proof. intros H. rewrite Z.pow_add_r by lia. lia. Qed.

Lemma pow2_le (a b : Z) : a <= b -> 0 <= a -> 2 ^ a <= 2 ^ b.
Proof. intros H H0. apply Z.pow_le_mono_r; lia. Qed.

Lemma pow2_lt (a b : Z) : a < b -> 0 <= a -> 2 ^ a < 2 ^ b.
Proof. intros H H0. apply Z.pow_lt_mono_r; lia. Qed.

Lemma digits2_pos_log2 (m : positive) :
  Z.pos (digits2_pos m) = Z.log2 (Z.pos m) + 1.
Proof.
  assert (H : forall p, digits2_pos p = Pos.size p).
  { induction p as [p IH|p IH|]; cbn; [rewrite IH .. |]; reflexivity. }
  destruct m as [p|p|]; cbn [digits2_pos Z.log2]; rewrite ?H; lia.
Qed.

Lemma digits_bounds (m : positive) :
  2 ^ (Z.pos (digits2_pos m) - 1) <= Z.pos m < 2 ^ Z.pos (digits2_pos m).
Proof.
  rewrite digits2_pos_log2.
  replace (Z.log2 (Z.pos m) + 1 - 1) with (Z.log2 (Z.pos m)) by lia.
  apply Z.log2_spec. lia.
Qed.

Lemma log2_shift (m k : Z) : 0 < m -> 0 <= k -> Z.log2 (m * 2 ^ k) = Z.log2 m + k.
Proof. intros Hm Hk. rewrite Z.log2_mul_pow2 by lia. lia. Qed.

(** *** The shift *)

Lemma shifted_start (m : Z) :
  shifted m 0 {| shr_m := m; shr_r := false; shr_s := false |}.
Proof.
  exists 0. cbn. repeat split; lia.
Qed.

Lemma cmp_loc_exact (r k : Z) : cmp_loc r k = loc_Exact <-> r = 0.
Proof.
  unfold cmp_loc. destruct (Z.eqb_spec r 0); split; intros H; congruence.
Qed.

Lemma shifted_step (m k : Z) (mrs : shr_record) :
  0 <= k -> 0 <= shr_m mrs -> shifted m k mrs ->
  shifted m (k + 1) (shr_1 mrs) /\ 0 <= shr_m (shr_1 mrs).
Proof.
  intros Hk Hm (r & Hr & Hv & Hl).
  pose proof (pow2_pos k Hk) as Hp. pose proof (pow2_S k Hk) as HS.
  assert (Hz : (shr_r mrs || shr_s mrs = false <-> r = 0)).
  { rewrite <- (cmp_loc_exact r k), <- Hl.
    destruct mrs as [m' [|] [|]]; cbn; split; intros H; congruence. }
  destruct mrs as [m' rb sb]. cbn [shr_m] in Hv, Hm. cbn [shr_r shr_s] in Hz.
  assert (Hcase : forall (h : Z) (b : bool),
             m' = 2 * h + (if b then 1 else 0) -> 0 <= h ->
             shifted m (k + 1) {| shr_m := h; shr_r := b; shr_s := rb || sb |}).
  { intros h b Hh Hh0. exists (r + (if b then 2 ^ k else 0)).
    cbn [shr_m]. rewrite HS. split; [destruct b; lia|].
    split; [destruct b; nia|].
    unfold cmp_loc. rewrite HS.
    destruct (rb || sb) eqn:E.
    - assert (r <> 0) by (intros H0; apply Hz in H0; congruence).
      destruct b; cbn.
      + destruct (Z.eqb_spec (r + 2 ^ k) 0); [lia|].
        destruct (Z.compare_spec (2 * (r + 2 ^ k)) (2 * 2 ^ k)); try lia. reflexivity.
      + rewrite Z.add_0_r. destruct (Z.eqb_spec r 0); [lia|].
        destruct (Z.compare_spec (2 * r) (2 * 2 ^ k)); try lia. reflexivity.
    - assert (r = 0) by (apply Hz; reflexivity). subst r.
      destruct b; cbn; rewrite ?Z.add_0_l.
      + destruct (Z.eqb_spec (2 ^ k) 0); [lia|].
        destruct (Z.compare_spec (2 * 2 ^ k) (2 * 2 ^ k)); try lia. reflexivity.
      + reflexivity. }
  destruct m' as [|p|p]; [| |lia].
  - split; [|cbn; lia]. apply (Hcase 0 false); lia.
  - destruct p as [p|p|]; cbn [shr_1].
    + split; [|cbn; lia]. apply (Hcase (Z.pos p) true); lia.
    + split; [|cbn; lia]. apply (Hcase (Z.pos p) false); lia.
    + split; [|cbn; lia]. apply (Hcase 0 true); lia.
Qed.

Lemma shifted_iter (m : Z) (p : positive) (k : Z) (mrs : shr_record) :
  0 <= k -> 0 <= shr_m mrs -> shifted m k mrs ->
  shifted m (k + Z.pos p) (SpecFloat.iter_pos shr_1 p mrs) /\ 0 <= shr_m (SpecFloat.iter_pos shr_1 p mrs).
Proof.
  revert k mrs. induction p as [p IH|p IH|]; intros k mrs Hk Hm H; cbn [SpecFloat.iter_pos].
  - destruct (shifted_step m k mrs Hk Hm H) as [H1 M1].
    destruct (IH (k + 1) _ ltac:(lia) M1 H1) as [H2 M2].
    destruct (IH (k + 1 + Z.pos p) _ ltac:(lia) M2 H2) as [H3 M3].
    split; [|exact M3].
    replace (k + Z.pos p~1) with (k + 1 + Z.pos p + Z.pos p) by lia. exact H3.
  - destruct (IH k _ Hk Hm H) as [H2 M2].
    destruct (IH (k + Z.pos p) _ ltac:(lia) M2 H2) as [H3 M3].
    split; [|exact M3].
    replace (k + Z.pos p~0) with (k + Z.pos p + Z.pos p) by lia. exact H3.
  - apply shifted_step; assumption.
Qed.

(** The shift by [n] and the rounding that follows it, together. *)
Lemma shr_rounds (m e n : Z) :
  0 <= m -> 0 <= n ->
  let '(mrs, e') := shr {| shr_m := m; shr_r := false; shr_s := false |} e n in
  e' = e + n /\ round_nearest_even (shr_m mrs) (loc_of_shr_record mrs) = rne m n.
Proof.
  intros Hm Hn. unfold shr.
  assert (Hfin : forall mrs, shifted m n mrs ->
            round_nearest_even (shr_m mrs) (loc_of_shr_record mrs) = rne m n).
  { intros mrs (r & Hr & Hv & Hl). unfold rne.
    pose proof (pow2_pos n Hn) as Hp.
    assert (Hd : m / 2 ^ n = shr_m mrs).
    { symmetry. apply (Z.div_unique m (2 ^ n) (shr_m mrs) r); [lia|lia]. }
    assert (Hr' : m mod 2 ^ n = r).
    { symmetry. apply (Z.mod_unique m (2 ^ n) (shr_m mrs) r); [lia|lia]. }
    rewrite Hd, Hr', Hl. reflexivity. }
  destruct n as [|p|p]; [| |lia].
  - split; [lia|]. apply Hfin. apply shifted_start.
  - split; [reflexivity|]. apply Hfin.
    apply (shifted_iter m p 0); [lia | cbn; lia | apply shifted_start].
Qed.

(** *** Rounding to nearest even on the integers *)

Lemma rne_bounds (n q : Z) : 0 <= q -> n / 2 ^ q <= rne n q <= n / 2 ^ q + 1.
Proof.
  intros Hq. unfold rne, round_nearest_even, cmp_loc.
  destruct (n mod 2 ^ q =? 0); [lia|].
  destruct (2 * (n mod 2 ^ q) ?= 2 ^ q); [destruct (Z.even _)| |]; lia.
Qed.

Lemma rne_exact (n q : Z) : n mod 2 ^ q = 0 -> rne n q = n / 2 ^ q.
Proof.
  intros H. unfold rne, cmp_loc. rewrite H. reflexivity.
Qed.

Lemma rne_mono (n1 n2 q : Z) : 0 <= q -> n1 <= n2 -> rne n1 q <= rne n2 q.
Proof.
  intros Hq Hn. pose proof (pow2_pos q Hq) as Hp.
  pose proof (Z.div_le_mono n1 n2 (2 ^ q) Hp Hn) as Hd.
  destruct (Z.eq_dec (n1 / 2 ^ q) (n2 / 2 ^ q)) as [E|E].
  - pose proof (Z.div_mod n1 (2 ^ q) ltac:(lia)) as E1.
    pose proof (Z.div_mod n2 (2 ^ q) ltac:(lia)) as E2.
    pose proof (Z.mod_pos_bound n1 (2 ^ q) Hp) as B1.
    pose proof (Z.mod_pos_bound n2 (2 ^ q) Hp) as B2.
    assert (Hr : n1 mod 2 ^ q <= n2 mod 2 ^ q) by (rewrite E in E1; lia).
    unfold rne, round_nearest_even, cmp_loc. rewrite E.
    destruct (Z.eqb_spec (n1 mod 2 ^ q) 0) as [Z1|Z1];
      destruct (Z.eqb_spec (n2 mod 2 ^ q) 0) as [Z2|Z2]; try lia.
    + destruct (2 * (n2 mod 2 ^ q) ?= 2 ^ q); [destruct (Z.even _)| |]; lia.
    + destruct (Z.compare_spec (2 * (n1 mod 2 ^ q)) (2 ^ q));
        destruct (Z.compare_spec (2 * (n2 mod 2 ^ q)) (2 ^ q));
        try destruct (Z.even _); lia.
  - pose proof (rne_bounds n1 q Hq). pose proof (rne_bounds n2 q Hq). lia.
Qed.

Lemma rne_scale (n q j : Z) :
  0 <= q -> 0 <= j -> rne (n * 2 ^ j) (q + j) = rne n q.
Proof.
  intros Hq Hj. pose proof (pow2_pos q Hq) as Hp. pose proof (pow2_pos j Hj) as Hpj.
  unfold rne, cmp_loc. rewrite Z.pow_add_r by lia.
  rewrite Z.div_mul_cancel_r by lia.
  rewrite Z.mul_mod_distr_r by lia.
  replace (2 * (n mod 2 ^ q * 2 ^ j)) with (2 * (n mod 2 ^ q) * 2 ^ j) by lia.
  rewrite <- (Zmult_compare_compat_r (2 * (n mod 2 ^ q)) (2 ^ q) (2 ^ j)) by lia.
  destruct (Z.eqb_spec (n mod 2 ^ q) 0) as [E|E].
  - rewrite E. reflexivity.
  - destruct (Z.eqb_spec (n mod 2 ^ q * 2 ^ j) 0) as [E'|E']; [nia | reflexivity].
Qed.

Lemma rne_zero (n : Z) : rne n 0 = n.
Proof.
  unfold rne, cmp_loc. rewrite Z.pow_0_r, Z.div_1_r, Z.mod_1_r. reflexivity.
Qed.

(** *** Rounding on the grid *)

Lemma qexp_nonneg (n : Z) : 0 <= qexp n.
Proof. unfold qexp, grid. lia. Qed.

Lemma qexp_mono (n1 n2 : Z) : n1 <= n2 -> qexp n1 <= qexp n2.
Proof.
  intros H. unfold qexp. pose proof (Z.log2_le_mono n1 n2 H). lia.
Qed.

Lemma round_grid_nonneg (n : Z) : 0 <= n -> 0 <= round_grid n.
Proof.
  intros Hn. unfold round_grid.
  pose proof (qexp_nonneg n) as Hq. pose proof (pow2_pos _ Hq) as Hp.
  pose proof (rne_bounds n (qexp n) Hq).
  pose proof (Z.div_pos n (2 ^ qexp n) Hn Hp). nia.
Qed.

Lemma round_grid_0 : round_grid 0 = 0.
Proof. reflexivity. Qed.

Lemma round_grid_mono (n1 n2 : Z) : 0 <= n1 -> n1 <= n2 -> round_grid n1 <= round_grid n2.
Proof.
  intros H1 H12.
  pose proof (qexp_mono n1 n2 H12) as Hq.
  pose proof (qexp_nonneg n1) as Hq1. pose proof (qexp_nonneg n2) as Hq2.
  destruct (Z.eq_dec (qexp n1) (qexp n2)) as [E|E].
  - unfold round_grid. rewrite E. apply Z.mul_le_mono_nonneg_r.
    + pose proof (pow2_pos _ Hq2). lia.
    + apply rne_mono; assumption.
  - destruct (Z.eq_dec n1 0) as [->|N1].
    { rewrite round_grid_0. apply round_grid_nonneg. lia. }
    assert (L2 : qexp n2 = Z.log2 n2 + 1 - F64.prec).
    { unfold qexp in *. lia. }
    assert (L1 : Z.log2 n1 + 1 - F64.prec <= qexp n1) by (unfold qexp; lia).
    unfold F64.prec in L1, L2.
    pose proof (Z.log2_spec n1 ltac:(lia)) as [_ U1].
    pose proof (Z.log2_spec n2 ltac:(lia)) as [U2 _].
    pose proof (Z.log2_nonneg n1) as Hl1.
    pose proof (pow2_pos _ Hq1) as P1. pose proof (pow2_pos _ Hq2) as P2.
    (* the smaller one stays at or below 2^(q1+53) *)
    assert (A : round_grid n1 <= 2 ^ (qexp n1 + 53)).
    { unfold round_grid. rewrite (Z.pow_add_r 2 (qexp n1) 53) by lia.
      rewrite (Z.mul_comm (2 ^ qexp n1)).
      apply Z.mul_le_mono_nonneg_r; [lia|].
      pose proof (rne_bounds n1 (qexp n1) Hq1).
      assert (n1 / 2 ^ qexp n1 < 2 ^ 53); [|lia].
      apply Z.div_lt_upper_bound; [lia|].
      rewrite <- Z.pow_add_r by lia.
      eapply Z.lt_le_trans; [exact U1|]. apply pow2_le; lia. }
    (* the larger one is at or above 2^(q2+52) *)
    assert (B : 2 ^ (qexp n2 + 52) <= round_grid n2).
    { unfold round_grid. rewrite (Z.pow_add_r 2 (qexp n2) 52) by lia.
      rewrite (Z.mul_comm (2 ^ qexp n2)).
      apply Z.mul_le_mono_nonneg_r; [lia|].
      pose proof (rne_bounds n2 (qexp n2) Hq2).
      assert (2 ^ 52 <= n2 / 2 ^ qexp n2); [|lia].
      apply Z.div_le_lower_bound; [lia|].
      rewrite <- Z.pow_add_r by lia.
      eapply Z.le_trans; [|exact U2]. apply pow2_le; lia. }
    eapply Z.le_trans; [exact A|]. eapply Z.le_trans; [|exact B].
    apply pow2_le; lia.
Qed.

Lemma round_grid_id (n : Z) : n mod 2 ^ qexp n = 0 -> round_grid n = n.
Proof.
  intros H. unfold round_grid. rewrite rne_exact by exact H.
  pose proof (pow2_pos _ (qexp_nonneg n)) as Hp.
  pose proof (Z.div_mod n (2 ^ qexp n) ltac:(lia)). lia.
Qed.

Lemma round_signed_mono (z1 z2 : Z) : z1 <= z2 -> round_signed z1 <= round_signed z2.
Proof.
  intros H. unfold round_signed.
  destruct (Z.ltb_spec z1 0), (Z.ltb_spec z2 0); try lia.
  - pose proof (round_grid_mono (- z2) (- z1) ltac:(lia) ltac:(lia)). lia.
  - pose proof (round_grid_nonneg (- z1) ltac:(lia)). pose proof (round_grid_nonneg z2 ltac:(lia)). lia.
  - apply round_grid_mono; lia.
Qed.

Lemma round_signed_opp (z : Z) : round_signed (- z) = - round_signed z.
Proof.
  unfold round_signed. destruct (Z.ltb_spec z 0), (Z.ltb_spec (- z) 0); try lia.
  - rewrite Z.opp_involutive. lia.
  - assert (z = 0) by lia. subst z. reflexivity.
Qed.

Lemma round_signed_nonneg (z : Z) : 0 <= z -> round_signed z = round_grid z.
Proof.
  intros H. unfold round_signed. destruct (Z.ltb_spec z 0); [lia | reflexivity].
Qed.

(** *** What [binary_round_aux] computes *)


Lemma fexp64_eq (x : Z) : fexp64 x = Z.max (x - 53) (-1074).
Proof. reflexivity. Qed.

Lemma qexp_float (m : positive) (e : Z) :
  - grid <= e ->
  qexp (Z.pos m * 2 ^ (e + grid)) = fexp64 (Z.pos (digits2_pos m) + e) + grid.
Proof.
  intros He. unfold qexp. rewrite log2_shift by lia.
  rewrite digits2_pos_log2, fexp64_eq. unfold F64.prec, grid. lia.
Qed.

Lemma shr_nonpos (mrs : shr_record) (e n : Z) : n <= 0 -> shr mrs e n = (mrs, e).
Proof. intros H. destruct n; [reflexivity | lia | reflexivity]. Qed.

Lemma round_aux_spec (s : bool) (m : positive) (e : Z) :
  - grid <= e -> e <= fexp64 (Z.pos (digits2_pos m) + e) ->
  let V := round_grid (Z.pos m * 2 ^ (e + grid)) in
  let r := binary_round_aux F64.prec F64.emax s (Z.pos m) e loc_Exact in
  valid64 r /\ signed s r /\
  (V < overflow -> finite64 r = true /\ gval r = cond_Zopp s V) /\
  (overflow <= V -> r = S754_infinity s).
Proof.
  intros He Hc V r.
  pose proof (digits_bounds m) as [Dl Du].
  set (d := Z.pos (digits2_pos m)) in *.
  set (e1 := fexp64 (d + e)) in *.
  assert (He1 : -1074 <= e1) by (unfold e1; rewrite fexp64_eq; lia).
  assert (Hn : 0 <= e1 - e) by lia.
  assert (Hd : 0 < d) by (unfold d; lia).
  (* the first shift and the rounding *)
  assert (R1 : exists m1 : Z,
             r = (let '(mrs'', e'') :=
                    shr {| shr_m := m1; shr_r := false; shr_s := false |} e1
                        (fexp64 (Zdigits2 m1 + e1) - e1) in
                  match shr_m mrs'' with
                  | 0 => S754_zero s
                  | Z.pos m' => if e'' <=? F64.emax - F64.prec
                                then S754_finite s m' e'' else S754_infinity s
                  | Z.neg _ => S754_nan
                  end) /\
             m1 = rne (Z.pos m) (e1 - e)).
  { exists (rne (Z.pos m) (e1 - e)). split; [|reflexivity].
    unfold r, binary_round_aux, shr_fexp.
    change (shr_record_of_loc (Z.pos m) loc_Exact)
      with {| shr_m := Z.pos m; shr_r := false; shr_s := false |}.
    change (Zdigits2 (Z.pos m)) with d.
    change (fexp F64.prec F64.emax (d + e)) with e1.
    pose proof (shr_rounds (Z.pos m) e (e1 - e) ltac:(lia) Hn) as Hs.
    destruct (shr _ e (e1 - e)) as [mrs e'].
    destruct Hs as [-> ->].
    replace (e + (e1 - e)) with e1 by lia. reflexivity. }
  destruct R1 as (m1 & Hr & Hm1).
  assert (HV : V = m1 * 2 ^ (e1 + grid)).
  { unfold V, round_grid. rewrite qexp_float by exact He. fold d. fold e1.
    replace (e1 + grid) with ((e1 - e) + (e + grid)) at 1 by lia.
    rewrite rne_scale by lia. rewrite <- Hm1. reflexivity. }
  pose proof (rne_bounds (Z.pos m) (e1 - e) Hn) as Hb. rewrite <- Hm1 in Hb.
  pose proof (pow2_pos (e1 - e) Hn) as Hp.
  assert (Hup : m1 <= 2 ^ 53).
  { assert (Z.pos m / 2 ^ (e1 - e) < 2 ^ 53); [|lia].
    apply Z.div_lt_upper_bound; [lia|].
    rewrite <- Z.pow_add_r by lia.
    eapply Z.lt_le_trans; [exact Du|]. apply pow2_le; [|lia].
    unfold e1. rewrite fexp64_eq. lia. }
  assert (Hlo : -1074 < e1 -> 2 ^ 52 <= m1).
  { intros H. assert (2 ^ 52 <= Z.pos m / 2 ^ (e1 - e)); [|lia].
    apply Z.div_le_lower_bound; [lia|].
    rewrite <- Z.pow_add_r by lia.
    eapply Z.le_trans; [|exact Dl]. apply pow2_le; [|lia].
    unfold e1 in *. rewrite fexp64_eq in *. lia. }
  assert (Hnn : 0 <= m1).
  { pose proof (Z.div_pos (Z.pos m) (2 ^ (e1 - e)) ltac:(lia) Hp). lia. }
  assert (Hg : 0 <= e1 + grid) by (unfold grid in *; lia).
  pose proof (pow2_pos _ Hg) as Hpg.
  destruct m1 as [|p1|p1]; [| |lia].
  - (* the value rounds to zero *)
    rewrite shr_nonpos in Hr
      by (cbn [Zdigits2]; rewrite fexp64_eq; lia).
    cbn [shr_m] in Hr. rewrite Hr.
    split; [reflexivity|]. split; [reflexivity|].
    split.
    + intros _. split; [reflexivity|]. cbn [gval]. rewrite HV. destruct s; reflexivity.
    + intros Ho. assert (0 < overflow) by (apply pow2_pos; unfold F64.emax, grid; lia). lia.
  - cbn [Zdigits2] in Hr.
    pose proof (digits_bounds p1) as [Pl Pu].
    set (d1 := Z.pos (digits2_pos p1)) in *.
    assert (Hd1 : 0 < d1) by (unfold d1; lia).
    destruct (Z.eq_dec (Z.pos p1) (2 ^ 53)) as [E53|N53].
    + (* the rounding carried into a 54th bit: one more shift *)
      assert (Hp1 : p1 = 9007199254740992%positive) by lia.
      assert (Hd54 : d1 = 54) by (unfold d1; rewrite Hp1; reflexivity).
      rewrite Hd54 in Hr.
      replace (fexp64 (54 + e1) - e1) with 1 in Hr by (rewrite fexp64_eq; lia).
      rewrite Hp1 in Hr. cbn [shr SpecFloat.iter_pos shr_1 shr_m] in Hr.
      unfold F64.emax, F64.prec in Hr.
      assert (HV' : V = 2 ^ (e1 + 1 + 52 + grid)).
      { rewrite HV, E53, <- Z.pow_add_r by lia. f_equal. lia. }
      assert (Ho : overflow = 2 ^ (1024 + grid)) by reflexivity.
      destruct (Z.leb_spec (e1 + 1) (1024 - 53)) as [L|L]; rewrite Hr.
      * split.
        { unfold valid64, valid_binary, bounded, canonical_mantissa.
          apply andb_true_intro. split.
          - apply Z.eqb_eq. change (fexp F64.prec F64.emax) with fexp64.
            rewrite fexp64_eq.
            change (Z.pos (digits2_pos 4503599627370496)) with 53. lia.
          - apply Z.leb_le. unfold F64.emax, F64.prec. lia. }
        split; [reflexivity|]. split.
        { intros _. split; [reflexivity|]. cbn [gval]. f_equal.
          rewrite HV'. change (Z.pos 4503599627370496) with (2 ^ 52).
          rewrite <- Z.pow_add_r by (unfold grid; lia). f_equal. lia. }
        { intros Hov. exfalso. rewrite HV', Ho in Hov.
          apply Z.pow_le_mono_r_iff in Hov; unfold grid in *; lia. }
      * split; [reflexivity|]. split; [reflexivity|]. split; [|reflexivity].
        intros Hlt. exfalso. rewrite HV', Ho in Hlt.
        apply Z.pow_lt_mono_r_iff in Hlt; unfold grid in *; lia.
    + (* at most 53 bits: no second shift *)
      assert (Hd53 : d1 <= 53).
      { destruct (Z.le_gt_cases d1 53) as [H|H]; [exact H|]. exfalso.
        assert (2 ^ 53 <= 2 ^ (d1 - 1)) by (apply pow2_le; lia). lia. }
      rewrite shr_nonpos in Hr by (rewrite fexp64_eq; lia).
      cbn [shr_m] in Hr. unfold F64.emax, F64.prec in Hr.
      assert (Hcan : e1 <= 1024 - 53 -> valid64 (S754_finite s p1 e1)).
      { intros L. unfold valid64, valid_binary, bounded, canonical_mantissa.
        apply andb_true_intro. split.
        - apply Z.eqb_eq. change (fexp F64.prec F64.emax) with fexp64.
          fold d1. rewrite fexp64_eq.
          destruct (Z.eq_dec e1 (-1074)) as [->|Ne]; [lia|].
          specialize (Hlo ltac:(lia)).
          assert (53 <= d1); [|lia].
          destruct (Z.le_gt_cases 53 d1) as [H|H]; [exact H|]. exfalso.
          assert (2 ^ d1 <= 2 ^ 52) by (apply pow2_le; lia). lia.
        - apply Z.leb_le. unfold F64.emax, F64.prec. exact L. }
      assert (Ho : overflow = 2 ^ 53 * 2 ^ (1024 - 53 + grid))
        by (rewrite <- Z.pow_add_r; [reflexivity | lia | unfold grid; lia]).
      destruct (Z.leb_spec e1 (1024 - 53)) as [L|L]; rewrite Hr.
      * split; [apply Hcan; exact L|]. split; [reflexivity|]. split.
        { intros _. split; [reflexivity|]. cbn [gval]. rewrite HV. reflexivity. }
        { intros Hov. exfalso. rewrite HV, Ho in Hov.
          assert (2 ^ (e1 + grid) <= 2 ^ (1024 - 53 + grid)) by (apply pow2_le; lia).
          assert (0 < 2 ^ (1024 - 53 + grid)) by (apply pow2_pos; unfold grid; lia).
          nia. }
      * split; [reflexivity|]. split; [reflexivity|]. split; [|reflexivity].
        intros Hlt. exfalso. rewrite HV in Hlt.
        specialize (Hlo ltac:(lia)).
        assert (Ho' : overflow = 2 ^ 52 * 2 ^ (1024 - 52 + grid))
          by (rewrite <- Z.pow_add_r; [reflexivity | lia | unfold grid; lia]).
        rewrite Ho' in Hlt.
        assert (2 ^ (1024 - 52 + grid) <= 2 ^ (e1 + grid)) by (apply pow2_le; unfold grid; lia).
        assert (0 < 2 ^ (1024 - 52 + grid)) by (apply pow2_pos; unfold grid; lia).
        nia.
Qed.

(** *** The operations *)



Lemma overflow_pos : 0 < overflow.
Proof. apply pow2_pos. unfold F64.emax, grid. lia. Qed.

Lemma valid64_finite (s : bool) (m : positive) (e : Z) :
  valid64 (S754_finite s m e) ->
  fexp64 (Z.pos (digits2_pos m) + e) = e /\ e <= 971.
Proof.
  unfold valid64, valid_binary, bounded, canonical_mantissa.
  intros H. apply andb_prop in H as [H1 H2].
  apply Z.eqb_eq in H1. apply Z.leb_le in H2. split; [exact H1 | exact H2].
Qed.

Lemma valid64_range (s : bool) (m : positive) (e : Z) :
  valid64 (S754_finite s m e) ->
  -1074 <= e <= 971 /\ Z.pos (digits2_pos m) <= 53 /\
  (-1074 < e -> Z.pos (digits2_pos m) = 53).
Proof.
  intros H. apply valid64_finite in H as [H1 H2]. rewrite fexp64_eq in H1. lia.
Qed.

Lemma round_signed_cond_Zopp (s : bool) (n : Z) :
  0 <= n -> round_signed (cond_Zopp s n) = cond_Zopp s (round_grid n).
Proof.
  intros H. destruct s; cbn [cond_Zopp].
  - rewrite round_signed_opp, round_signed_nonneg by exact H. reflexivity.
  - apply round_signed_nonneg. exact H.
Qed.

Lemma abs_cond_Zopp (s : bool) (n : Z) : 0 <= n -> Z.abs (cond_Zopp s n) = n.
Proof. intros H. destruct s; cbn [cond_Zopp]; lia. Qed.

Lemma aux_rounds_to (s : bool) (m : positive) (e : Z) :
  - grid <= e -> e <= fexp64 (Z.pos (digits2_pos m) + e) ->
  rounds_to (binary_round_aux F64.prec F64.emax s (Z.pos m) e loc_Exact)
            (cond_Zopp s (Z.pos m * 2 ^ (e + grid))).
Proof.
  intros He Hc.
  destruct (round_aux_spec s m e He Hc) as (Hv & Hs & Hlt & Hge).
  set (r := binary_round_aux _ _ s (Z.pos m) e loc_Exact) in *.
  set (N := Z.pos m * 2 ^ (e + grid)) in *.
  assert (HN : 0 < N).
  { unfold N. pose proof (pow2_pos (e + grid) ltac:(lia)). nia. }
  pose proof (round_grid_nonneg N ltac:(lia)) as HR.
  unfold rounds_to. rewrite round_signed_cond_Zopp, abs_cond_Zopp by lia.
  split; [exact Hv|]. split; [|split].
  - split.
    + intros Hf. destruct (Z.lt_ge_cases (round_grid N) overflow) as [H|H]; [exact H|].
      rewrite (Hge H) in Hf. discriminate.
    + intros H. apply Hlt. exact H.
  - intros Hf. apply Hlt.
    destruct (Z.lt_ge_cases (round_grid N) overflow) as [H|H]; [exact H|].
    rewrite (Hge H) in Hf. discriminate.
  - intros H0. destruct s; [cbn [cond_Zopp] in H0; lia|].
    destruct r; cbn in Hs |- *; auto.
Qed.

Lemma self_rounds (x : float64) : valid64 x -> finite64 x = true -> rounds_to x (gval x).
Proof.
  intros Hv Hf. destruct x as [s| |  |s m e]; try discriminate.
  - unfold rounds_to. cbn [gval]. change (round_signed 0) with 0.
    pose proof overflow_pos. repeat split; auto; cbn; lia.
  - pose proof (valid64_range s m e Hv) as (He & Hd & Hn).
    pose proof (valid64_finite s m e Hv) as [Hc _].
    cbn [gval]. set (N := Z.pos m * 2 ^ (e + grid)).
    assert (Hg : 0 <= e + grid) by (unfold grid; lia).
    pose proof (pow2_pos _ Hg) as Hp.
    assert (HN : 0 < N) by (unfold N; nia).
    assert (Hq : qexp N = e + grid).
    { unfold N. rewrite qexp_float by (unfold grid; lia). rewrite Hc. reflexivity. }
    assert (Hid : round_grid N = N).
    { apply round_grid_id. rewrite Hq. unfold N. apply Z.mod_mul. lia. }
    assert (Hlt : N < overflow).
    { unfold N, overflow. pose proof (digits_bounds m) as [_ Du].
      assert (Z.pos m < 2 ^ 53).
      { eapply Z.lt_le_trans; [exact Du|]. apply pow2_le; lia. }
      assert (2 ^ (e + grid) <= 2 ^ (971 + grid)) by (apply pow2_le; lia).
      replace (F64.emax + grid) with (53 + (971 + grid)) by reflexivity.
      rewrite (Z.pow_add_r 2 53) by (unfold grid; lia).
      assert (0 < 2 ^ (971 + grid)) by (apply pow2_pos; unfold grid; lia).
      nia. }
    unfold rounds_to. rewrite round_signed_cond_Zopp, abs_cond_Zopp, Hid by lia.
    split; [exact Hv|]. split; [split; auto|]. split; [reflexivity|].
    intros H0. destruct s; [cbn [cond_Zopp] in H0; lia | reflexivity].
Qed.

Lemma rounds_to_zero (s : bool) : rounds_to (S754_zero s) 0.
Proof. apply (self_rounds (S754_zero s)); reflexivity. Qed.

(** [shl_align]: the same value with a smaller exponent. *)
Lemma iter_xO (p d : positive) : Z.pos (Pos.iter xO p d) = Z.pos p * 2 ^ Z.pos d.
Proof.
  induction d as [|d IH] using Pos.peano_ind.
  - cbn. lia.
  - rewrite Pos.iter_succ, Pos2Z.inj_succ, Z.pow_succ_r by lia.
    rewrite Pos2Z.inj_xO, IH. lia.
Qed.

Lemma shl_align_spec (p : positive) (e e' : Z) :
  snd (shl_align p e e') = Z.min e e' /\
  Z.pos (fst (shl_align p e e')) = Z.pos p * 2 ^ (e - Z.min e e').
Proof.
  unfold shl_align. destruct (e' - e) as [|d|d] eqn:E; cbn [fst snd].
  - replace (Z.min e e') with e by lia. rewrite Z.sub_diag. lia.
  - replace (Z.min e e') with e by lia. rewrite Z.sub_diag. lia.
  - replace (Z.min e e') with e' by lia. split; [reflexivity|].
    rewrite iter_xO. f_equal. f_equal. lia.
Qed.

Lemma round_rounds_to (s : bool) (p : positive) (e : Z) :
  - grid <= e ->
  rounds_to (binary_round F64.prec F64.emax s p e)
            (cond_Zopp s (Z.pos p * 2 ^ (e + grid))).
Proof.
  intros He. unfold binary_round.
  change (fexp F64.prec F64.emax) with fexp64.
  set (e' := fexp64 (Z.pos (digits2_pos p) + e)).
  destruct (shl_align_spec p e e') as [H2 H1].
  destruct (shl_align p e e') as [mz ez]. cbn [fst snd] in H1, H2.
  assert (He' : -1074 <= e') by (unfold e'; rewrite fexp64_eq; lia).
  assert (Hs : 0 <= e - ez) by lia.
  assert (Hdig : Z.pos (digits2_pos mz) + ez = Z.pos (digits2_pos p) + e).
  { rewrite !digits2_pos_log2, H1, log2_shift by lia. lia. }
  assert (Hval : Z.pos mz * 2 ^ (ez + grid) = Z.pos p * 2 ^ (e + grid)).
  { rewrite H1, <- Z.mul_assoc, <- Z.pow_add_r by (unfold grid in *; lia).
    f_equal. f_equal. lia. }
  rewrite <- Hval. apply aux_rounds_to.
  - unfold grid in *. lia.
  - rewrite Hdig. fold e'. lia.
Qed.

Lemma normalize_rounds_to (z e : Z) :
  - grid <= e ->
  rounds_to (binary_normalize F64.prec F64.emax z e false) (z * 2 ^ (e + grid)).
Proof.
  intros He. destruct z as [|p|p]; cbn [binary_normalize].
  - apply rounds_to_zero.
  - apply (round_rounds_to false p e He).
  - replace (Z.neg p * 2 ^ (e + grid)) with (cond_Zopp true (Z.pos p * 2 ^ (e + grid)))
      by (cbn [cond_Zopp]; lia).
    apply (round_rounds_to true p e He).
Qed.

Lemma of_int_rounds_to (n : Z) : rounds_to (F64.of_int n) (n * 2 ^ grid).
Proof. apply (normalize_rounds_to n 0). unfold grid. lia. Qed.

Lemma aligned_value (s : bool) (m : positive) (e ez : Z) :
  - grid <= ez -> ez <= e ->
  cond_Zopp s (Z.pos (fst (shl_align m e ez))) * 2 ^ (ez + grid)
    = gval (S754_finite s m e).
Proof.
  intros Hz He. destruct (shl_align_spec m e ez) as [_ H1].
  rewrite H1. replace (Z.min e ez) with ez by lia. cbn [gval].
  replace (e + grid) with ((e - ez) + (ez + grid)) by lia.
  rewrite (Z.pow_add_r 2 (e - ez) (ez + grid)) by lia.
  destruct s; cbn [cond_Zopp]; ring.
Qed.

Lemma add_rounds_to (x y : float64) :
  valid64 x -> valid64 y -> finite64 x = true -> finite64 y = true ->
  rounds_to (F64.add x y) (gval x + gval y).
Proof.
  intros Vx Vy Fx Fy.
  destruct x as [sx| | |sx mx ex]; try discriminate;
    destruct y as [sy| | |sy my ey]; try discriminate.
  - destruct sx, sy; apply rounds_to_zero.
  - cbn [gval]. rewrite Z.add_0_l. apply (self_rounds (S754_finite sy my ey)); auto.
  - cbn [gval]. rewrite Z.add_0_r. apply (self_rounds (S754_finite sx mx ex)); auto.
  - pose proof (valid64_range _ _ _ Vx) as (Hx & _).
    pose proof (valid64_range _ _ _ Vy) as (Hy & _).
    unfold F64.add, SFadd.
    set (ez := Z.min ex ey).
    rewrite <- (aligned_value sx mx ex ez), <- (aligned_value sy my ey ez)
      by (unfold grid, ez; lia).
    rewrite <- Z.mul_add_distr_r.
    apply normalize_rounds_to. unfold grid, ez. lia.
Qed.

Lemma sub_rounds_to (x y : float64) :
  valid64 x -> valid64 y -> finite64 x = true -> finite64 y = true ->
  rounds_to (F64.sub x y) (gval x - gval y).
Proof.
  intros Vx Vy Fx Fy.
  destruct x as [sx| | |sx mx ex]; try discriminate;
    destruct y as [sy| | |sy my ey]; try discriminate.
  - destruct sx, sy; apply rounds_to_zero.
  - cbn [F64.sub SFsub].
    replace (gval (S754_zero sx) - gval (S754_finite sy my ey))
      with (gval (S754_finite (negb sy) my ey))
      by (cbn [gval]; destruct sy; cbn [negb cond_Zopp]; lia).
    apply self_rounds; [|reflexivity].
    unfold valid64 in *. exact Vy.
  - cbn [gval]. rewrite Z.sub_0_r. apply (self_rounds (S754_finite sx mx ex)); auto.
  - pose proof (valid64_range _ _ _ Vx) as (Hx & _).
    pose proof (valid64_range _ _ _ Vy) as (Hy & _).
    unfold F64.sub, SFsub.
    set (ez := Z.min ex ey).
    rewrite <- (aligned_value sx mx ex ez), <- (aligned_value sy my ey ez)
      by (unfold grid, ez; lia).
    rewrite <- Z.mul_sub_distr_r.
    apply normalize_rounds_to. unfold grid, ez. lia.
Qed.

Lemma mul_rounds_to (x y : float64) :
  valid64 x -> valid64 y -> finite64 x = true -> finite64 y = true ->
  exists p : Z, p * 2 ^ grid = gval x * gval y /\ rounds_to (F64.mul x y) p.
Proof.
  intros Vx Vy Fx Fy.
  destruct x as [sx| | |sx mx ex]; try discriminate;
    destruct y as [sy| | |sy my ey]; try discriminate;
    try (exists 0; split; [cbn [gval]; lia | apply rounds_to_zero]).
  pose proof (valid64_range _ _ _ Vx) as (Hx & Dx & Nx).
  pose proof (valid64_range _ _ _ Vy) as (Hy & Dy & Ny).
  exists (cond_Zopp (xorb sx sy) (Z.pos (mx * my) * 2 ^ (ex + ey + grid))).
  split.
  - cbn [gval]. rewrite Pos2Z.inj_mul.
    assert (E : 2 ^ (ex + ey + grid) * 2 ^ grid = 2 ^ (ex + grid) * 2 ^ (ey + grid)).
    { rewrite <- !Z.pow_add_r by (unfold grid; lia). f_equal. lia. }
    assert (Hm : Z.pos mx * Z.pos my * 2 ^ (ex + ey + grid) * 2 ^ grid
                 = (Z.pos mx * 2 ^ (ex + grid)) * (Z.pos my * 2 ^ (ey + grid))).
    { rewrite <- Z.mul_assoc, E. ring. }
    destruct sx, sy; cbn [xorb cond_Zopp];
      rewrite ?Z.mul_opp_l, ?Z.mul_opp_r, ?Z.opp_involutive, Hm; reflexivity.
  - unfold F64.mul, SFmul. apply aux_rounds_to.
    + unfold grid. lia.
    + rewrite fexp64_eq, !digits2_pos_log2 in *. rewrite Pos2Z.inj_mul.
      pose proof (Z.log2_mul_below (Z.pos mx) (Z.pos my) ltac:(lia) ltac:(lia)).
      pose proof (Z.log2_nonneg (Z.pos mx)). pose proof (Z.log2_nonneg (Z.pos my)).
      lia.
Qed.

(** *** Comparison and truncation *)

Lemma canonical_lt (m1 m2 : positive) (e1 e2 : Z) :
  valid64 (S754_finite false m1 e1) -> valid64 (S754_finite false m2 e2) ->
  e1 < e2 ->
  Z.pos m1 * 2 ^ (e1 + grid) < Z.pos m2 * 2 ^ (e2 + grid).
Proof.
  intros V1 V2 H.
  pose proof (valid64_range _ _ _ V1) as (H1 & D1 & _).
  pose proof (valid64_range _ _ _ V2) as (H2 & D2 & N2).
  specialize (N2 ltac:(lia)).
  pose proof (digits_bounds m1) as [_ U1]. pose proof (digits_bounds m2) as [L2 _].
  rewrite N2 in L2. change (2 ^ (53 - 1)) with (2 ^ 52) in L2.
  assert (Z.pos m1 < 2 ^ 53).
  { eapply Z.lt_le_trans; [exact U1|]. apply pow2_le; lia. }
  assert (P1 : 0 < 2 ^ (e1 + grid)) by (apply pow2_pos; unfold grid; lia).
  assert (E : 2 ^ (e2 + grid) = 2 ^ (e2 - e1 - 1) * (2 * 2 ^ (e1 + grid))).
  { rewrite <- pow2_S, <- Z.pow_add_r by (unfold grid; lia). f_equal. lia. }
  assert (P2 : 0 < 2 ^ (e2 - e1 - 1)) by (apply pow2_pos; lia).
  rewrite E. nia.
Qed.

Lemma compare_gval (x y : float64) :
  valid64 x -> valid64 y -> finite64 x = true -> finite64 y = true ->
  SFcompare x y = Some (gval x ?= gval y).
Proof.
  intros Vx Vy Fx Fy.
  assert (Hpos : forall s m e, valid64 (S754_finite s m e) ->
            0 < Z.pos m * 2 ^ (e + grid)).
  { intros s m e V. pose proof (valid64_range _ _ _ V) as (H & _).
    pose proof (pow2_pos (e + grid) ltac:(unfold grid; lia)). nia. }
  destruct x as [sx| | |sx mx ex]; try discriminate;
    destruct y as [sy| | |sy my ey]; try discriminate; cbn [SFcompare gval].
  - reflexivity.
  - pose proof (Hpos _ _ _ Vy). f_equal. symmetry.
    destruct sy; cbn [cond_Zopp]; [apply Z.compare_gt_iff | apply Z.compare_lt_iff]; lia.
  - pose proof (Hpos _ _ _ Vx). f_equal. symmetry.
    destruct sx; cbn [cond_Zopp]; [apply Z.compare_lt_iff | apply Z.compare_gt_iff]; lia.
  - pose proof (Hpos _ _ _ Vx). pose proof (Hpos _ _ _ Vy). f_equal.
    assert (Vx' : valid64 (S754_finite false mx ex)) by exact Vx.
    assert (Vy' : valid64 (S754_finite false my ey)) by exact Vy.
    assert (Hsame : forall m1 m2 e, 0 <= e + grid ->
              (Z.pos m1 * 2 ^ (e + grid) ?= Z.pos m2 * 2 ^ (e + grid))
                = Pos.compare_cont Eq m1 m2).
    { intros m1 m2 e He. change (Pos.compare_cont Eq m1 m2) with (Z.pos m1 ?= Z.pos m2).
      symmetry. apply Zmult_compare_compat_r. pose proof (pow2_pos _ He). lia. }
    pose proof (valid64_range _ _ _ Vx) as (Hx & _).
    destruct sx, sy; cbn [cond_Zopp].
    + destruct (Z.compare_spec ex ey) as [E|E|E].
      * subst ey. rewrite <- (Hsame mx my ex) by (unfold grid; lia).
        rewrite Z.compare_opp. symmetry. apply Z.compare_antisym.
      * pose proof (canonical_lt _ _ _ _ Vx' Vy' E). symmetry.
        apply Z.compare_gt_iff. lia.
      * pose proof (canonical_lt _ _ _ _ Vy' Vx' E). symmetry.
        apply Z.compare_lt_iff. lia.
    + symmetry. apply Z.compare_lt_iff. lia.
    + symmetry. apply Z.compare_gt_iff. lia.
    + destruct (Z.compare_spec ex ey) as [E|E|E].
      * subst ey. rewrite <- (Hsame mx my ex) by (unfold grid; lia). reflexivity.
      * pose proof (canonical_lt _ _ _ _ Vx' Vy' E). symmetry.
        apply Z.compare_lt_iff. lia.
      * pose proof (canonical_lt _ _ _ _ Vy' Vx' E). symmetry.
        apply Z.compare_gt_iff. lia.
Qed.

Lemma trunc_gval (x : float64) :
  valid64 x -> finite64 x = true -> F64.trunc x = Some (Z.quot (gval x) (2 ^ grid)).
Proof.
  intros V F. destruct x as [s| | |s m e]; try discriminate.
  - reflexivity.
  - pose proof (valid64_range _ _ _ V) as (He & _).
    cbn [F64.trunc gval]. f_equal.
    assert (Pg : 0 < 2 ^ grid) by (apply pow2_pos; unfold grid; lia).
    assert (Pe : 0 < 2 ^ (e + grid)) by (apply pow2_pos; unfold grid; lia).
    assert (Hmag : (if 0 <=? e then Z.pos m * 2 ^ e else Z.pos m / 2 ^ (- e))
                   = (Z.pos m * 2 ^ (e + grid)) / 2 ^ grid).
    { destruct (Z.leb_spec 0 e) as [H|H].
      - rewrite Z.pow_add_r by (unfold grid; lia).
        rewrite Z.mul_assoc, Z.div_mul by lia. reflexivity.
      - replace (2 ^ grid) with (2 ^ (- e) * 2 ^ (e + grid))
          by (rewrite <- Z.pow_add_r by (unfold grid; lia); f_equal; lia).
        assert (0 < 2 ^ (- e)) by (apply pow2_pos; lia).
        rewrite Z.div_mul_cancel_r by lia. reflexivity. }
    rewrite Hmag.
    destruct s; cbn [cond_Zopp].
    + rewrite Z.quot_opp_l by lia. rewrite Z.quot_div_nonneg by lia. reflexivity.
    + rewrite Z.quot_div_nonneg by lia. reflexivity.
Qed.

(** *** Bounds that survive the rounding *)

Lemma within (r lo hi : float64) (z zl zh : Z) :
  rounds_to r z -> rounds_to lo zl -> rounds_to hi zh ->
  finite64 lo = true -> finite64 hi = true -> zl <= z <= zh ->
  valid64 r /\ finite64 r = true /\ gval lo <= gval r <= gval hi.
Proof.
  intros (Vr & Fr & Gr & _) (_ & Fl & Gl & _) (_ & Fh & Gh & _) Hl Hh [Hz1 Hz2].
  pose proof (round_signed_mono _ _ Hz1) as M1. pose proof (round_signed_mono _ _ Hz2) as M2.
  pose proof (proj1 Fl Hl) as Bl. pose proof (proj1 Fh Hh) as Bh.
  rewrite (Gl Hl), (Gh Hh).
  assert (F : finite64 r = true) by (apply Fr; lia).
  rewrite (Gr F). auto.
Qed.

Lemma opp_rounds (x : float64) :
  valid64 x -> finite64 x = true ->
  rounds_to (SFopp x) (- gval x) /\ finite64 (SFopp x) = true /\ gval (SFopp x) = - gval x.
Proof.
  intros V F.
  assert (G : gval (SFopp x) = - gval x).
  { destruct x as [s| | |s m e]; try discriminate; cbn [SFopp gval]; [lia|].
    destruct s; cbn [negb cond_Zopp]; lia. }
  assert (F' : finite64 (SFopp x) = true) by (destruct x; try discriminate; reflexivity).
  assert (V' : valid64 (SFopp x)) by (destruct x; try discriminate; exact V).
  rewrite <- G. split; [apply self_rounds; assumption | auto].
Qed.

Lemma mul_valid64 (x y : float64) : valid64 x -> valid64 y -> valid64 (F64.mul x y).
Proof.
  intros Vx Vy.
  destruct (finite64 x) eqn:Fx; [destruct (finite64 y) eqn:Fy|].
  - destruct (mul_rounds_to x y Vx Vy Fx Fy) as (p & _ & V & _). exact V.
  - destruct x as [sx| | |sx mx ex]; try discriminate;
      destruct y as [sy| | |sy my ey]; try discriminate; reflexivity.
  - destruct x as [sx| | |sx mx ex]; try discriminate;
      destruct y as [sy| | |sy my ey]; reflexivity.
Qed.

Lemma mul_finite_inv (x y : float64) :
  finite64 (F64.mul x y) = true -> finite64 x = true /\ finite64 y = true.
Proof.
  destruct x as [sx| | |sx mx ex]; destruct y as [sy| | |sy my ey];
    cbn [F64.mul SFmul finite64]; intros H; try discriminate; auto.
Qed.

Lemma add_finite_inv (x y : float64) :
  finite64 (F64.add x y) = true -> finite64 x = true /\ finite64 y = true.
Proof.
  destruct x as [sx|sx| |sx mx ex]; destruct y as [sy|sy| |sy my ey];
    cbn [F64.add SFadd finite64]; intros H; try discriminate; auto;
    destruct sx, sy; discriminate.
Qed.

Lemma leb_gval (x y : float64) :
  valid64 x -> valid64 y -> finite64 x = true -> finite64 y = true ->
  SFleb x y = (gval x <=? gval y).
Proof.
  intros. unfold SFleb, Z.leb. rewrite compare_gval by assumption.
  destruct (gval x ?= gval y); reflexivity.
Qed.

Lemma ltb_gval (x y : float64) :
  valid64 x -> valid64 y -> finite64 x = true -> finite64 y = true ->
  SFltb x y = (gval x <? gval y).
Proof.
  intros. unfold SFltb, Z.ltb. rewrite compare_gval by assumption.
  destruct (gval x ?= gval y); reflexivity.
Qed.

Lemma nonneg_of_leb (x : float64) : SFleb (F64.of_int 0) x = true -> nonneg x.
Proof.
  change (F64.of_int 0) with (S754_zero false).
  destruct x as [s|s| |s m e]; cbn; try destruct s; intros H; try discriminate; auto.
Qed.

Lemma nonneg_gval (x : float64) : nonneg x -> 0 <= gval x.
Proof.
  destruct x as [s|s| |s m e]; cbn [nonneg gval]; intros H; try lia.
  subst s. cbn [cond_Zopp].
  pose proof (Z.pow_nonneg 2 (e + grid) ltac:(lia)). nia.
Qed.

Lemma finite_below (x y : float64) :
  nonneg x -> finite64 y = true -> SFltb y x = false -> finite64 x = true.
Proof.
  destruct x as [s|s| |s m e]; cbn [nonneg finite64]; intros H Fy L; try reflexivity;
    [|contradiction].
  subst s. destruct y; try discriminate; discriminate L.
Qed.

Lemma small_ints :
  (valid64 (F64.of_int 0) /\ finite64 (F64.of_int 0) = true /\ gval (F64.of_int 0) = 0) /\
  (valid64 (F64.of_int 1) /\ finite64 (F64.of_int 1) = true /\ gval (F64.of_int 1) = 2 ^ grid) /\
  (valid64 (F64.of_int 2) /\ finite64 (F64.of_int 2) = true
     /\ gval (F64.of_int 2) = 2 * 2 ^ grid).
Proof. repeat split; vm_compute; reflexivity. Qed.

(** The jittered delay lies between minus the bound and the bound. *)
Lemma jitter_within (D M J R : float64) :
  valid64 D -> finite64 D = true -> valid64 M -> valid64 J -> valid64 R -> finite64 R = true ->
  0 <= gval D <= gval M -> 0 <= gval J -> 0 <= gval R <= 2 ^ grid ->
  finite64 (F64.add M (F64.mul M J)) = true ->
  let B := F64.add M (F64.mul M J) in
  let jitter := F64.mul D J in
  let jitterAmount :=
    F64.mul (F64.sub (F64.mul R (F64.of_int 2)) (F64.of_int 1)) jitter in
  valid64 B /\
  (valid64 D /\ - gval B <= gval D <= gval B) /\
  (valid64 (F64.add D jitterAmount) /\ finite64 (F64.add D jitterAmount) = true /\
   - gval B <= gval (F64.add D jitterAmount) <= gval B).
Proof.
  intros VD FD VM VJ VR FR HD HJ HR FB B jitter jitterAmount.
  destruct small_ints as ((V0 & F0 & G0) & (V1 & F1 & G1) & (V2 & F2 & G2)).
  assert (Pg : 0 < 2 ^ grid) by (apply pow2_pos; unfold grid; lia).
  destruct (add_finite_inv _ _ FB) as [FM FMJ].
  destruct (mul_finite_inv _ _ FMJ) as [_ FJ].
  set (MJ := F64.mul M J) in *.
  (* the largest jitter *)
  destruct (mul_rounds_to M J VM VJ FM FJ) as (pm & Epm & Rmj). fold MJ in Rmj.
  assert (VMJ : valid64 MJ) by apply Rmj.
  assert (Hpm : 0 <= pm) by nia.
  assert (GMJ : 0 <= gval MJ).
  { destruct Rmj as (_ & _ & G & _). rewrite (G FMJ), round_signed_nonneg by exact Hpm.
    apply round_grid_nonneg. exact Hpm. }
  (* the bound *)
  pose proof (add_rounds_to M MJ VM VMJ FM FMJ) as Rb. fold B in Rb.
  assert (VB : valid64 B) by apply Rb.
  assert (GB : gval M <= gval B /\ gval MJ <= gval B).
  { destruct (within M M B (gval M) (gval M) (gval M + gval MJ)) as (_ & _ & _ & H1);
      auto using self_rounds; try lia.
    destruct (within MJ MJ B (gval MJ) (gval MJ) (gval M + gval MJ)) as (_ & _ & _ & H2);
      auto using self_rounds; try lia. }
  split; [exact VB|]. split; [split; [exact VD | lia]|].
  (* twice the draw, between 0 and 2 *)
  destruct (mul_rounds_to R (F64.of_int 2) VR V2 FR F2) as (p2 & Ep2 & R2).
  rewrite G2 in Ep2.
  destruct (within _ (F64.of_int 0) (F64.of_int 2) p2 0 (2 * 2 ^ grid) R2)
    as (VR2 & FR2 & GR2).
  { rewrite <- G0. apply self_rounds; assumption. }
  { rewrite <- G2. apply self_rounds; assumption. }
  { exact F0. } { exact F2. } { nia. }
  rewrite G0, G2 in GR2.
  (* twice the draw less one, between -1 and 1 *)
  pose proof (sub_rounds_to _ _ VR2 V1 FR2 F1) as RT. rewrite G1 in RT.
  destruct (opp_rounds _ V1 F1) as (Rm1 & Fm1 & Gm1). rewrite G1 in Rm1, Gm1.
  destruct (within _ (SFopp (F64.of_int 1)) (F64.of_int 1) _ _ (2 ^ grid) RT Rm1)
    as (VT & FT & GT).
  { rewrite <- G1. apply self_rounds; assumption. }
  { exact Fm1. } { exact F1. } { lia. }
  rewrite Gm1, G1 in GT.
  set (T := F64.sub (F64.mul R (F64.of_int 2)) (F64.of_int 1)) in *.
  (* the jitter of this delay, at most the largest *)
  destruct (mul_rounds_to D J VD VJ FD FJ) as (pd & Epd & Rdj). fold jitter in Rdj.
  destruct (within jitter (F64.of_int 0) MJ pd 0 pm Rdj) as (VDJ & FDJ & GDJ).
  { rewrite <- G0. apply self_rounds; assumption. }
  { exact Rmj. } { exact F0. } { exact FMJ. } { nia. }
  rewrite G0 in GDJ.
  (* the offset, at most the jitter either way *)
  destruct (mul_rounds_to T jitter VT VDJ FT FDJ) as (pa & Epa & Rja).
  fold jitterAmount in Rja.
  destruct (opp_rounds _ VDJ FDJ) as (Rmdj & Fmdj & Gmdj).
  destruct (within jitterAmount (SFopp jitter) jitter pa _ (gval jitter) Rja Rmdj)
    as (VJA & FJA & GJA).
  { apply self_rounds; assumption. }
  { exact Fmdj. } { exact FDJ. } { nia. }
  rewrite Gmdj in GJA.
  (* the sum *)
  pose proof (add_rounds_to D jitterAmount VD VJA FD FJA) as Rres.
  destruct (opp_rounds _ VMJ FMJ) as (Rmmj & Fmmj & Gmmj).
  destruct (within _ (SFopp MJ) B _ _ (gval M + gval MJ) Rres Rmmj Rb)
    as (VRES & FRES & GRES).
  { exact Fmmj. } { exact FB. } { lia. }
  rewrite Gmmj in GRES.
  split; [exact VRES|]. split; [exact FRES|]. lia.
Qed.


(** *** The delay before the jitter *)

Lemma of_int_finite (n : Z) : 0 <= n <= max_int64 -> finite64 (F64.of_int n) = true.
Proof.
  intros H. destruct (of_int_rounds_to n) as (_ & F & _).
  apply F.
  assert (Pg : 0 < 2 ^ grid) by (apply pow2_pos; unfold grid; lia).
  assert (L : 0 <= n * 2 ^ grid <= 2 ^ 63 * 2 ^ grid) by (unfold max_int64 in H; nia).
  pose proof (round_signed_mono _ _ (proj1 L)) as M1. pose proof (round_signed_mono _ _ (proj2 L)) as M2.
  change (round_signed 0) with 0 in M1.
  assert (E : round_signed (2 ^ 63 * 2 ^ grid) < overflow) by (vm_compute; reflexivity).
  lia.
Qed.

Lemma zero_gval (x : float64) :
  valid64 x -> finite64 x = true -> gval x = 0 -> exists s : bool, x = S754_zero s.
Proof.
  intros V F G. destruct x as [s|s| |s m e]; try discriminate.
  - exists s. reflexivity.
  - exfalso. pose proof (valid64_range _ _ _ V) as (He & _).
    pose proof (pow2_pos (e + grid) ltac:(unfold grid; lia)).
    cbn [gval] in G. destruct s; cbn [cond_Zopp] in G; nia.
Qed.

Lemma scale_nonneg (mult : float64) (k : nat) (a : float64) :
  valid64 mult -> finite64 mult = true -> nonneg mult ->
  valid64 a -> nonneg a -> (gval mult = 0 -> finite64 a = true) ->
  valid64 (scale k mult a) /\ nonneg (scale k mult a).
Proof.
  intros Vm Fm Nm. revert a.
  induction k as [|k IH]; intros a Va Na Ha; cbn [scale]; [auto|].
  pose proof (nonneg_gval _ Nm) as Gm.
  apply IH.
  - apply mul_valid64; assumption.
  - destruct (finite64 a) eqn:Fa.
    + destruct (mul_rounds_to a mult Va Vm Fa Fm) as (p & Ep & _ & _ & _ & Hn).
      apply Hn. pose proof (nonneg_gval _ Na).
      assert (0 < 2 ^ grid) by (apply pow2_pos; unfold grid; lia). nia.
    + destruct a as [s|s| |s m e]; try discriminate; [|contradiction].
      cbn [nonneg] in Na. subst s.
      destruct mult as [sm|sm| |sm mm em]; try discriminate.
      * discriminate (Ha eq_refl).
      * cbn [nonneg] in Nm. subst sm. reflexivity.
  - intros G0. destruct (zero_gval _ Vm Fm G0) as [s ->].
    specialize (Ha G0).
    destruct a as [sa|sa| |sa ma ea]; try discriminate; reflexivity.
Qed.

Lemma capped_nonneg (c : Config) (n : Z) :
  valid64 (RetryMultiplier c) -> finite64 (RetryMultiplier c) = true ->
  SFleb (F64.of_int 0) (RetryMultiplier c) = true ->
  0 <= RetryDelay c <= max_int64 -> 0 <= MaxRetryDelay c ->
  valid64 (capped c n) /\ nonneg (capped c n).
Proof.
  intros Vm Fm Nm Hd Hmax.
  destruct (of_int_rounds_to (RetryDelay c)) as (V0 & _ & _ & N0).
  destruct (of_int_rounds_to (MaxRetryDelay c)) as (VM & _ & _ & NM).
  assert (Pg : 0 < 2 ^ grid) by (apply pow2_pos; unfold grid; lia).
  destruct (scale_nonneg (RetryMultiplier c) (Z.to_nat n) (F64.of_int (RetryDelay c)))
    as [Vs Ns]; auto using nonneg_of_leb.
  { apply N0. nia. }
  { intros _. apply of_int_finite. exact Hd. }
  unfold capped. destruct (F64.gt _ _).
  - split; [exact VM | apply NM; nia].
  - split; assumption.
Qed.

(** The delay is at most the larger of the initial delay and the maximum
    delay with the whole jitter added, both computed as the code computes. *)
Lemma backoff_upper_bound (ovf : float64 -> Z) (c : Config) (rnd : float64) (n b : Z) :
  0 < n ->
  0 <= RetryDelay c <= max_int64 -> 0 <= MaxRetryDelay c ->
  valid64 (RetryMultiplier c) -> finite64 (RetryMultiplier c) = true ->
  SFleb (F64.of_int 0) (RetryMultiplier c) = true ->
  valid64 (JitterPercent c) -> SFleb (F64.of_int 0) (JitterPercent c) = true ->
  valid64 rnd -> SFleb (F64.of_int 0) rnd = true -> SFltb rnd (F64.of_int 1) = true ->
  F64.trunc (max_jittered c) = Some b -> b <= max_int64 ->
  CalculateBackoffDelay ovf c rnd n
    <= Z.max (RetryDelay c) (F64.to_int64 ovf (max_jittered c)).
Proof.
  intros Hn Hd Hmax Vm Fm Nm VJ NJ VR NR LR Hb Hb64.
  destruct small_ints as ((V0 & F0 & G0) & (V1 & F1 & G1) & _).
  set (M := F64.of_int (MaxRetryDelay c)).
  set (J := JitterPercent c) in *.
  set (D := capped c n).
  assert (FB : finite64 (max_jittered c) = true).
  { destruct (max_jittered c); try discriminate; reflexivity. }
  unfold max_jittered in FB. cbv zeta in FB. fold M J in FB.
  destruct (add_finite_inv _ _ FB) as [FM FMJ].
  destruct (mul_finite_inv _ _ FMJ) as [_ FJ].
  assert (VM : valid64 M) by apply of_int_rounds_to.
  destruct (capped_nonneg c n Vm Fm Nm Hd Hmax) as [VD ND]. fold D in VD, ND.
  pose proof (capped_at_most_max c n) as HDM. fold D M in HDM. unfold F64.gt in HDM.
  assert (FD : finite64 D = true) by (apply (finite_below D M); assumption).
  rewrite ltb_gval in HDM by assumption. apply Z.ltb_ge in HDM.
  pose proof (nonneg_gval _ ND) as GD.
  pose proof (nonneg_gval _ (nonneg_of_leb _ NJ)) as GJ. fold J in GJ.
  assert (FR : finite64 rnd = true).
  { pose proof (nonneg_of_leb _ NR) as NNR.
    destruct rnd as [s|s| |s m e]; try reflexivity; [|contradiction].
    cbn [nonneg] in NNR. subst s.
    change (F64.of_int 1) with (S754_finite false 4503599627370496 (-52)) in LR.
    discriminate LR. }
  pose proof (nonneg_gval _ (nonneg_of_leb _ NR)) as GR.
  rewrite ltb_gval in LR by assumption. apply Z.ltb_lt in LR. rewrite G1 in LR.
  destruct (jitter_within D M J rnd VD FD VM VJ VR FR ltac:(lia) GJ ltac:(lia) FB)
    as (VB & (_ & GD') & (VRES & FRES & GRES)).
  (* the integer parts *)
  assert (Pg : 0 < 2 ^ grid) by (apply pow2_pos; unfold grid; lia).
  assert (Tb : b = Z.quot (gval (max_jittered c)) (2 ^ grid)).
  { unfold max_jittered in *. cbv zeta in *. fold M J in Hb |- *.
    rewrite trunc_gval in Hb by assumption. congruence. }
  assert (GB0 : 0 <= gval (max_jittered c)).
  { unfold max_jittered. cbv zeta. fold M J. lia. }
  assert (Hb0 : 0 <= b).
  { rewrite Tb. apply Z.quot_pos; lia. }
  assert (Hto : F64.to_int64 ovf (max_jittered c) = b).
  { unfold F64.to_int64. rewrite Hb.
    destruct (Z.leb_spec min_int64 b), (Z.leb_spec b max_int64);
      cbn [andb]; unfold min_int64 in *; try lia. }
  assert (Hres : forall r : float64,
            valid64 r -> finite64 r = true ->
            - gval (max_jittered c) <= gval r <= gval (max_jittered c) ->
            F64.to_int64 ovf r <= b).
  { intros r Vr Fr [Gl Gu].
    unfold F64.to_int64. rewrite (trunc_gval r Vr Fr).
    pose proof (Z.quot_le_mono _ _ (2 ^ grid) Pg Gu) as Q1.
    pose proof (Z.quot_le_mono _ _ (2 ^ grid) Pg Gl) as Q2.
    rewrite Z.quot_opp_l in Q2 by lia. rewrite <- Tb in Q1, Q2.
    destruct (Z.leb_spec min_int64 (Z.quot (gval r) (2 ^ grid))),
             (Z.leb_spec (Z.quot (gval r) (2 ^ grid)) max_int64);
      cbn [andb]; unfold min_int64, max_int64 in *; try lia. }
  rewrite Hto.
  assert (Hj : F64.to_int64 ovf (jittered c rnd D) <= b).
  { unfold jittered. fold J. destruct (F64.gt J (F64.of_int 0)).
    - cbv zeta. apply Hres; [exact VRES | exact FRES|].
      unfold max_jittered. cbv zeta. fold M J. exact GRES.
    - apply Hres; [exact VD | exact FD|].
      unfold max_jittered. cbv zeta. fold M J. exact GD'. }
  unfold CalculateBackoffDelay. fold D.
  destruct (n <=? 0); [lia|]. cbv zeta.
  destruct (F64.to_int64 ovf (jittered c rnd D) <? RetryDelay c); lia.
Qed.

(** ** The bounds of the backoff delay *)

(** C4, as the code has it.  For every attempt number [n <= 0] the delay
    is exactly the configured initial delay, whatever the jitter draw.  For
    every [n > 0] and every draw the delay is at least the initial delay;
    the value before jitter, [initialDelay * multiplier^n] cut at the
    maximum delay, never compares above the maximum delay; and the delay
    returned is the jittered value with its fraction dropped, or the
    initial delay when that is larger.  Above, the delay is bounded by the
    larger of the initial delay and [int64(maxDelay + maxDelay * jitter)],
    the maximum delay with the whole jitter added as [float64] computes
    it: for every [n > 0], when the delays of the configuration are not
    negative, the multiplier is a finite number that is not negative, the
    jitter fraction is not negative, the draw is at least 0 and below 1,
    and that bound is a number that fits [int64]. *)
Theorem backoff_delay_bounds
    (ovf : float64 -> Z) (c : Config) (rnd : float64) (n : Z) :
  (n <= 0 -> CalculateBackoffDelay ovf c rnd n = RetryDelay c) /\
  (0 < n -> RetryDelay c <= CalculateBackoffDelay ovf c rnd n) /\
  (0 < n -> F64.gt (capped c n) (F64.of_int (MaxRetryDelay c)) = false) /\
  (0 < n ->
     CalculateBackoffDelay ovf c rnd n
       = Z.max (RetryDelay c) (F64.to_int64 ovf (jittered c rnd (capped c n)))) /\
  (0 < n ->
   0 <= RetryDelay c <= max_int64 -> 0 <= MaxRetryDelay c ->
   valid64 (RetryMultiplier c) -> finite64 (RetryMultiplier c) = true ->
   SFleb (F64.of_int 0) (RetryMultiplier c) = true ->
   valid64 (JitterPercent c) -> SFleb (F64.of_int 0) (JitterPercent c) = true ->
   valid64 rnd -> SFleb (F64.of_int 0) rnd = true -> SFltb rnd (F64.of_int 1) = true ->
   forall b : Z,
     F64.trunc (max_jittered c) = Some b -> b <= max_int64 ->
     CalculateBackoffDelay ovf c rnd n
       <= Z.max (RetryDelay c) (F64.to_int64 ovf (max_jittered c))).
Proof.
  repeat apply conj.
  - intros Hn. unfold CalculateBackoffDelay. apply Z.leb_le in Hn. rewrite Hn. reflexivity.
  - intros Hn. unfold CalculateBackoffDelay. apply Z.leb_gt in Hn. rewrite Hn.
    destruct (Z.ltb_spec (F64.to_int64 ovf (jittered c rnd (capped c n))) (RetryDelay c)); lia.
  - intros _. apply capped_at_most_max.
  - intros Hn. unfold CalculateBackoffDelay. apply Z.leb_gt in Hn. rewrite Hn.
    destruct (Z.ltb_spec (F64.to_int64 ovf (jittered c rnd (capped c n))) (RetryDelay c)); lia.
  - intros Hn Hd Hmax Vm Fm Nm VJ NJ VR NR LR b Hb Hb64.
    apply (backoff_upper_bound ovf c rnd n b); assumption.
Qed.

Lemma backoff_delay_bounds_witness :
  CalculateBackoffDelay (fun _ => min_int64) DefaultConfig one_half 0 = 100 * Millisecond /\
  100 * Millisecond <= CalculateBackoffDelay (fun _ => min_int64) DefaultConfig one_half 3 /\
  CalculateBackoffDelay (fun _ => min_int64) DefaultConfig one_half 3
    <= Z.max (100 * Millisecond)
             (F64.to_int64 (fun _ => min_int64) (max_jittered DefaultConfig)).
Proof.
  pose proof (backoff_delay_bounds (fun _ => min_int64) DefaultConfig one_half 0)
    as (H0 & _).
  pose proof (backoff_delay_bounds (fun _ => min_int64) DefaultConfig one_half 3)
    as (_ & H3 & _ & _ & H5).
  split; [|split].
  - apply H0. lia.
  - apply H3. lia.
  - apply (H5 ltac:(lia)) with (b := 5500000000).
    + split; vm_compute; discriminate.
    + vm_compute; discriminate.
    + vm_compute; reflexivity.
    + vm_compute; reflexivity.
    + vm_compute; reflexivity.
    + vm_compute; reflexivity.
    + vm_compute; reflexivity.
    + vm_compute; reflexivity.
    + vm_compute; reflexivity.
    + vm_compute; reflexivity.
    + vm_compute; reflexivity.
    + vm_compute; discriminate.
Defined.

(** The bound is reached.  At the maximum delay and the largest draw the
    default configuration waits 5.5s, which is
    [int64(maxDelay + maxDelay * jitter)]; and the configuration whose
    delay passes the bound computed exactly, at 13ns, is at this one. *)
Example default_backoff_bound :
  F64.to_int64 (fun _ => min_int64) (max_jittered DefaultConfig) = 5500 * Millisecond /\
  CalculateBackoffDelay (fun _ => min_int64) DefaultConfig largest_draw 10
    = 5500 * Millisecond /\
  F64.to_int64 (fun _ => min_int64) (max_jittered tight) = 13 /\
  CalculateBackoffDelay (fun _ => min_int64) tight largest_draw 1 = 13.
Proof. vm_compute. repeat split. Qed.

(** With the default configuration the delays are the expected ones:
    200ms, 400ms and 800ms at the draw one half (no offset), and the
    maximum, 5s, from the sixth retry on. *)
Example default_backoff_delays :
  map (CalculateBackoffDelay (fun _ => min_int64) DefaultConfig one_half) [1; 2; 3; 6; 10]
    = [200 * Millisecond; 400 * Millisecond; 800 * Millisecond; 5 * Second; 5 * Second].
Proof. vm_compute. reflexivity. Qed.

(** C4 as the specification words it does not hold: the upper bound
    [maxDelay * (1 + jitterFraction)] is exceeded when the initial delay
    is above it, since the result is never below the initial delay. *)
Lemma backoff_delay_above_upper_bound :
  ~ (forall (ovf : float64 -> Z) (c : Config) (rnd : float64) (n : Z),
       0 < n ->
       SFleb (F64.of_int 0) rnd = true -> SFltb rnd (F64.of_int 1) = true ->
       (inject_Z (CalculateBackoffDelay ovf c rnd n)
          <= inject_Z (MaxRetryDelay c) * (1 + F64.to_Q (JitterPercent c)))%Q).
Proof.
  intros H.
  specialize (H (fun _ => min_int64) slow_start one_half 1).
  assert (Hd : CalculateBackoffDelay (fun _ => min_int64) slow_start one_half 1
               = 10 * Second) by (vm_compute; reflexivity).
  rewrite Hd in H.
  assert (Hb : (inject_Z (MaxRetryDelay slow_start)
                  * (1 + F64.to_Q (JitterPercent slow_start)) < inject_Z (10 * Second))%Q)
    by (vm_compute; reflexivity).
  apply (Qlt_not_le _ _ Hb). apply H.
  - lia.
  - vm_compute. reflexivity.
  - vm_compute. reflexivity.
Qed.

(** With the initial delay at the maximum delay, rounding alone takes the
    result past the bound computed exactly: 13ns, where ten times one plus
    the jitter fraction is a little less than 13. *)
Example backoff_rounding_passes_the_exact_bound :
  CalculateBackoffDelay (fun _ => min_int64) tight largest_draw 1 = 13 /\
  (inject_Z (MaxRetryDelay tight) * (1 + F64.to_Q (JitterPercent tight)) < inject_Z 13)%Q.
Proof. split; vm_compute; reflexivity. Qed.

(** ** Retries on the worker goroutine *)

(** C2, where the code departs from it.  On a client made with the
    default configuration (async mode), an entry is queued and the worker
    picks it up.  The breaker permits the send, the dial succeeds and the
    write of attempt 0 fails; [sendWithRetry] then calls [c.Close()] on the
    worker goroutine, which closes [stopChan] and waits for the worker to
    return.  The call never returns: no further attempt is made, nothing is
    reported to the breaker, no error comes back, and [mu] stays held, so
    the next [SendLogEntry] of any caller never returns either.  It is the
    same with [MaxRetries = 0], where attempt 0 is the only attempt and
    has failed. *)
Theorem worker_retry_blocks_after_failed_write :
  (exists (c : Client) (w1 w2 : World),
     NewClient None = Returns c /\
     SendLogEntry broken_pipe sample_entry (start c) = (Returns None, w1) /\
     asyncWorker broken_pipe w1 = (Blocks, w2) /\
     trace w2 = [EvDial "unix" "/tmp/logflux-agent.sock";
                 EvMarshal (LogEntryData sample_entry);
                 EvSetWriteDeadline;
                 EvWrite (LogEntryData sample_entry)] /\
     breaker (cl w2) = newCircuitBreaker /\
     stopChan (cl w2) = Some true /\
     muHeld (cl w2) = true /\
     fst (SendLogEntry broken_pipe sample_entry w2) = Blocks) /\
  (exists (c : Client) (w' : World),
     NewClient (Some single_attempt) = Returns c /\
     fst (canExecuteM broken_pipe (start c)) = Returns None /\
     sendWithRetry broken_pipe worker (LogEntryData sample_entry) (start c)
       = (Blocks, w') /\
     List.filter is_report (trace w') = [] /\
     breaker (cl w') = newCircuitBreaker).
Proof.
  split.
  - eexists. eexists. eexists.
    split; [reflexivity|].
    split; [vm_compute; reflexivity|].
    split; [vm_compute; reflexivity|].
    repeat apply conj; reflexivity.
  - eexists. eexists.
    split; [reflexivity|].
    split; [reflexivity|].
    split; [vm_compute; reflexivity|].
    split; reflexivity.
Qed.

(** ** Retries where [Close] returns: the sync client *)











Lemma wrap_int64_small (z : Z) : min_int64 <= z <= max_int64 -> wrap_int64 z = z.
Proof.
  unfold min_int64, max_int64, wrap_int64. intros H.
  rewrite Z.mod_small by lia. lia.
Qed.

Lemma in_step_start (env : Env) (c : Config) :
  MaxRetries c < max_int64 -> in_step c (iterations env c) 0.
Proof.
  intros Hmax. unfold in_step, iterations.
  apply Z.ltb_lt in Hmax as Hb. rewrite Hb. lia.
Qed.

Lemma in_step_next (c : Config) (n : nat) (a : Z) :
  in_step c (S n) a ->
  a <= MaxRetries c /\ wrap_int64 (a + 1) = a + 1 /\ in_step c n (a + 1).
Proof.
  unfold in_step. rewrite Nat2Z.inj_succ. intros (Hmax & Ha & Hn).
  assert (Hle : a <= MaxRetries c) by lia.
  split; [exact Hle|]. split.
  - apply wrap_int64_small. unfold min_int64, max_int64 in *. lia.
  - lia.
Qed.

Lemma in_step_end (c : Config) (a : Z) : in_step c O a -> MaxRetries c < a.
Proof. unfold in_step. cbn [Z.of_nat]. lia. Qed.







(** ** Closing twice *)

(** C8, where the code departs from it.  A client that connected keeps
    the handle of its connection after [Close]: the first [Close] returns
    no error, the second closes the same connection again and returns its
    error, [net.ErrClosed].  The same holds for a batcher wrapped around
    the connected client.  Neither call panics. *)
Theorem second_Close_of_connected_client_fails :
  exists (w1 w2 w3 : World) (b2 b3 : BatchClient),
    Connect healthy ctx_live (start sync_client) = (Returns None, w1) /\
    Close healthy caller w1 = (Returns None, w2) /\
    Close healthy caller w2 = (Returns (Some ErrNetClosed), w3) /\
    conn (cl w2) = Some {| closed := true |} /\
    BatchClient_Close healthy (batcher_over w1) = (Returns None, b2) /\
    BatchClient_Close healthy b2 = (Returns (Some ErrNetClosed), b3).
Proof.
  do 5 eexists.
  split; [vm_compute; reflexivity|].
  split; [vm_compute; reflexivity|].
  split; [vm_compute; reflexivity|].
  split; [reflexivity|].
  split; [vm_compute; reflexivity|].
  vm_compute; reflexivity.
Qed.

Example sync_retries_exhausted :
  fst (sendWithRetry broken_pipe caller (PingData NewPingRequest) (start sync_client))
    = Returns (Some (SendExhaustedError 3
                       (Some (WriteError (OSError "write: broken pipe"))))) /\
  List.filter is_report
    (trace (snd (sendWithRetry broken_pipe caller (PingData NewPingRequest)
                   (start sync_client))))
    = [EvCircuitFailure].
Proof. split; vm_compute; reflexivity. Qed.

(** ** Closing twice, in general *)

Lemma Close_without_worker (env : Env) (g : goroutine) (w : World) :
  muHeld (cl w) = false ->
  (if AsyncMode (config (cl w)) then stopChan (cl w) else None) = None ->
  (conn (cl w) = None -> Close env g w = (Returns None, w)) /\
  (conn (cl w) = Some {| closed := true |} ->
     Close env g w = (Returns (Some ErrNetClosed), w)) /\
  (conn (cl w) = Some {| closed := false |} ->
     Close env g w =
       (Returns (env_connClose env (tick w)),
        {| cl := set_conn (Some {| closed := true |}) (cl w);
           tick := S (tick w);
           trace := trace w ++ [EvConnClose] |})).
Proof.
  intros Hmu Hstop.
  destruct g; unfold Close, Close_, connClose; run; rewrite Hmu, Hstop; cbn;
    repeat apply conj; intros Hconn; rewrite Hconn; reflexivity.
Qed.




(** With an entry still queued the two calls need not return.  The worker
    may take the entry after [stopChan] was closed; its write fails, it
    calls [c.Close()] itself and waits for [mu], which the caller holds
    while it waits for the worker.  When the worker takes the stop signal
    instead, [Close] returns and the entry is dropped. *)
Example Close_with_a_queued_entry_can_block :
  exists (c : Client) (w1 w2 w3 : World),
    NewClient None = Returns c /\
    SendLogEntry stubborn_pipe sample_entry (start c) = (Returns None, w1) /\
    Close stubborn_pipe caller w1 = (Blocks, w2) /\
    muHeld (cl w2) = true /\
    Close broken_pipe caller w1 = (Returns None, w3) /\
    trace w3 = [].
Proof.
  do 4 eexists.
  split; [reflexivity|].
  split; [vm_compute; reflexivity|].
  split; [vm_compute; reflexivity|].
  split; [reflexivity|].
  split; [vm_compute; reflexivity|].
  reflexivity.
Qed.

(** ** Metadata *)

Lemma LogEntry_eq (e1 e2 : LogEntry) :
  Metadata e1 = Metadata e2 -> Version e1 = Version e2 ->
  Payload e1 = Payload e2 -> Source e1 = Source e2 ->
  Timestamp e1 = Timestamp e2 -> PayloadType e1 = PayloadType e2 ->
  EntryType e1 = EntryType e2 -> LogLevel e1 = LogLevel e2 -> e1 = e2.
Proof.
  destruct e1, e2. cbn. intros; subst. reflexivity.
Qed.

Lemma WithMetadata_keyed (e : LogEntry) (key value : string) :
  key <> "" -> WithMetadata e key value = WithAllMetadata e {[ key := value ]}.
Proof.
  intros Hkey. unfold WithMetadata, WithAllMetadata.
  destruct (String.eqb_spec key ""); [contradiction|].
  rewrite insert_union_singleton_l. reflexivity.
Qed.

Lemma WithAllMetadata_twice (e : LogEntry) (m1 m2 : gmap string string) :
  WithAllMetadata (WithAllMetadata e m1) m2 = WithAllMetadata e (m2 ∪ m1).
Proof.
  unfold WithAllMetadata. cbn. rewrite (assoc_L (∪)). reflexivity.
Qed.

Lemma WithAllMetadata_nothing (e : LogEntry) : WithAllMetadata e ∅ = e.
Proof.
  apply LogEntry_eq; try reflexivity. cbn. apply (left_id_L ∅ (∪)).
Qed.

Lemma WithFields_as_map (fields : list (string * string)) :
  forall e : LogEntry,
    WithFields e fields = WithAllMetadata e (list_to_map (rev (keyed fields))).
Proof.
  induction fields as [|[k v] fields IH]; intros e.
  - cbn. symmetry. apply WithAllMetadata_nothing.
  - cbn [WithFields fold_left fst snd]. change (fold_left _ fields ?x) with (WithFields x fields).
    rewrite IH. cbn [keyed List.filter fst].
    destruct (String.eqb_spec k "") as [-> | Hk]; cbn [negb].
    + reflexivity.
    + rewrite WithMetadata_keyed by assumption. rewrite WithAllMetadata_twice.
      cbn [rev]. rewrite list_to_map_app. cbn [list_to_map foldr].
      rewrite insert_empty. reflexivity.
Qed.


(** X3. [WithMetadata] with a key is [WithAllMetadata] of the map of
    that one pair: the key then maps to the value, every other key maps to
    what it did, and no other field changes.  With the empty key it returns
    the entry as it is. *)
Theorem WithMetadata_stores_one_pair (e : LogEntry) (key value : string) :
  (key <> "" ->
     WithMetadata e key value = WithAllMetadata e {[ key := value ]} /\
     Metadata (WithMetadata e key value) !! key = Some value /\
     (forall k : string,
        k <> key -> Metadata (WithMetadata e key value) !! k = Metadata e !! k) /\
     Version (WithMetadata e key value) = Version e /\
     Payload (WithMetadata e key value) = Payload e /\
     Source (WithMetadata e key value) = Source e /\
     Timestamp (WithMetadata e key value) = Timestamp e /\
     PayloadType (WithMetadata e key value) = PayloadType e /\
     EntryType (WithMetadata e key value) = EntryType e /\
     LogLevel (WithMetadata e key value) = LogLevel e) /\
  WithMetadata e "" value = e.
Proof.
  split; [|reflexivity].
  intros Hkey. split; [apply WithMetadata_keyed; exact Hkey|].
  unfold WithMetadata.
  destruct (String.eqb_spec key ""); [contradiction|]. cbn.
  split; [apply lookup_insert_eq|].
  split; [|repeat split].
  intros k Hk. apply lookup_insert_ne. congruence.
Qed.

Lemma WithMetadata_stores_one_pair_witness :
  Metadata (WithMetadata sample_entry "user" "42") !! "user" = Some "42" /\
  Metadata (WithMetadata sample_entry "user" "42") !! "host" = None.
Proof.
  destruct (WithMetadata_stores_one_pair sample_entry "user" "42") as [H _].
  destruct H as (_ & Hkey & Hother & _); [discriminate|].
  split; [exact Hkey|].
  rewrite Hother by discriminate. reflexivity.
Defined.

(** X4. [WithAllMetadata] stores every pair of the map it is given over
    the entry's own: a key of the given map maps to the given value, any
    other key to what it did.  This holds for the empty key too, which
    [WithMetadata] leaves out.  Two calls in a row are one call with the
    second map laid over the first. *)
Theorem WithAllMetadata_overrides (e : LogEntry) (metadata : gmap string string) :
  (forall more : gmap string string,
     WithAllMetadata (WithAllMetadata e metadata) more
       = WithAllMetadata e (more ∪ metadata)) /\
  (forall k : string,
     Metadata (WithAllMetadata e metadata) !! k =
       match metadata !! k with
       | Some v => Some v
       | None => Metadata e !! k
       end) /\
  (forall v : string,
     Metadata (WithAllMetadata e {[ "" := v ]}) !! "" = Some v /\
     Metadata (WithMetadata e "" v) !! "" = Metadata e !! "").
Proof.
  split; [intros more; apply WithAllMetadata_twice|].
  split.
  - intros k. cbn. destruct (metadata !! k) as [v|] eqn:E.
    + apply lookup_union_Some_l. exact E.
    + apply lookup_union_r. exact E.
  - intros v. split; [|reflexivity].
    cbn. apply lookup_union_Some_l. apply lookup_singleton_eq.
Qed.

(** X5. Storing fields one by one with [WithMetadata], as the logging
    adapters do, is [WithAllMetadata] of the map of the fields that have a
    key, a later field winning over an earlier one with the same key.  So
    when the keys are distinct the order of the fields does not matter. *)
Theorem WithFields_is_one_update (e : LogEntry) (fields : list (string * string)) :
  WithFields e fields = WithAllMetadata e (list_to_map (rev (keyed fields))) /\
  (forall fields' : list (string * string),
     NoDup (map fst (keyed fields)) -> Permutation fields fields' ->
     WithFields e fields' = WithFields e fields).
Proof.
  split; [apply WithFields_as_map|].
  intros fields' Hnodup Hperm. rewrite !WithFields_as_map. f_equal.
  assert (Hk : Permutation (keyed fields) (keyed fields')).
  { clear Hnodup. unfold keyed.
    induction Hperm as [|x l l' _ IH|x y l|l l' l'' _ IH1 _ IH2]; cbn [List.filter].
    - constructor.
    - destruct (negb _); [apply perm_skip|]; exact IH.
    - destruct (negb (fst y =? ""))%string, (negb (fst x =? ""))%string;
        try reflexivity. apply perm_swap.
    - etransitivity; eassumption. }
  assert (Hfmap : forall l : list (string * string), l.*1 = map fst l).
  { induction l as [|x l IH]; [reflexivity|]. cbn. rewrite IH. reflexivity. }
  apply list_to_map_proper.
  - rewrite Hfmap, map_rev. apply NoDup_ListNoDup, NoDup_rev.
    apply NoDup_ListNoDup in Hnodup.
    eapply Permutation_NoDup; [|eassumption].
    apply Permutation_map. exact Hk.
  - rewrite <- !Permutation_rev. symmetry. exact Hk.
Qed.

Lemma WithFields_is_one_update_witness :
  WithFields sample_entry [("host", "a"); ("user", "42")]
    = WithFields sample_entry [("user", "42"); ("host", "a")].
Proof.
  destruct (WithFields_is_one_update sample_entry [("user", "42"); ("host", "a")])
    as [_ H].
  apply H.
  - apply NoDup_ListNoDup. cbn.
    constructor; [intros [H0|[]]; discriminate H0|].
    constructor; [intros []|constructor].
  - apply perm_swap.
Defined.

(** ** What one attempt of a sync send leaves behind *)




Lemma network_only_app (e1 e2 : list Event) :
  network_only e1 -> network_only e2 -> network_only (e1 ++ e2).
Proof.
  intros [F1 S1] [F2 S2]. split.
  - apply Forall_app. split; assumption.
  - unfold sleeps in *. rewrite flat_map_app, S1, S2. reflexivity.
Qed.










Lemma backoff_at_least_initial (ovf : float64 -> Z) (c : Config) (rnd : float64) (a : Z) :
  RetryDelay c <= CalculateBackoffDelay ovf c rnd a.
Proof.
  unfold CalculateBackoffDelay.
  destruct (a <=? 0); [lia|].
  destruct (Z.ltb_spec (F64.to_int64 ovf (jittered c rnd (capped c a))) (RetryDelay c)); lia.
Qed.





Lemma canExecute_clock_only_when_open (c : Config) (now now' : Z) (b : circuitBreaker) :
  state b <> circuitOpen -> canExecute c now b = canExecute c now' b.
Proof.
  intros Hst. unfold canExecute.
  destruct (state b =? circuitClosed); [reflexivity|].
  destruct (Z.eqb_spec (state b) circuitOpen); [contradiction | reflexivity].
Qed.

(** The check as the client runs it: the clock is read in the open state
    only. *)
Lemma canExecuteM_run (env : Env) (w : World) :
  canExecuteM env w =
    (Returns (snd (canExecute (config (cl w)) (env_now env (tick w)) (breaker (cl w)))),
     {| cl := set_breaker
                (fst (canExecute (config (cl w)) (env_now env (tick w)) (breaker (cl w))))
                (cl w);
        tick := if state (breaker (cl w)) =? circuitOpen then S (tick w) else tick w;
        trace := trace w |}).
Proof.
  unfold canExecuteM. run.
  destruct (Z.eqb_spec (state (breaker (cl w))) circuitOpen) as [Hopen | Hst]; cbn.
  - destruct (canExecute _ _ _) as [b err]. reflexivity.
  - rewrite (canExecute_clock_only_when_open _ 0 (env_now env (tick w)) _ Hst).
    destruct (canExecute _ _ _) as [b err]. reflexivity.
Qed.



(** ** The breaker's invariant *)


Lemma wrap_int32_range (z : Z) : - 2 ^ 31 <= wrap_int32 z < 2 ^ 31.
Proof.
  unfold wrap_int32.
  pose proof (Z.mod_pos_bound (z + 2 ^ 31) (2 ^ 32) ltac:(lia)). lia.
Qed.

Lemma canExecute_closed (c : Config) (now : Z) (b : circuitBreaker) :
  state b = circuitClosed -> canExecute c now b = (b, None).
Proof. intros Hst. unfold canExecute. rewrite Hst. reflexivity. Qed.

Lemma onFailure_half_open (c : Config) (now : Z) (b : circuitBreaker) :
  state b = circuitHalfOpen ->
  onFailure c now b =
    {| lastFailureTime := now; state := circuitOpen;
       failureCount := wrap_int32 (failureCount b + 1) |}.
Proof.
  intros Hst. unfold onFailure, set_state, set_failureCount, set_lastFailureTime.
  cbn [state failureCount lastFailureTime]. rewrite Hst. reflexivity.
Qed.

Lemma onSuccess_closes (b : circuitBreaker) :
  state b = circuitClosed \/ state b = circuitHalfOpen ->
  onSuccess b = {| lastFailureTime := lastFailureTime b; state := circuitClosed;
                   failureCount := 0 |}.
Proof.
  intros [Hst | Hst]; unfold onSuccess, set_failureCount, set_state; rewrite Hst;
    reflexivity.
Qed.

Lemma onSuccess_open (b : circuitBreaker) : state b = circuitOpen -> onSuccess b = b.
Proof. intros Hst. unfold onSuccess. rewrite Hst. reflexivity. Qed.

Lemma breaker_ok_canExecute (c : Config) (now : Z) (b : circuitBreaker) :
  breaker_ok c b -> breaker_ok c (fst (canExecute c now b)).
Proof.
  intros (Hst & Hrange & Hclosed).
  destruct Hst as [Hst | [Hst | Hst]].
  - rewrite canExecute_closed by assumption. unfold breaker_ok. cbn [fst]. tauto.
  - destruct (Z.le_gt_cases (CircuitBreakerTimeout c) (Since now (lastFailureTime b))).
    + rewrite canExecute_open_elapsed by assumption.
      unfold breaker_ok. cbn [fst set_state state failureCount].
      split; [right; right; reflexivity|]. split; [assumption|].
      intros H'. discriminate H'.
    + rewrite canExecute_open_waiting by lia. unfold breaker_ok. cbn [fst]. tauto.
  - rewrite canExecute_half_open by assumption. unfold breaker_ok. cbn [fst]. tauto.
Qed.

Lemma breaker_ok_onSuccess (c : Config) (b : circuitBreaker) :
  1 <= CircuitBreakerThreshold c -> breaker_ok c b -> breaker_ok c (onSuccess b).
Proof.
  intros Hthr (Hst & Hrange & Hclosed).
  destruct Hst as [Hst | [Hst | Hst]].
  - rewrite onSuccess_closes by tauto. unfold breaker_ok. cbn [state failureCount].
    split; [left; reflexivity|]. split; [lia|]. intros _. lia.
  - rewrite onSuccess_open by assumption. unfold breaker_ok. tauto.
  - rewrite onSuccess_closes by tauto. unfold breaker_ok. cbn [state failureCount].
    split; [left; reflexivity|]. split; [lia|]. intros _. lia.
Qed.

Lemma breaker_ok_onFailure (c : Config) (now : Z) (b : circuitBreaker) :
  CircuitBreakerThreshold c < 2 ^ 31 ->
  breaker_ok c b -> breaker_ok c (onFailure c now b).
Proof.
  intros Hthr (Hst & Hrange & Hclosed).
  pose proof (wrap_int32_range (failureCount b + 1)) as Hw.
  destruct Hst as [Hst | [Hst | Hst]].
  - specialize (Hclosed Hst).
    rewrite onFailure_closed by assumption.
    unfold breaker_ok. cbn [state failureCount].
    rewrite (wrap_int32_small (failureCount b + 1)) in * by lia.
    rewrite (wrap_int32_small (CircuitBreakerThreshold c)) by lia.
    destruct (Z.leb_spec (CircuitBreakerThreshold c) (failureCount b + 1)).
    + split; [right; left; reflexivity|]. split; [lia|]. intros H'. discriminate H'.
    + split; [left; reflexivity|]. split; [lia|]. intros _. lia.
  - rewrite onFailure_open by assumption. unfold breaker_ok. cbn [state failureCount].
    split; [right; left; reflexivity|]. split; [assumption|]. intros H'. discriminate H'.
  - rewrite onFailure_half_open by assumption. unfold breaker_ok. cbn [state failureCount].
    split; [right; left; reflexivity|]. split; [assumption|]. intros H'. discriminate H'.
Qed.

(** X7. With a threshold of at least 1 that fits an [int32], the breaker
    of a new client satisfies the invariant (one of the three states, a
    closed breaker records fewer failures than the threshold), and
    [canExecute], [onSuccess] and [onFailure] keep it.  On a breaker that
    satisfies it, [GetCircuitBreakerStats] never reports the state
    "unknown", reports [IsOpen] exactly in the open state, and reports a
    failure count below the threshold whenever it reports "closed". *)
Theorem breaker_invariant (c : Client) (now : Z) :
  1 <= CircuitBreakerThreshold (config c) < 2 ^ 31 ->
  breaker_ok (config c) newCircuitBreaker /\
  (breaker_ok (config c) (breaker c) ->
     breaker_ok (config c) (fst (canExecute (config c) now (breaker c))) /\
     breaker_ok (config c) (onSuccess (breaker c)) /\
     breaker_ok (config c) (onFailure (config c) now (breaker c)) /\
     State (GetCircuitBreakerStats c) <> "unknown" /\
     (IsOpen (GetCircuitBreakerStats c) = true <-> state (breaker c) = circuitOpen) /\
     (State (GetCircuitBreakerStats c) = "closed" ->
        0 <= FailureCount (GetCircuitBreakerStats c) < CircuitBreakerThreshold (config c))).
Proof.
  intros Hthr. split.
  - unfold breaker_ok, newCircuitBreaker. cbn [state failureCount].
    split; [left; reflexivity|]. split; [lia|]. intros _. lia.
  - intros Hok.
    split; [apply breaker_ok_canExecute; assumption|].
    split; [apply breaker_ok_onSuccess; [lia | assumption]|].
    split; [apply breaker_ok_onFailure; [lia | assumption]|].
    destruct Hok as (Hst & Hrange & Hclosed). unfold GetCircuitBreakerStats.
    destruct Hst as [Hst | [Hst | Hst]]; rewrite Hst; cbn.
    + split; [discriminate|]. split; [split; intros H; discriminate H|].
      intros _. apply Hclosed. assumption.
    + split; [discriminate|]. split; [split; reflexivity|].
      intros H. discriminate H.
    + split; [discriminate|]. split; [split; intros H; discriminate H|].
      intros H. discriminate H.
Qed.

Lemma breaker_invariant_witness :
  breaker_ok sync_config newCircuitBreaker /\
  State (GetCircuitBreakerStats sync_client) <> "unknown".
Proof.
  destruct (breaker_invariant sync_client 0) as [Hnew Hkeep].
  - unfold sync_client, sync_config. cbn [config CircuitBreakerThreshold]. lia.
  - split; [exact Hnew|]. apply Hkeep. exact Hnew.
Defined.



(** ** The sync client: connection, sleeps and breaker *)







(** ** Entries built through the builders *)

Lemma call_well_formed (format : Z -> string) (e : LogEntry) (b : builder) :
  well_formed e -> well_formed (call format e b) /\ Payload (call format e b) = Payload e.
Proof.
  intros (Hl & Ht & Hs). unfold well_formed.
  destruct b; cbn [call].
  - unfold WithLogLevel. cbn [LogLevel EntryType Source Payload].
    split; [|reflexivity]. split; [|split; assumption].
    unfold LevelEmergency, LevelDebug, LevelInfo.
    destruct (Z.ltb_spec logLevel 1); cbn [orb]; [lia|].
    destruct (Z.ltb_spec 8 logLevel); lia.
  - cbn. tauto.
  - unfold WithSource. cbn [LogLevel EntryType Source Payload].
    split; [|reflexivity]. split; [assumption|]. split; [assumption|].
    destruct (String.eqb_spec source ""); [discriminate | assumption].
  - unfold WithMetadata. destruct (String.eqb key ""); cbn; tauto.
  - cbn. tauto.
  - cbn. tauto.
  - cbn. tauto.
  - cbn. tauto.
  - cbn. tauto.
Qed.

Lemma chain_well_formed (format : Z -> string) (bs : list builder) (e : LogEntry) :
  well_formed e -> well_formed (chain format e bs) /\ Payload (chain format e bs) = Payload e.
Proof.
  unfold chain. revert e.
  induction bs as [|b bs IH]; intros e He; cbn [fold_left]; [split; [exact He | reflexivity]|].
  destruct (call_well_formed format e b He) as [He' Hp].
  destruct (IH _ He') as [H1 H2]. split; [exact H1 | congruence].
Qed.

(** X6. Whatever payload and source [NewLogEntry] is given, and whatever
    builders are then called on the entry, in any number and order and with
    any arguments, the entry obtained has a level from 1 to 8, the entry
    type [TypeLog], a source that is not empty, and the payload it was
    created with. *)
Theorem built_entries_are_well_formed
    (IsValidJSON : string -> bool) (now : string) (format : Z -> string)
    (payload source : string) (bs : list builder) :
  let e := chain format (NewLogEntry IsValidJSON now payload source) bs in
  LevelEmergency <= LogLevel e <= LevelDebug /\
  EntryType e = TypeLog /\
  Source e <> "" /\
  Payload e = payload.
Proof.
  cbn zeta.
  assert (H0 : well_formed (NewLogEntry IsValidJSON now payload source)).
  { unfold well_formed, NewLogEntry. cbn [LogLevel EntryType Source].
    split; [unfold LevelEmergency, LevelInfo, LevelDebug; lia|].
    split; [reflexivity|].
    destruct (String.eqb_spec source ""); [discriminate | assumption]. }
  destruct (chain_well_formed format bs _ H0) as [(Hl & Ht & Hs) Hp].
  split; [exact Hl|]. split; [exact Ht|]. split; [exact Hs | exact Hp].
Qed.

(** ** The batcher, call after call *)

Ltac settle :=
  first [ tauto | congruence | right; assumption | left; reflexivity
        | intros; congruence ].
Ltac four := split; [split | split]; settle.

Lemma onClient_same {A : Type} (m : M World A) (bc : BatchClient) :
  batch (snd (onClient m bc)) = batch bc /\
  batchConfig (snd (onClient m bc)) = batchConfig bc /\
  stopped (snd (onClient m bc)) = stopped bc /\
  timer (snd (onClient m bc)) = timer bc.
Proof.
  unfold onClient. destruct (m (client bc)) as [r w]. repeat split.
Qed.

Lemma prepareFlush_same (bc : BatchClient) :
  batch (prepareFlush bc) = [] /\
  batchConfig (prepareFlush bc) = batchConfig bc /\
  stopped (prepareFlush bc) = stopped bc.
Proof.
  unfold prepareFlush. cbn.
  destruct (AutoFlush (batchConfig bc) && negb (stopped bc)); repeat split.
Qed.

Lemma flushBatchLocked_same (env : Env) (bc : BatchClient) :
  batch (snd (flushBatchLocked env bc)) = [] /\
  batchConfig (snd (flushBatchLocked env bc)) = batchConfig bc /\
  stopped (snd (flushBatchLocked env bc)) = stopped bc.
Proof.
  destruct (batch bc) as [|e rest] eqn:E.
  - unfold flushBatchLocked. run. rewrite E. cbn. repeat split. exact E.
  - rewrite flushBatchLocked_nonempty by (rewrite E; discriminate).
    destruct (onClient_same (SendLogBatch env (batch bc)) (prepareFlush bc))
      as (-> & -> & -> & _).
    apply prepareFlush_same.
Qed.

Lemma bind_snd {S A B : Type} (P : S -> Prop) (m : M S A) (k : A -> M S B) (s : S) :
  P (snd (m s)) -> (forall a s', P s' -> P (snd (k a s'))) -> P (snd (bind m k s)).
Proof.
  intros Hm Hk. unfold bind. destruct (m s) as [[a| |msg|] s'] eqn:E; cbn in Hm |- *.
  - apply Hk. exact Hm.
  - exact Hm.
  - exact Hm.
  - exact Hm.
Qed.

Lemma BatchClient_Close_closes (env : Env) (bc : BatchClient) :
  batch (snd (BatchClient_Close env bc)) = [] /\
  batchConfig (snd (BatchClient_Close env bc)) = batchConfig bc /\
  stopped (snd (BatchClient_Close env bc)) = true.
Proof.
  set (P := fun s : BatchClient =>
              batch s = [] /\ batchConfig s = batchConfig bc /\ stopped s = true).
  set (bc1 := match timer bc with
              | Some _ => set_timer (Some false) (set_stopped true bc)
              | None => set_stopped true bc
              end).
  assert (E : BatchClient_Close env bc
              = bind (match batch bc with
                      | [] => ret tt
                      | _ :: _ => flushBatchLocked env ;; ret tt
                      end) (fun _ => onClient (Close env caller)) bc1).
  { unfold bc1. clear P bc1. destruct bc as [w cfg t b s].
    cbv beta iota delta [BatchClient_Close bind modify get ret].
    cbn [timer batch set_stopped set_timer].
    destruct t; reflexivity. }
  assert (H1 : batchConfig bc1 = batchConfig bc /\ stopped bc1 = true /\ batch bc1 = batch bc).
  { unfold bc1. destruct (timer bc); repeat split. }
  destruct H1 as (Hc1 & Hs1 & Hb1).
  rewrite E. change (P (snd (bind (match batch bc with
                      | [] => ret tt
                      | _ :: _ => flushBatchLocked env ;; ret tt
                      end) (fun _ => onClient (Close env caller)) bc1))).
  apply bind_snd.
  - destruct (batch bc) as [|e rest] eqn:Eb.
    + cbn. unfold P. split; [congruence|]. split; assumption.
    + apply bind_snd.
      * unfold P. destruct (flushBatchLocked_same env bc1) as (-> & -> & ->).
        split; [reflexivity|]. split; assumption.
      * intros _ s' Hs'. exact Hs'.
  - intros _ s' (Hb & Hc & Hs). unfold P.
    destruct (onClient_same (Close env caller) s') as (-> & -> & -> & _).
    split; [assumption|]. split; assumption.
Qed.

Lemma BatchClient_SendLogEntry_keeps (env : Env) (entry : LogEntry) (bc : BatchClient) :
  buffer_ok bc ->
  buffer_ok (snd (BatchClient_SendLogEntry env entry bc)) /\
  same_batcher bc (snd (BatchClient_SendLogEntry env entry bc)).
Proof.
  intros [Hroom Hstop]. unfold BatchClient_SendLogEntry, buffer_ok, same_batcher. run.
  destruct (stopped bc) eqn:Hs.
  - destruct (onClient_same (SendLogEntry env entry) bc) as (-> & -> & -> & _).
    rewrite Hs. four.
  - destruct (Z.leb_spec (MaxBatchSize (batchConfig bc))
                         (Z.of_nat (length (batch bc ++ [entry])))) as [Hfull | Hlt].
    + destruct (flushBatchLocked_same env (set_batch (batch bc ++ [entry]) bc))
        as (-> & -> & ->).
      cbn. four.
    + cbn. four.
Qed.

Lemma batch_run_keeps (env : Env) (J : string -> bool) (c : batch_call) (bc : BatchClient) :
  buffer_ok bc ->
  buffer_ok (snd (batch_run env J c bc)) /\ same_batcher bc (snd (batch_run env J c bc)).
Proof.
  intros Hok.
  assert (Hret : forall (A : Type) (m : M BatchClient A),
            (buffer_ok (snd (m bc)) /\ same_batcher bc (snd (m bc))) ->
            buffer_ok (snd (bind m (fun _ => ret tt) bc)) /\
            same_batcher bc (snd (bind m (fun _ => ret tt) bc))).
  { intros A m H.
    apply (bind_snd (fun s => buffer_ok s /\ same_batcher bc s)); [exact H|].
    intros _ s' Hs'. exact Hs'. }
  assert (Hon : forall (A : Type) (m : M World A),
            buffer_ok (snd (onClient m bc)) /\ same_batcher bc (snd (onClient m bc))).
  { intros A m. unfold buffer_ok, same_batcher.
    destruct (onClient_same m bc) as (-> & -> & -> & _).
    destruct Hok as [H1 H2]. four. }
  assert (Hfl : forall bc1 : BatchClient,
            same_batcher bc bc1 ->
            buffer_ok (snd (flushBatchLocked env bc1)) /\
            same_batcher bc (snd (flushBatchLocked env bc1))).
  { intros bc1 [Hc Hs]. unfold buffer_ok, same_batcher.
    destruct (flushBatchLocked_same env bc1) as (-> & -> & ->).
    four. }
  destruct c; cbn [batch_run].
  - apply Hret, Hon.
  - apply Hret. unfold BatchClient_SendLog.
    apply (bind_snd (fun s => buffer_ok s /\ same_batcher bc s)); [apply Hon|].
    intros k s' [Hs1 Hs2].
    destruct (BatchClient_SendLogEntry_keeps env
                (NewLogEntry J (env_format env (env_now env k)) message source) s' Hs1)
      as [H1 [H2 H3]].
    split; [exact H1|]. destruct Hs2 as [H4 H5]. split; [congruence | tauto].
  - apply Hret. apply BatchClient_SendLogEntry_keeps. exact Hok.
  - apply Hret. apply Hfl. split; [reflexivity | tauto].
  - unfold flushTimerFired. run.
    destruct (negb (stopped bc) && negb (Nat.eqb (length (batch bc)) 0)) eqn:E.
    + change (buffer_ok (snd (bind (flushBatchLocked env) (fun _ => ret tt)
                                (set_timer (Some false) bc))) /\
              same_batcher bc (snd (bind (flushBatchLocked env) (fun _ => ret tt)
                                (set_timer (Some false) bc)))).
      apply (bind_snd (fun s => buffer_ok s /\ same_batcher bc s)).
      * apply Hfl. split; [reflexivity | tauto].
      * intros _ s' Hs'. exact Hs'.
    + cbn. split; [exact Hok|]. split; [reflexivity | tauto].
  - apply Hret, Hon.
  - apply Hret, Hon.
  - apply Hret. unfold buffer_ok, same_batcher.
    destruct (BatchClient_Close_closes env bc) as (-> & -> & ->). four.
Qed.

Lemma batch_runs_keeps (env : Env) (J : string -> bool) (cs : list batch_call) :
  forall bc : BatchClient,
    buffer_ok bc ->
    buffer_ok (snd (batch_runs env J cs bc)) /\
    same_batcher bc (snd (batch_runs env J cs bc)).
Proof.
  induction cs as [|c cs IH]; intros bc Hok; cbn [batch_runs].
  - cbn. split; [exact Hok|]. split; [reflexivity | tauto].
  - apply (bind_snd (fun s => buffer_ok s /\ same_batcher bc s)).
    + apply batch_run_keeps. exact Hok.
    + intros _ s' [Hs1 [Hs2 Hs3]]. destruct (IH s' Hs1) as [H1 [H2 H3]].
      split; [exact H1|]. split; [congruence | tauto].
Qed.

(** X10. A batch client made by [NewBatchClient], after any calls of its
    methods and firings of its timer, in any order: its configuration is
    the one it was made with; the number of pending entries that
    [GetStats] reports is 0 or below [MaxBatchSize], so it is always 0
    when [MaxBatchSize] is 1 or less; and once [Close] has been called the
    buffer is empty for good, later entries being handed on to the client
    at once. *)
Theorem batcher_buffer_stays_below_the_maximum
    (env : Env) (IsValidJSON : string -> bool) (w : World) (bcfg : option BatchConfig)
    (bc0 : BatchClient) (cs : list batch_call) :
  NewBatchClient (Some w) bcfg = Returns bc0 ->
  let bc := snd (batch_runs env IsValidJSON cs bc0) in
  batchConfig bc = match bcfg with Some b => b | None => DefaultBatchConfig end /\
  (PendingEntries (GetStats bc) = 0 \/
   PendingEntries (GetStats bc) < StatsMaxBatchSize (GetStats bc)) /\
  (In CallClose cs -> (fst (batch_runs env IsValidJSON cs bc0) = Returns tt) ->
     stopped bc = true /\ PendingEntries (GetStats bc) = 0 /\
     forall entry : LogEntry,
       BatchClient_SendLogEntry env entry bc = onClient (SendLogEntry env entry) bc).
Proof.
  intros Hnew. cbn zeta.
  assert (H0 : buffer_ok bc0 /\ stopped bc0 = false /\
               batchConfig bc0 = match bcfg with Some b => b | None => DefaultBatchConfig end).
  { unfold NewBatchClient in Hnew.
    destruct (MaxBatchSize _ <? 0); [discriminate|].
    destruct (AutoFlush _ && _); injection Hnew as <-; cbn;
      (split; [split; [left; reflexivity | reflexivity]|]); split; reflexivity. }
  destruct H0 as (Hok0 & Hrun0 & Hcfg0).
  destruct (batch_runs_keeps env IsValidJSON cs bc0 Hok0) as [[Hroom Hstop] [Hcfg _]].
  split; [congruence|].
  split.
  { unfold GetStats. cbn [PendingEntries StatsMaxBatchSize].
    destruct Hroom as [-> | Hlt]; [left; reflexivity | right; exact Hlt]. }
  intros Hin Hret.
  assert (Hs : stopped (snd (batch_runs env IsValidJSON cs bc0)) = true).
  { clear Hcfg Hroom Hstop Hcfg0 Hrun0 Hnew. revert bc0 Hok0 Hin Hret.
    induction cs as [|c cs IH]; intros bc0 Hok0 Hin Hret; [destruct Hin|].
    cbn [batch_runs] in Hret |- *. unfold bind in Hret |- *.
    destruct (batch_run_keeps env IsValidJSON c bc0 Hok0) as [Hok1 [_ Hst1]].
    destruct (batch_run env IsValidJSON c bc0) as [[u| |msg|] bc1] eqn:E1;
      cbn in Hret; try discriminate Hret.
    cbn [snd] in Hok1, Hst1.
    destruct Hin as [-> | Hin].
    - assert (Hc1 : stopped bc1 = true).
      { assert (Hgo : stopped (snd (batch_run env IsValidJSON CallClose bc0)) = true).
        { cbn [batch_run].
          apply (bind_snd (fun s => stopped s = true)).
          - apply BatchClient_Close_closes.
          - intros _ s' Hs'. exact Hs'. }
        rewrite E1 in Hgo. exact Hgo. }
      destruct (batch_runs_keeps env IsValidJSON cs bc1 Hok1) as [_ [_ Hkeep]].
      apply Hkeep. exact Hc1.
    - apply IH; assumption. }
  split; [exact Hs|].
  split.
  { unfold GetStats. cbn [PendingEntries]. rewrite (Hstop Hs). reflexivity. }
  intros entry. unfold BatchClient_SendLogEntry. run. rewrite Hs. reflexivity.
Qed.

Lemma batcher_buffer_stays_below_the_maximum_witness :
  let bc := snd (batch_runs (unreachable 0) (fun _ => false)
                   [CallSendLogEntry sample_entry; CallTimerFired; CallClose]
                   manual_batcher) in
  PendingEntries (GetStats bc) = 0 \/
  PendingEntries (GetStats bc) < StatsMaxBatchSize (GetStats bc).
Proof.
  pose proof (batcher_buffer_stays_below_the_maximum (unreachable 0) (fun _ => false)
                (start sync_client) (Some (batchConfig manual_batcher)) manual_batcher
                [CallSendLogEntry sample_entry; CallTimerFired; CallClose] eq_refl) as H.
  exact (proj1 (proj2 H)).
Defined.

Lemma BatchClient_SendLogEntry_room (env : Env) (entry : LogEntry) (bc : BatchClient) :
  stopped bc = false ->
  Z.of_nat (length (batch bc)) + 1 < MaxBatchSize (batchConfig bc) ->
  BatchClient_SendLogEntry env entry bc = (Returns None, set_batch (batch bc ++ [entry]) bc).
Proof.
  intros Hrun Hroom. unfold BatchClient_SendLogEntry. run. rewrite Hrun.
  rewrite length_app, Nat2Z.inj_add. cbn [length].
  destruct (Z.leb_spec (MaxBatchSize (batchConfig bc))
                       (Z.of_nat (length (batch bc)) + Z.of_nat 1)) as [Hle | _];
    [lia | reflexivity].
Qed.

Lemma BatchClient_SendLogEntry_full (env : Env) (entry : LogEntry) (bc : BatchClient) :
  stopped bc = false ->
  MaxBatchSize (batchConfig bc) <= Z.of_nat (length (batch bc)) + 1 ->
  BatchClient_SendLogEntry env entry bc
    = onClient (SendLogBatch env (batch bc ++ [entry])) (prepareFlush bc).
Proof.
  intros Hrun Hfull.
  assert (Hstep : BatchClient_SendLogEntry env entry bc
            = flushBatchLocked env (set_batch (batch bc ++ [entry]) bc)).
  { unfold BatchClient_SendLogEntry. run. rewrite Hrun.
    rewrite length_app, Nat2Z.inj_add. cbn [length].
    destruct (Z.leb_spec (MaxBatchSize (batchConfig bc))
                         (Z.of_nat (length (batch bc)) + Z.of_nat 1)) as [_ | Hlt];
      [reflexivity | lia]. }
  rewrite Hstep, flushBatchLocked_nonempty.
  - reflexivity.
  - cbn [batch set_batch]. destruct (batch bc); discriminate.
Qed.

(** X11. Entries sent one after the other to a batch client that is not
    closed: while the buffer stays below [MaxBatchSize] every call returns
    no error and only appends, the client is not called; the call that
    brings the buffer to [MaxBatchSize] is one call of the client's
    [SendLogBatch] with all the entries, the buffered ones first, in the
    order they were sent, on a batch client whose buffer is already
    empty. *)
Theorem full_batch_is_one_SendLogBatch
    (env : Env) (entries : list LogEntry) (bc : BatchClient) :
  stopped bc = false -> entries <> [] ->
  (Z.of_nat (length (batch bc ++ entries)) < MaxBatchSize (batchConfig bc) ->
     send_each env entries bc = (Returns None, set_batch (batch bc ++ entries) bc)) /\
  (Z.of_nat (length (batch bc ++ entries)) = MaxBatchSize (batchConfig bc) ->
     send_each env entries bc
       = onClient (SendLogBatch env (batch bc ++ entries)) (prepareFlush bc)).
Proof.
  revert bc. induction entries as [|e rest IH]; intros bc Hrun Hne; [contradiction|].
  destruct rest as [|e' rest'].
  - cbn [send_each]. split; intros Hlen.
    + apply BatchClient_SendLogEntry_room; [exact Hrun|].
      rewrite length_app, Nat2Z.inj_add in Hlen. cbn [length] in Hlen. lia.
    + apply BatchClient_SendLogEntry_full; [exact Hrun|].
      rewrite length_app, Nat2Z.inj_add in Hlen. cbn [length] in Hlen. lia.
  - assert (Hstep : forall bound : Z,
              Z.of_nat (length (batch bc ++ e :: e' :: rest')) <= bound ->
              bound <= MaxBatchSize (batchConfig bc) ->
              send_each env (e :: e' :: rest') bc
                = send_each env (e' :: rest') (set_batch (batch bc ++ [e]) bc)).
    { intros bound Hlen Hb.
      change (send_each env (e :: e' :: rest') bc)
        with (bind (BatchClient_SendLogEntry env e)
                   (fun _ => send_each env (e' :: rest')) bc).
      unfold bind. rewrite BatchClient_SendLogEntry_room; [reflexivity | exact Hrun |].
      rewrite length_app, Nat2Z.inj_add in Hlen. cbn [length] in Hlen. lia. }
    specialize (IH (set_batch (batch bc ++ [e]) bc) Hrun ltac:(discriminate)).
    cbn [batch set_batch batchConfig] in IH. rewrite <- app_assoc in IH.
    cbn [app] in IH. destruct IH as [IHroom IHfull].
    split; intros Hlen.
    + rewrite (Hstep (MaxBatchSize (batchConfig bc))) by lia.
      rewrite IHroom by exact Hlen. reflexivity.
    + rewrite (Hstep (MaxBatchSize (batchConfig bc))) by lia.
      rewrite IHfull by exact Hlen. reflexivity.
Qed.

Lemma full_batch_is_one_SendLogBatch_witness :
  send_each healthy [sample_entry; sample_entry; sample_entry] manual_batcher
    = onClient (SendLogBatch healthy [sample_entry; sample_entry; sample_entry])
        manual_batcher.
Proof.
  apply (full_batch_is_one_SendLogBatch healthy
           [sample_entry; sample_entry; sample_entry] manual_batcher);
    [reflexivity | discriminate | reflexivity].
Defined.

(** ** Timestamps *)

Lemma stamped_wider (env : Env) (w1 w2 w3 w4 : World) (e e' : LogEntry) :
  (tick w1 <= tick w2)%nat -> (tick w3 <= tick w4)%nat ->
  stamped env w2 w3 e e' -> stamped env w1 w4 e e'.
Proof.
  intros H12 H34 [Hkeep Hfill]. split; [exact Hkeep|].
  intros He. destruct (Hfill He) as (k & Hk & ->). exists k. split; [lia | reflexivity].
Qed.

Lemma stamp_run (env : Env) (e : LogEntry) (w : World) :
  exists (e' : LogEntry) (w' : World),
    stamp env e w = (Returns e', w') /\
    cl w' = cl w /\ trace w' = trace w /\ (tick w <= tick w')%nat /\
    stamped env w w' e e'.
Proof.
  unfold stamp, stamped. destruct (String.eqb_spec (Timestamp e) "") as [He | He].
  - run. eexists _, _. split; [reflexivity|]. cbn.
    split; [reflexivity|]. split; [reflexivity|]. split; [lia|].
    split; [intros H; contradiction|]. intros _. exists (tick w). split; [lia | reflexivity].
  - run. eexists _, _. split; [reflexivity|].
    split; [reflexivity|]. split; [reflexivity|]. split; [lia|].
    split; [reflexivity|]. intros H; contradiction.
Qed.

Lemma stampAll_run (env : Env) (es : list LogEntry) :
  forall w : World,
  exists (es' : list LogEntry) (w' : World),
    stampAll env es w = (Returns es', w') /\
    cl w' = cl w /\ trace w' = trace w /\ (tick w <= tick w')%nat /\
    Forall2 (stamped env w w') es es'.
Proof.
  induction es as [|e es IH]; intros w.
  - exists [], w. cbn. split; [reflexivity|]. split; [reflexivity|].
    split; [reflexivity|]. split; [lia | constructor].
  - destruct (stamp_run env e w) as (e' & w1 & E1 & Hc1 & Ht1 & Hk1 & Hs1).
    destruct (IH w1) as (es' & w2 & E2 & Hc2 & Ht2 & Hk2 & Hs2).
    exists (e' :: es'), w2.
    split.
    { cbn [stampAll]. unfold bind. rewrite E1, E2. reflexivity. }
    split; [congruence|]. split; [congruence|]. split; [lia|].
    constructor.
    + apply (stamped_wider env w w w1 w2); [lia | lia | exact Hs1].
    + eapply Forall2_impl; [exact Hs2|].
      intros x y Hxy. apply (stamped_wider env w w1 w2 w2); [lia | lia | exact Hxy].
Qed.

(** X12. [SendLogBatch] is the stamping of the entries followed by one
    send, through the queue in async mode and through the retry loop
    otherwise, of one batch of version 1.0.  The batch holds as many
    entries as were given, in the same order; an entry that carries a
    timestamp is in it unchanged, an entry without one differs only by
    its timestamp, a reading of the clock made during the call.  Stamping
    touches neither the client nor the network.  [SendLogEntry] does the
    same with its one entry. *)
Theorem SendLogBatch_stamps_then_sends (env : Env) (entries : list LogEntry)
    (entry : LogEntry) (w : World) :
  (exists (entries' : list LogEntry) (w1 : World),
     Forall2 (stamped env w w1) entries entries' /\
     cl w1 = cl w /\ trace w1 = trace w /\
     SendLogBatch env entries w
       = dispatch env (LogBatchData {| BatchVersion := "1.0"; Entries := entries' |}) w1) /\
  (exists (entry' : LogEntry) (w1 : World),
     stamped env w w1 entry entry' /\
     cl w1 = cl w /\ trace w1 = trace w /\
     SendLogEntry env entry w = dispatch env (LogEntryData entry') w1).
Proof.
  split.
  - destruct (stampAll_run env entries w) as (es' & w1 & E & Hc & Ht & _ & Hs).
    exists es', w1. split; [exact Hs|]. split; [exact Hc|]. split; [exact Ht|].
    unfold SendLogBatch, dispatch. unfold bind at 1. rewrite E. reflexivity.
  - destruct (stamp_run env entry w) as (e' & w1 & E & Hc & Ht & _ & Hs).
    exists e', w1. split; [exact Hs|]. split; [exact Hc|]. split; [exact Ht|].
    unfold SendLogEntry, dispatch. unfold bind at 1. rewrite E. reflexivity.
Qed.

(** ** After [Close], in async mode *)




(** ** The convenience constructors *)


(** ** The logging adapters *)


Lemma latest_app (key : string) (l1 l2 : list (string * string)) :
  latest key (l1 ++ l2)
    = match latest key l2 with Some v => Some v | None => latest key l1 end.
Proof.
  induction l1 as [|[k v] l1 IH]; cbn [app latest].
  - destruct (latest key l2); reflexivity.
  - rewrite IH. destruct (latest key l2); [reflexivity|].
    destruct (latest key l1); reflexivity.
Qed.














(** ** Sending after [Close] *)

Lemma attempt_on_closed_conn (env : Env) (d : Data) (w : World) :
  env_marshal env d = None ->
  0 < Timeout (config (cl w)) ->
  AsyncMode (config (cl w)) = false ->
  muHeld (cl w) = false ->
  conn (cl w) = Some {| closed := true |} ->
  attempt_once env caller d 0 w
    = (Returns (Some (DeadlineError ErrNetClosed)),
       {| cl := set_conn None (cl w); tick := tick w;
          trace := trace w ++ [EvMarshal d; EvSetWriteDeadline] |}).
Proof.
  intros Hmar Ht Hsync Hmu Hconn. apply Z.ltb_lt in Ht.
  unfold attempt_once, attempt_once_, sendData, Close, Close_, connClose.
  change (0 <? 0) with false. run.
  repeat first [ rewrite Hconn | rewrite Hmar | rewrite Hmu | rewrite Hsync
               | rewrite Ht | progress cbn ].
  rewrite <- ?app_assoc. reflexivity.
Qed.

Lemma attempt_reconnects (env : Env) (d : Data) (a : Z) (w : World) :
  network_up env ->
  0 < Timeout (config (cl w)) ->
  0 < a ->
  conn (cl w) = None ->
  exists (w' : World) (delay : Z),
    attempt_once env caller d a w = (Returns None, w') /\
    RetryDelay (config (cl w)) <= delay /\
    cl w' = set_conn (Some {| closed := false |}) (cl w) /\
    trace w' = trace w ++ [EvSleep delay;
                           EvDial (Network (config (cl w))) (Address (config (cl w)));
                           EvMarshal d; EvSetWriteDeadline; EvWrite d].
Proof.
  intros (Hmar & Hdial & Hdl & Hwr) Ht Ha Hconn.
  exists (snd (attempt_once env caller d a w)),
         (CalculateBackoffDelay (env_ovf env) (config (cl w)) (env_rand env (tick w)) a).
  assert (Ht' : (Timeout (config (cl w)) <=? 0) = false) by (apply Z.leb_gt; exact Ht).
  apply Z.ltb_lt in Ht.
  unfold attempt_once, attempt_once_, Connect, DialContext, WithTimeout, sendData. run.
  apply Z.ltb_lt in Ha. rewrite Ha.
  repeat first [ rewrite Hconn | rewrite Hmar | rewrite Hdial | rewrite Hdl
               | rewrite Hwr | rewrite Ht | rewrite Ht' | progress cbn ].
  split; [reflexivity|]. split; [apply backoff_at_least_initial|].
  rewrite <- ?app_assoc. split; reflexivity.
Qed.

(** X18. [Close] is not final on a sync client.  A connected sync
    client with a closed breaker and a positive [Timeout] is closed, and
    then used for a send while the peer is there.  The first attempt finds
    the closed connection and fails on it, when it sets the write
    deadline.  With [MaxRetries] 0 that is the only attempt: the send
    returns the exhausted error, a failure is reported to the breaker, and
    the client is left without a connection.  With [MaxRetries] 1 or more
    (and below the largest [int]) the send sleeps once, for at least
    [RetryDelay], dials again, writes, and returns no error: the client
    that was closed holds a live connection again. *)
Theorem send_after_Close_reconnects (env : Env) (d : Data) (w : World) :
  network_up env ->
  0 < Timeout (config (cl w)) ->
  MaxRetries (config (cl w)) < max_int64 ->
  AsyncMode (config (cl w)) = false ->
  muHeld (cl w) = false ->
  conn (cl w) = Some {| closed := false |} ->
  state (breaker (cl w)) = circuitClosed ->
  exists (r1 : option error) (w1 : World),
    Close env caller w = (Returns r1, w1) /\
    conn (cl w1) = Some {| closed := true |} /\
    exists (r2 : option error) (w2 : World),
      sendWithRetry env caller d w1 = (Returns r2, w2) /\
      (MaxRetries (config (cl w)) = 0 ->
         r2 = Some (SendExhaustedError 1 (Some (DeadlineError ErrNetClosed))) /\
         conn (cl w2) = None /\
         trace w2 = trace w1 ++ [EvMarshal d; EvSetWriteDeadline; EvCircuitFailure]) /\
      (1 <= MaxRetries (config (cl w)) ->
         r2 = None /\
         conn (cl w2) = Some {| closed := false |} /\
         exists delay : Z,
           RetryDelay (config (cl w)) <= delay /\
           trace w2 = trace w1 ++
             [EvMarshal d; EvSetWriteDeadline;
              EvSleep delay;
              EvDial (Network (config (cl w))) (Address (config (cl w)));
              EvMarshal d; EvSetWriteDeadline; EvWrite d;
              EvCircuitSuccess]).
Proof.
  intros Hup Htimeout Hmax Hsync Hmu Hconn Hst.
  destruct (Close_without_worker env caller w Hmu) as (_ & _ & Hlive);
    [rewrite Hsync; reflexivity|].
  rewrite (Hlive Hconn). clear Hlive.
  set (w1 := {| cl := set_conn (Some {| closed := true |}) (cl w);
                tick := S (tick w); trace := trace w ++ [EvConnClose] |}).
  exists (env_connClose env (tick w)), w1.
  split; [reflexivity|]. split; [reflexivity|].
  unfold sendWithRetry, sendWithRetry_. unfold bind at 1. rewrite canExecuteM_run.
  rewrite canExecute_closed by exact Hst. cbn [fst snd].
  set (wb := {| cl := set_breaker (breaker (cl w1)) (cl w1);
                tick := if state (breaker (cl w1)) =? circuitOpen
                        then S (tick w1) else tick w1;
                trace := trace w1 |}).
  unfold bind at 1. unfold client_ at 1. cbn beta iota.
  change (config (cl wb)) with (config (cl w)).
  pose proof (in_step_start env (config (cl w)) Hmax) as Hstep.
  pose proof (attempt_on_closed_conn env d wb (proj1 Hup d) Htimeout Hsync Hmu eq_refl)
    as E0.
  unfold attempt_once in E0.
  change (trace wb) with (trace w1) in E0.
  destruct (iterations env (config (cl w))) as [|[|n]] eqn:Hiter.
  - (* a negative MaxRetries: no attempt at all *)
    apply in_step_end in Hstep. apply Z.leb_gt in Hstep as Hb.
    cbn [attempts_]. unfold bind at 1, client_ at 1.
    change (config (cl wb)) with (config (cl w)). rewrite Hb.
    unfold onFailureM. run.
    do 2 eexists. split; [reflexivity|].
    split; [intros H0; lia | intros H1; lia].
  - (* one attempt *)
    apply in_step_next in Hstep as (Hle & _ & Hnext).
    apply in_step_end in Hnext. apply Z.leb_le in Hle as Hb.
    apply Z.leb_gt in Hnext as Hb'.
    assert (Hm : MaxRetries (config (cl w)) = 0) by lia.
    cbn [attempts_]. unfold bind at 1, client_ at 1.
    change (config (cl wb)) with (config (cl w)). rewrite Hb.
    unfold bind at 1. rewrite E0.
    unfold bind at 1, client_ at 1. cbn [cl config set_conn].
    change (config (cl wb)) with (config (cl w)).
    change (wrap_int64 (0 + 1)) with (0 + 1). rewrite Hb'.
    unfold onFailureM. run.
    do 2 eexists. split; [reflexivity|].
    split; [|intros H1; lia]. intros _.
    rewrite Hm. split; [reflexivity|]. split; [reflexivity|].
    cbn [trace w1]. rewrite <- ?app_assoc. reflexivity.
  - (* at least one retry *)
    apply in_step_next in Hstep as (Hle & _ & Hnext).
    apply in_step_next in Hnext as (Hle1 & _ & _).
    apply Z.leb_le in Hle as Hb. apply Z.leb_le in Hle1 as Hb1.
    cbn [attempts_]. unfold bind at 1, client_ at 1.
    change (config (cl wb)) with (config (cl w)). rewrite Hb.
    unfold bind at 1. rewrite E0.
    unfold bind at 1, client_ at 1. cbn [cl config set_conn].
    change (config (cl wb)) with (config (cl w)).
    change (wrap_int64 (0 + 1)) with (0 + 1). rewrite Hb1.
    set (wc := {| cl := set_conn None (cl wb); tick := tick wb;
                  trace := trace w1 ++ [EvMarshal d; EvSetWriteDeadline] |}).
    destruct (attempt_reconnects env d (0 + 1) wc Hup Htimeout ltac:(lia) eq_refl)
      as (w' & delay & E1 & Hdelay & Hcl' & Htr').
    unfold attempt_once in E1.
    change (config (cl wc)) with (config (cl w)) in Hdelay, Htr'.
    change (trace wc) with (trace w1 ++ [EvMarshal d; EvSetWriteDeadline]) in Htr'.
    unfold bind at 1. rewrite E1. unfold onSuccessM. run.
    do 2 eexists. split; [reflexivity|].
    split; [intros H0; lia|]. intros _.
    split; [reflexivity|]. cbn. rewrite Hcl'. split; [reflexivity|].
    exists delay. split; [exact Hdelay|].
    rewrite Htr'. cbn [trace w1]. rewrite <- ?app_assoc. reflexivity.
Qed.

Lemma send_after_Close_reconnects_witness :
  exists (r1 : option error) (w1 : World),
    Close healthy caller (start (set_conn (Some {| closed := false |}) sync_client))
      = (Returns r1, w1) /\
    exists w2 : World,
      sendWithRetry healthy caller (PingData NewPingRequest) w1 = (Returns None, w2) /\
      conn (cl w2) = Some {| closed := false |}.
Proof.
  destruct (send_after_Close_reconnects healthy (PingData NewPingRequest)
              (start (set_conn (Some {| closed := false |}) sync_client)))
    as (r1 & w1 & E1 & _ & r2 & w2 & E2 & _ & Hretry).
  - repeat split.
  - vm_compute. reflexivity.
  - vm_compute. reflexivity.
  - reflexivity.
  - reflexivity.
  - reflexivity.
  - reflexivity.
  - exists r1, w1. split; [exact E1|]. exists w2.
    destruct Hretry as (-> & Hc & _); [vm_compute; discriminate|].
    split; [exact E2 | exact Hc].
Defined.

(** ** The edges of the retry loop *)

(** With [MaxRetries] at the largest [int] the condition of the loop never
    fails.  While the peer cannot be reached the send goes on dialing:
    however long the run is followed, it has not returned and has reported
    nothing to the breaker. *)
Example retries_without_end :
  fst (sendWithRetry (unreachable_for 6) caller (PingData NewPingRequest)
         (start (client_of endless_config))) = Unfinished /\
  List.filter is_report
    (trace (snd (sendWithRetry (unreachable_for 6) caller (PingData NewPingRequest)
                   (start (client_of endless_config))))) = [] /\
  length (trace (snd (sendWithRetry (unreachable_for 6) caller (PingData NewPingRequest)
                        (start (client_of endless_config))))) = 11%nat.
Proof. vm_compute. repeat split. Qed.

(** With a [Timeout] of zero the context that [sendWithRetry] builds has
    expired before the dial: no attempt connects, though the peer is there,
    and nothing is dialed or written. *)
Example no_timeout_never_connects :
  sendWithRetry healthy caller (PingData NewPingRequest)
      (start (client_of no_timeout_config))
    = (Returns (Some (SendExhaustedError 3
         (Some (ConnectError "unix" "/tmp/logflux-agent.sock"
                  (OSError "dial: i/o timeout"))))),
       {| cl := set_breaker
                  {| lastFailureTime := 2 * Second; state := circuitClosed;
                     failureCount := 1 |}
                  (client_of no_timeout_config);
          tick := 3;
          trace := [EvSleep (200 * Millisecond); EvSleep (400 * Millisecond);
                    EvCircuitFailure] |}).
Proof. vm_compute. reflexivity. Qed.
